(** * A shallow embedding of the page migrator's DOM stages

    The development follows the services of the repository:
    - [HtmlStyleProcessorService] (positional style injection),
    - [WidgetExtractionService] (leaf widgets replaced by [{{widget-N}}]),
    - [ComponentExtractionService] (named targets and top-level sections
      replaced by [{{wigoh-id-NNN}}]),
    - [ReconstructionService] (tokens substituted back),
    - [HtmlToJsonService] (DOM to tree export),
    - [AIService] (the markup taken out of a response),
    - [GcsUploadService] (the node count of an uploaded tree).

    Strings are sequences of characters with code points below 256, kept as
    [list ascii] so that the list library applies.  The parsed document is the
    input of every stage: the third-party HTML parsers (jsdom, cheerio) are
    outside the repository, their serialisation is modelled after the HTML
    fragment serialisation algorithm both of them implement. *)

From Stdlib Require Import List Arith Lia Bool Ascii String.
From Stdlib Require Import DecimalString DecimalNat.
Import ListNotations.

Set Implicit Arguments.
Set Warnings "-register-all".

(** ** Strings *)

Definition str := list ascii.

Definition lit (s : string) : str := list_ascii_of_string s.
Coercion lit : string >-> str.

Open Scope string_scope.
Open Scope nat_scope.
Open Scope list_scope.

Definition ch (c : ascii) : nat := nat_of_ascii c.

(** The double quote and the line feed. *)
Definition dq : ascii := Ascii false true false false false true false false.
Definition nl : ascii := Ascii false true false true false false false false.

Fixpoint str_eqb (a b : str) : bool :=
  match a, b with
  | [], [] => true
  | x :: a', y :: b' => Ascii.eqb x y && str_eqb a' b'
  | _, _ => false
  end.

(** [String.prototype.toLowerCase] on this character range: A-Z only. *)
Definition lower_char (c : ascii) : ascii :=
  if (65 <=? ch c) && (ch c <=? 90) then ascii_of_nat (ch c + 32) else c.

Definition toLowerCase (s : str) : str := map lower_char s.

(** White space of [String.prototype.trim] and of the regular expression
    class [\s] in this character range. *)
Definition is_space (c : ascii) : bool :=
  let n := ch c in
  ((9 <=? n) && (n <=? 13)) || (n =? 32) || (n =? 160).

Fixpoint trimStart (s : str) : str :=
  match s with
  | c :: s' => if is_space c then trimStart s' else s
  | [] => []
  end.

Definition trim (s : str) : str := rev (trimStart (rev (trimStart s))).

Definition is_digit (c : ascii) : bool := (48 <=? ch c) && (ch c <=? 57).

(** [String(n)]: the decimal digits of a counter. *)
Definition decimal (n : nat) : str :=
  lit (DecimalString.NilEmpty.string_of_uint (Nat.to_uint n)).

(** [String(n).padStart(3, '0')]. *)
Definition pad3 (n : nat) : str :=
  repeat "0"%char (3 - List.length (decimal n)) ++ decimal n.

(** [s.startsWith(p)]. *)
Fixpoint starts (p s : str) : bool :=
  match p, s with
  | [], _ => true
  | a :: p', b :: s' => Ascii.eqb a b && starts p' s'
  | _ :: _, [] => false
  end.

(** [s.includes(p)]. *)
Fixpoint includes (s p : str) : bool :=
  starts p s || match s with [] => false | _ :: s' => includes s' p end.

(** [p] occurs in [s] as a substring. *)
Definition occurs (p s : str) : Prop := exists u v, s = u ++ p ++ v.

(** *** Replacement

    [String.prototype.replace] computes the inserted text from the match and
    its surroundings; [sub before after] stands for that text in the two
    scans below, which are used with non-empty search strings only. *)

Section Replace.

Variable sub : str -> str -> str.
Variable pat : str.

(** A string pattern: the first occurrence only. *)
Fixpoint replace_first (before s : str) {struct s} : str :=
  if starts pat s
  then sub before (skipn (List.length pat) s) ++ skipn (List.length pat) s
  else match s with
       | [] => []
       | c :: s' => c :: replace_first (before ++ [c]) s'
       end.

(** A global regular expression matching [pat] literally: every occurrence,
    scanning from the left, the scan resuming after each match ([skip] counts
    the characters of a match still to be passed over). *)
Fixpoint replace_all (skip : nat) (before s : str) {struct s} : str :=
  match s with
  | [] => []
  | c :: s' =>
      match skip with
      | S k => replace_all k (before ++ [c]) s'
      | O =>
          if starts pat s
          then sub before (skipn (List.length pat) s)
                 ++ replace_all (List.length pat - 1) (before ++ [c]) s'
          else c :: replace_all 0 (before ++ [c]) s'
      end
  end.

End Replace.

(** [(s.match(regex) || []).length] for the same global expression. *)
Fixpoint count_matches (pat : str) (skip : nat) (s : str) {struct s} : nat :=
  match s with
  | [] => 0
  | _ :: s' =>
      match skip with
      | S k => count_matches pat k s'
      | O =>
          if starts pat s
          then S (count_matches pat (List.length pat - 1) s')
          else count_matches pat 0 s'
      end
  end.

(** The replacement text of [replace] when the second argument is a string
    and the pattern has no capture groups: [$$] is a dollar sign, [$&] the
    match, [$`] the text before it and [$'] the text after it; any other
    dollar sign stands for itself. *)
Fixpoint expand (rep matched before after : str) {struct rep} : str :=
  match rep with
  | [] => []
  | c :: rep' =>
      if Ascii.eqb c "$" then
        match rep' with
        | [] => [c]
        | d :: rep'' =>
            if Ascii.eqb d "$" then "$"%char :: expand rep'' matched before after
            else if Ascii.eqb d "&" then matched ++ expand rep'' matched before after
            else if Ascii.eqb d "`" then before ++ expand rep'' matched before after
            else if Ascii.eqb d "'" then after ++ expand rep'' matched before after
            else c :: expand rep' matched before after
        end
      else c :: expand rep' matched before after
  end.

(** The characters that make a pattern after a dollar sign. *)
Definition special (c : ascii) : bool :=
  Ascii.eqb c "$" || Ascii.eqb c "&" || Ascii.eqb c "`" || Ascii.eqb c "'".

Definition dollar_free (s : str) : Prop :=
  forallb (fun c => negb (Ascii.eqb c "$")) s = true.

(** [s.replace(pat, rep)] with a string pattern. *)
Definition js_replace (pat rep s : str) : str :=
  replace_first (expand rep pat) pat [] s.

(** [s.replace(new RegExp(escaped pat, 'g'), rep)]. *)
Definition js_replace_all (pat rep s : str) : str :=
  replace_all (expand rep pat) pat 0 [] s.

(** Substitution of a text taken as it is, with no pattern in it. *)
Definition subst_all (pat rep s : str) : str :=
  replace_all (fun _ _ => rep) pat 0 [] s.

(** *** Tokens *)

Definition braced (core : str) : str := lit "{{" ++ core ++ lit "}}".

Definition widget_token (n : nat) : str := braced (lit "widget-" ++ decimal n).

Definition wigoh_id (n : nat) : str := lit "wigoh-id-" ++ pad3 n.

Definition is_brace (c : ascii) : bool := Ascii.eqb c "{" || Ascii.eqb c "}".

Definition brace_free (s : str) : Prop := forallb (fun c => negb (is_brace c)) s = true.

(** *** Joining and cutting *)

(** [pieces.join(sep)]. *)
Fixpoint join (sep : str) (pieces : list str) : str :=
  match pieces with
  | [] => []
  | [piece] => piece
  | piece :: rest => piece ++ sep ++ join sep rest
  end.

(** The text before and after the first occurrence of [pat]. *)
Fixpoint cut_at (pat s : str) {struct s} : option (str * str) :=
  if starts pat s then Some ([], skipn (List.length pat) s)
  else match s with
       | [] => None
       | c :: s' =>
           match cut_at pat s' with
           | Some (u, v) => Some (c :: u, v)
           | None => None
           end
       end.

(** The number a string of digits writes, leading zeros allowed. *)
Definition number (s : str) : option nat :=
  option_map Nat.of_uint
             (DecimalString.NilEmpty.uint_of_string (string_of_list_ascii s)).

(** [String.prototype.trimEnd]. *)
Definition trimEnd (s : str) : str := rev (trimStart (rev s)).

(** The white space at the head of [s], and what comes after it. *)
Fixpoint span_space (s : str) : str * str :=
  match s with
  | c :: s' =>
      if is_space c
      then let (w, r) := span_space s' in (c :: w, r)
      else ([], s)
  | [] => ([], [])
  end.

(** [s.replace(re, rep)] for a global regular expression [re] whose matches
    are not empty and a replacement without pattern: [matched s] is the
    length of the match of [re] at the head of [s], the scan resumes after
    each match ([skip] counts the characters of a match still to be passed
    over). *)
Section ReplaceMatches.

Variable matched : str -> option nat.
Variable rep : str.

Fixpoint replace_matches (skip : nat) (s : str) {struct s} : str :=
  match s with
  | [] => []
  | c :: s' =>
      match skip with
      | S k => replace_matches k s'
      | O =>
          match matched s with
          | Some n => rep ++ replace_matches (n - 1) s'
          | None => c :: replace_matches 0 s'
          end
      end
  end.

End ReplaceMatches.

(** [s.split('\n')]. *)
Fixpoint split_lines (s : str) : list str :=
  match s with
  | [] => [[]]
  | c :: s' =>
      if Ascii.eqb c nl then [] :: split_lines s'
      else match split_lines s' with
           | line :: rest => (c :: line) :: rest
           | [] => [[c]]
           end
  end.

(** ** Documents

    A node of the parsed document.  [Element] carries the local name, the
    attributes in source order and the child nodes. *)

Inductive node : Type :=
| Text (data : str)
| Comment (data : str)
| Doctype (name : str)
| Element (name : str) (attribs : list (str * str)) (children : list node).

Definition forest := list node.

Fixpoint lookup_attr (k : str) (attribs : list (str * str)) : option str :=
  match attribs with
  | [] => None
  | (k', v) :: rest => if str_eqb k k' then Some v else lookup_attr k rest
  end.

Definition mem (x : str) (l : list str) : bool := existsb (str_eqb x) l.

Definition is_element (n : node) : bool :=
  match n with Element _ _ _ => true | _ => false end.

(** A custom induction principle: the children of an element satisfy the
    property. *)
Section NodeInduction.

Variable P : node -> Prop.
Hypothesis P_text : forall d, P (Text d).
Hypothesis P_comment : forall d, P (Comment d).
Hypothesis P_doctype : forall d, P (Doctype d).
Hypothesis P_element :
  forall name attribs kids, Forall P kids -> P (Element name attribs kids).

Fixpoint node_induction (n : node) : P n :=
  match n with
  | Text d => P_text d
  | Comment d => P_comment d
  | Doctype d => P_doctype d
  | Element name attribs kids =>
      P_element name attribs
        ((fix all (ks : forest) : Forall P ks :=
            match ks with
            | [] => Forall_nil P
            | k :: ks' => Forall_cons k (node_induction k) (all ks')
            end) kids)
  end.

End NodeInduction.

(** *** Serialisation

    The HTML fragment serialisation algorithm: void elements have no end
    tag and no content, text is escaped except below raw text elements,
    attribute values are escaped and double-quoted. *)

Definition void_elements : list str :=
  map lit ["area"; "base"; "basefont"; "bgsound"; "br"; "col"; "embed";
           "frame"; "hr"; "img"; "input"; "keygen"; "link"; "meta";
           "param"; "source"; "track"; "wbr"].

Definition raw_text_elements : list str :=
  map lit ["style"; "script"; "xmp"; "iframe"; "noembed"; "noframes";
           "plaintext"].

Definition escape_text_char (c : ascii) : str :=
  if Ascii.eqb c "&" then lit "&amp;"
  else if Ascii.eqb c "<" then lit "&lt;"
  else if Ascii.eqb c ">" then lit "&gt;"
  else if ch c =? 160 then lit "&nbsp;"
  else [c].

Definition escape_attr_char (c : ascii) : str :=
  if Ascii.eqb c "&" then lit "&amp;"
  else if Ascii.eqb c dq then lit "&quot;"
  else if ch c =? 160 then lit "&nbsp;"
  else [c].

Definition escape_text (s : str) : str := flat_map escape_text_char s.
Definition escape_attr (s : str) : str := flat_map escape_attr_char s.

Definition attr_html (a : str * str) : str :=
  lit " " ++ fst a ++ lit "=" ++ [dq] ++ escape_attr (snd a) ++ [dq].

Definition open_tag (name : str) (attribs : list (str * str)) : str :=
  lit "<" ++ name ++ flat_map attr_html attribs ++ lit ">".

Definition close_tag (name : str) : str := lit "</" ++ name ++ lit ">".

(** [raw] tells whether the parent is a raw text element.  Elements and
    attributes are printed under the names the tree gives them, and the
    children of every element are its child nodes: what the serializers of
    the two libraries do of their own for namespaced names, for the contents
    of [template] and for the text of [noscript] is not followed. *)
Fixpoint serialize_node (raw : bool) (n : node) : str :=
  match n with
  | Text d => if raw then d else escape_text d
  | Comment d => lit "<!--" ++ d ++ lit "-->"
  | Doctype name => lit "<!DOCTYPE " ++ name ++ lit ">"
  | Element name attribs kids =>
      open_tag name attribs ++
      (if mem name void_elements then []
       else flat_map (serialize_node (mem name raw_text_elements)) kids
              ++ close_tag name)
  end.

(** [element.outerHTML], [$.html(element)]. *)
Definition outerHTML (n : node) : str := serialize_node false n.

(** [dom.serialize()], [$.html()]. *)
Definition serialize (doc : forest) : str := flat_map (serialize_node false) doc.

(** ** Selections of a parsed page

    What the component extractor uses of cheerio: selections in document
    order, attributes set on them, elements replaced by text.  An element is
    known by its path, the child indices from the root; a replaced element
    leaves the document with its subtree, and the nodes below it keep the way
    up to it. *)

Definition path := list nat.

Definition is_section (n : node) : bool :=
  match n with Element name _ _ => str_eqb name "section" | _ => false end.

Definition has_id (id : str) (n : node) : bool :=
  match n with
  | Element _ attribs _ =>
      match lookup_attr "id" attribs with
      | Some v => str_eqb v id
      | None => false
      end
  | _ => false
  end.

Definition named (tag : str) (n : node) : bool :=
  match n with Element name _ _ => str_eqb name tag | _ => false end.

(** [$(selector).toArray()]: the matching nodes in document order. *)
Fixpoint select (p : node -> bool) (n : node) : list node :=
  (if p n then [n] else []) ++
  match n with
  | Element _ _ kids => flat_map (select p) kids
  | _ => []
  end.

Definition each_indexed {A : Type} (f : nat -> node -> list A) :=
  fix go (i : nat) (ks : forest) : list A :=
    match ks with
    | [] => []
    | k :: ks' => f i k ++ go (S i) ks'
    end.

(** The same selection, as paths. *)
Fixpoint paths_in (p : node -> bool) (here : path) (n : node) : list path :=
  (if p n then [here] else []) ++
  match n with
  | Element _ _ kids =>
      each_indexed (fun i k => paths_in p (here ++ [i]) k) 0 kids
  | _ => []
  end.

Definition select_paths (p : node -> bool) (doc : forest) : list path :=
  each_indexed (fun i k => paths_in p [i] k) 0 doc.

Fixpoint node_at (ns : forest) (p : path) {struct p} : option node :=
  match p with
  | [] => None
  | i :: p' =>
      match nth_error ns i with
      | Some n =>
          match p' with
          | [] => Some n
          | _ :: _ =>
              match n with
              | Element _ _ kids => node_at kids p'
              | _ => None
              end
          end
      | None => None
      end
  end.

Fixpoint set_nth {A : Type} (i : nat) (f : A -> A) (l : list A) {struct l}
  : list A :=
  match l, i with
  | [], _ => []
  | x :: l', 0 => f x :: l'
  | x :: l', S i' => x :: set_nth i' f l'
  end.

(** [replaceWith] at one place. *)
Fixpoint update_at (ns : forest) (p : path) (new : node) {struct p} : forest :=
  match p with
  | [] => ns
  | i :: p' =>
      match p' with
      | [] => set_nth i (fun _ => new) ns
      | _ :: _ =>
          set_nth i (fun n =>
                       match n with
                       | Element name a kids =>
                           Element name a (update_at kids p' new)
                       | _ => n
                       end) ns
      end
  end.

(** The paths of the ancestors, from the root down to the parent. *)
Fixpoint proper_prefixes (p : path) : list path :=
  match p with
  | [] => []
  | i :: p' =>
      match p' with
      | [] => []
      | _ :: _ => [i] :: map (cons i) (proper_prefixes p')
      end
  end.

(** [a] is [b] or leads to an ancestor of it. *)
Definition prefix_of (a b : path) : Prop := exists r, b = a ++ r.

Definition path_eqb (a b : path) : bool :=
  if list_eq_dec Nat.eq_dec a b then true else false.

Definition mem_path (q : path) (l : list path) : bool := existsb (path_eqb q) l.

(** The walk up the parents stops at an element that left the document. *)
Fixpoint cut_after (detached : list path) (qs : list path) : list path :=
  match qs with
  | [] => []
  | q :: qs' => if mem_path q detached then [q] else q :: cut_after detached qs'
  end.

(** [$(el).parents()], nearest first. *)
Definition parents (detached : list path) (p : path) : list path :=
  cut_after detached (rev (proper_prefixes p)).

(** [$el.attr(k, v)]: an attribute is overwritten in place or added last. *)
Fixpoint set_attr (k v : str) (attribs : list (str * str)) : list (str * str) :=
  match attribs with
  | [] => [(k, v)]
  | (k', v') :: rest =>
      if str_eqb k k' then (k, v) :: rest else (k', v') :: set_attr k v rest
  end.

(** [$sel.attr(k, v)] on every node selected by [p]. *)
Fixpoint mark (p : node -> bool) (k v : str) (n : node) : node :=
  match n with
  | Element name attribs kids =>
      Element name (if p n then set_attr k v attribs else attribs)
              (map (mark p k v) kids)
  | _ => n
  end.

(** [$sel.replaceWith(text)]: every selected node that is still in the
    document becomes a text node; what is below it goes with it. *)
Fixpoint replace_with (p : node -> bool) (text : str) (n : node) : node :=
  match n with
  | Element name attribs kids =>
      if p n then Text text
      else Element name attribs (map (replace_with p text) kids)
  | _ => n
  end.

(** Some node of [n], itself included, satisfies [p]. *)
Fixpoint anywhere (p : node -> bool) (n : node) : bool :=
  p n || match n with
         | Element _ _ kids => existsb (anywhere p) kids
         | _ => false
         end.

Definition present (p : node -> bool) (doc : forest) : bool :=
  existsb (anywhere p) doc.

(** The node at [q] is a [section] element. *)
Definition is_section_at (doc0 : forest) (q : path) : bool :=
  match node_at doc0 q with
  | Some n => is_section n
  | None => false
  end.

(** No ancestor of the node at [p] is a [section]. *)
Definition top_level (doc0 : forest) (p : path) : bool :=
  forallb (fun q => negb (is_section_at doc0 q)) (proper_prefixes p).


(** The node reached from [n] by the child indices [r]. *)
Definition sub_at (n : node) (r : path) : option node :=
  match r with
  | [] => Some n
  | _ :: _ => match n with
              | Element _ _ kids => node_at kids r
              | _ => None
              end
  end.

(** [$(selector).remove()]. *)
Fixpoint prune (p : node -> bool) (n : node) : node :=
  match n with
  | Element name attribs kids =>
      Element name attribs
              (flat_map (fun k => if p k then [] else [prune p k]) kids)
  | _ => n
  end.

Definition remove (p : node -> bool) (doc : forest) : forest :=
  flat_map (fun k => if p k then [] else [prune p k]) doc.

(** A selector that looks at the tag and the attributes of an element
    only. *)
Definition shallow (p : node -> bool) : Prop :=
  (forall n, is_element n = false -> p n = false)
  /\ forall name attribs kids kids',
      p (Element name attribs kids) = p (Element name attribs kids').

(** The name of the element reached from [n] by [r]. *)
Definition sub_name (n : node) (r : path) : option str :=
  match sub_at n r with
  | Some (Element name _ _) => Some name
  | _ => None
  end.

(** ** HtmlStyleProcessorService *)

Module StyleProcessor.

(** A value of a style object: a string, a number (kept by the text that
    [String(value)] gives), or anything else. *)
Inductive scalar : Type :=
| SString (s : str)
| SNumber (text : str)
| SOther.

(** The style description, as [flattenElements] looks at it: an array, an
    object with the optional fields of [JsonStyleEntry] ([styles] is [None]
    when the field is absent or no object, [children] when it is absent or
    no array), or a value that is neither.  The fields [tag], [id],
    [className] and [html] are strings when they are there, as the interface
    declares them. *)
Inductive layout : Type :=
| LArray (items : list layout)
| LObject (tag id className html : option str)
          (styles : option (list (str * scalar)))
          (children : option (list layout))
| LOther.

Section LayoutInduction.

Variable P : layout -> Prop.
Hypothesis P_array : forall items, Forall P items -> P (LArray items).
Hypothesis P_object :
  forall tag id className html styles children,
    match children with Some cs => Forall P cs | None => True end ->
    P (LObject tag id className html styles children).
Hypothesis P_other : P LOther.

Fixpoint layout_induction (d : layout) : P d :=
  let all := fix all (ds : list layout) : Forall P ds :=
               match ds with
               | [] => Forall_nil P
               | x :: ds' => Forall_cons x (layout_induction x) (all ds')
               end in
  match d with
  | LArray items => P_array (all items)
  | LObject tag id className html styles children =>
      P_object tag id className html styles children
               (match children
                      return match children with
                             | Some cs => Forall P cs
                             | None => True
                             end
                with
                | Some cs => all cs
                | None => I
                end)
  | LOther => P_other
  end.

End LayoutInduction.

Record JsonStyleEntry : Type := {
  entry_tag : option str;
  entry_id : option str;
  entry_className : option str;
  entry_html : option str;
  entry_styles : list (str * scalar);
  jsonIndex : nat
}.

(** [tag && tag.toLowerCase() === 'script']. *)
Definition tag_is_script (tag : option str) : bool :=
  match tag with
  | Some (c :: t) => str_eqb (toLowerCase (c :: t)) "script"
  | _ => false
  end.

(** [html && html.toLowerCase().includes('<script')]. *)
Definition html_has_script (html : option str) : bool :=
  match html with
  | Some (c :: h) => includes (toLowerCase (c :: h)) "<script"
  | _ => false
  end.

(** [flattenElements]: the accumulator is the array the calls share. *)
Fixpoint flattenElements (data : layout) (flatArray : list JsonStyleEntry)
  : list JsonStyleEntry :=
  match data with
  | LArray items =>
      fold_left (fun acc d => flattenElements d acc) items flatArray
  | LObject tag id className html styles children =>
      let descend (acc : list JsonStyleEntry) :=
        match children with
        | Some cs => fold_left (fun acc d => flattenElements d acc) cs acc
        | None => acc
        end in
      match styles with
      | Some st =>
          if tag_is_script tag then flatArray
          else if html_has_script html then flatArray
          else descend (flatArray ++
                        [{| entry_tag := tag;
                            entry_id := id;
                            entry_className := className;
                            entry_html := html;
                            entry_styles := st;
                            jsonIndex := List.length flatArray |}])
      | None => descend flatArray
      end
  | LOther => flatArray
  end.

Definition excludedTags : list str :=
  map lit ["html"; "head"; "meta"; "title"; "script"; "noscript"; "style";
           "link"].

(** [$('*').toArray().filter(...)]: the elements that are not excluded and
    are [body] or below it, in document order, as paths. *)
Fixpoint qualifying (inBody : bool) (here : path) (n : node) : list path :=
  match n with
  | Element name _ kids =>
      let tagName := toLowerCase name in
      let isInBody := inBody || str_eqb tagName "body" in
      (if negb (mem tagName excludedTags) && isInBody then [here] else []) ++
      each_indexed (fun i k => qualifying isInBody (here ++ [i]) k) 0 kids
  | _ => []
  end.

Definition allHtmlElements (doc : forest) : list path :=
  each_indexed (fun i k => qualifying false [i] k) 0 doc.

(** The text of one style property, or nothing. *)
Definition declaration (property : str) (value : scalar) : str :=
  match value with
  | SString (c :: v) => property ++ lit ": " ++ (c :: v) ++ lit "; "
  | SNumber text => property ++ lit ": " ++ text ++ lit "; "
  | _ => []
  end.

(** [styles.hasOwnProperty] is looked up on the styles object itself: a key
    [hasOwnProperty] of its own hides the method of [Object.prototype], and
    its value, which comes from JSON, is no function. *)
Definition hides_hasOwnProperty (styles : list (str * scalar)) : bool :=
  existsb (fun kv => str_eqb (fst kv) "hasOwnProperty") styles.

(** The [for ... in] over the styles, the list having the properties in
    the order of the enumeration: the text it builds, or [None] for the
    [TypeError] that [styles.hasOwnProperty(property)] throws at the first
    property when the method is hidden. *)
Definition inlineStyleString (styles : list (str * scalar)) : option str :=
  if hides_hasOwnProperty styles then None
  else Some (flat_map (fun kv => declaration (fst kv) (snd kv)) styles).

(** An entry whose styles the loop can read. *)
Definition quiet (e : JsonStyleEntry) : bool :=
  negb (hides_hasOwnProperty (entry_styles e)).

Definition finalStyle (existingStyle inline : str) : str :=
  existingStyle ++ (match existingStyle with [] => [] | _ => lit "; " end)
                ++ trim inline.

(** What one turn of the main loop did. *)
Inductive outcome : Type :=
| Skipped_script
| Skipped_json_script
| Index_matching (htmlIndex : nat)
| No_json_entry (htmlIndex : nat).

Record loop_state : Type := {
  page : forest;
  totalMatches : nat;
  skippedScriptElements : nat;
  indexMismatches : nat;
  outcomes : list outcome
}.

Definition count (f : loop_state -> loop_state) (o : outcome) (st : loop_state)
  : loop_state :=
  let st' := f st in
  {| page := page st';
     totalMatches := totalMatches st';
     skippedScriptElements := skippedScriptElements st';
     indexMismatches := indexMismatches st';
     outcomes := outcomes st' ++ [o] |}.

Definition skip_script (st : loop_state) : loop_state :=
  {| page := page st;
     totalMatches := totalMatches st;
     skippedScriptElements := S (skippedScriptElements st);
     indexMismatches := indexMismatches st;
     outcomes := outcomes st |}.

Definition mismatch (st : loop_state) : loop_state :=
  {| page := page st;
     totalMatches := totalMatches st;
     skippedScriptElements := skippedScriptElements st;
     indexMismatches := S (indexMismatches st);
     outcomes := outcomes st |}.

Definition matched (page' : forest) (st : loop_state) : loop_state :=
  {| page := page';
     totalMatches := S (totalMatches st);
     skippedScriptElements := skippedScriptElements st;
     indexMismatches := indexMismatches st;
     outcomes := outcomes st |}.

(** How the loop stands: running, or left by an exception, with the locals
    as they were when it was thrown. *)
Inductive progress : Type :=
| Running (st : loop_state)
| Thrown (st : loop_state).

Definition state_of (pr : progress) : loop_state :=
  match pr with
  | Running st => st
  | Thrown st => st
  end.

(** One turn of the main loop of [processHtml].  The [TypeError] of the
    [for ... in] comes after the line "INDEX MATCHING" was written and before
    anything is set or counted; no turn follows it. *)
Definition style_step (jsonStylesArray : list JsonStyleEntry)
           (pr : progress) (turn : nat * path) : progress :=
  match pr with
  | Thrown _ => pr
  | Running st =>
      let (htmlIndex, p) := turn in
      match node_at (page st) p with
      | Some (Element name attribs kids) =>
          if str_eqb (toLowerCase name) "script"
          then Running (count skip_script Skipped_script st)
          else
            match nth_error jsonStylesArray htmlIndex with
            | Some jsonEntry =>
                if tag_is_script (entry_tag jsonEntry)
                then Running (count mismatch Skipped_json_script st)
                else if html_has_script (entry_html jsonEntry)
                then Running (count mismatch Skipped_json_script st)
                else
                  match inlineStyleString (entry_styles jsonEntry) with
                  | None =>
                      Thrown (count (fun st => st) (Index_matching htmlIndex) st)
                  | Some inline =>
                      let page' :=
                        match trim inline with
                        | [] => page st
                        | _ :: _ =>
                            let existingStyle :=
                              match lookup_attr "style" attribs with
                              | Some v => v
                              | None => []
                              end in
                            update_at (page st) p
                              (Element name
                                 (set_attr "style"
                                    (finalStyle existingStyle inline)
                                    attribs) kids)
                        end in
                      Running (count (matched page') (Index_matching htmlIndex) st)
                  end
            | None => Running (count mismatch (No_json_entry htmlIndex) st)
            end
      | _ => Running st
      end
  end.


Definition style_loop (jsonStylesArray : list JsonStyleEntry) (i : nat)
           (ps : list path) (pr : progress) : progress :=
  fold_left (style_step jsonStylesArray)
            (combine (seq i (List.length ps)) ps) pr.

Definition start (document : forest) : loop_state :=
  {| page := document;
     totalMatches := 0;
     skippedScriptElements := 0;
     indexMismatches := 0;
     outcomes := [] |}.

(** The main loop of [processHtml] on the page and its description. *)
Definition main_loop (document : forest) (layoutJson : layout) : progress :=
  style_loop (flattenElements layoutJson []) 0 (allHtmlElements document)
             (Running (start document)).

(** The state when the main loop of [processHtml] is left, at its end or by
    the exception. *)
Definition styled (document : forest) (layoutJson : layout) : loop_state :=
  state_of (main_loop document layoutJson).


(** The turns that reached the matching of [HTML[i]] with [JSON[i]]. *)
Definition attempts (os : list outcome) : nat :=
  List.length (filter (fun o => match o with Index_matching _ => true | _ => false end) os).

(** An entry that is no script. *)
Definition script_free (e : JsonStyleEntry) : Prop :=
  tag_is_script (entry_tag e) = false /\ html_has_script (entry_html e) = false.

(** The name of the element at [p]. *)
Definition name_at (doc : forest) (p : path) : option str :=
  match node_at doc p with
  | Some (Element name _ _) => Some name
  | _ => None
  end.

(** The page has the names of [doc0] at every place. *)
Definition same_names (doc0 : forest) (st : loop_state) : Prop :=
  forall q, name_at (page st) q = name_at doc0 q.

(** An element of [doc0] that the filter lets through. *)
Definition qualifies (doc0 : forest) (p : path) : Prop :=
  exists name, name_at doc0 p = Some name /\
               mem (toLowerCase name) excludedTags = false.

(** A page with three qualifying elements and a style description of three
    entries, one script being dropped on each side. *)
Definition styled_page : forest :=
  [Element "html" []
     [Element "head" [] [Element "title" [] [Text "t"]];
      Element "body" []
        [Element "div" [(lit "style", lit "color: red")]
           [Element "script" [] [Text "x()"];
            Element "p" [] [Text "a"]]]]].

Definition styled_layout : layout :=
  LArray
    [LObject (Some (lit "body")) None None None
       (Some [(lit "margin", SNumber "0")])
       (Some [LObject (Some (lit "div")) None None None
                (Some [(lit "width", SString "10px"); (lit "x", SOther)])
                (Some [LObject (Some (lit "SCRIPT")) None None None
                         (Some []) None;
                       LObject (Some (lit "p")) None None None
                         (Some [(lit "top", SString [])]) None])])].

(** *** The helpers of the class *)

(** [/[A-Z]/]. *)
Definition is_capital (c : ascii) : bool := (65 <=? ch c) && (ch c <=? 90).

(** [camelToKebab]: [str.replace(/([A-Z])/g, '-$1').toLowerCase()]. *)
Definition camelToKebab (s : str) : str :=
  toLowerCase (flat_map (fun c => if is_capital c then ["-"%char; c] else [c]) s).

(** Characters of the ASCII range, where [toLowerCase] touches A-Z only. *)
Definition is_ascii (c : ascii) : bool := ch c <? 128.

(** [$el.attr(k) || '']. *)
Definition attr_or_empty (k : str) (attribs : list (str * str)) : str :=
  match lookup_attr k attribs with Some v => v | None => [] end.

(** [getElementHtmlString]: [null] for a script, else the element's tag with
    its [id] and [class]. *)
Definition getElementHtmlString (element : node) : option str :=
  let tag := match element with
             | Element name _ _ => toLowerCase name
             | _ => []
             end in
  let attribs := match element with
                 | Element _ attribs _ => attribs
                 | _ => []
                 end in
  if str_eqb tag "script" then None
  else
    let id := attr_or_empty "id" attribs in
    let className := attr_or_empty "class" attribs in
    Some (lit "<" ++ tag
            ++ match id with
               | [] => []
               | _ :: _ => lit " id=" ++ [dq] ++ id ++ [dq]
               end
            ++ match className with
               | [] => []
               | _ :: _ => lit " class=" ++ [dq] ++ className ++ [dq]
               end
            ++ lit "></" ++ tag ++ lit ">").

(** *** What the loop writes *)

(** The page with the [style] attributes left out. *)
Fixpoint without_style (n : node) : node :=
  match n with
  | Element name attribs kids =>
      Element name
              (filter (fun a => negb (str_eqb "style" (fst a))) attribs)
              (map without_style kids)
  | _ => n
  end.

(** The attributes of the element at [p]. *)
Definition attribs_at (doc : forest) (p : path) : option (list (str * str)) :=
  match node_at doc p with
  | Some (Element _ attribs _) => Some attribs
  | _ => None
  end.

(** The attributes of an element once the styles of the entry [e] are
    applied to it. *)
Definition with_styles (e : JsonStyleEntry) (attribs : list (str * str))
  : list (str * str) :=
  match inlineStyleString (entry_styles e) with
  | Some inline =>
      match trim inline with
      | [] => attribs
      | _ :: _ =>
          set_attr "style" (finalStyle (attr_or_empty "style" attribs) inline)
                   attribs
      end
  | None => attribs
  end.

(** A page of two qualifying elements and a description of two entries, the
    second with a style named [hasOwnProperty]. *)
Definition hiding_page : forest :=
  [Element "html" []
     [Element "head" [] [];
      Element "body" [] [Element "p" [] [Text "a"]]]].

Definition hiding_layout : layout :=
  LArray
    [LObject (Some (lit "body")) None None None
       (Some [(lit "margin", SNumber "0")])
       (Some [LObject (Some (lit "p")) None None None
                (Some [(lit "color", SString "red");
                       (lit "hasOwnProperty", SString "x")])
                None])].

(** The element at [p] is a [body] or lies below one. *)
Definition inside_body (doc : forest) (p : path) : Prop :=
  exists q r name,
    p = q ++ r /\ name_at doc q = Some name /\ toLowerCase name = lit "body".

(** *** The formatting of the styled page *)

(** The match of [/>\s*</] at the head of [s]: [>], all the white space
    that follows, [<]. *)
Definition between_tags (s : str) : option nat :=
  match s with
  | c :: s' =>
      if Ascii.eqb c ">"
      then let (w, r) := span_space s' in
           match r with
           | d :: _ => if Ascii.eqb d "<" then Some (2 + List.length w) else None
           | [] => None
           end
      else None
  | [] => None
  end.

(** The length of the longest part of [w], from its start, that ends with a
    line feed. *)
Fixpoint upto_last_newline (w : str) : option nat :=
  match w with
  | [] => None
  | c :: w' =>
      match upto_last_newline w' with
      | Some n => Some (S n)
      | None => if Ascii.eqb c nl then Some 1 else None
      end
  end.

(** The match of [/\n\s*\n/] at the head of [s]: a line feed, then the
    white space that follows as far as its last line feed. *)
Definition blank_lines (s : str) : option nat :=
  match s with
  | c :: s' =>
      if Ascii.eqb c nl
      then option_map S (upto_last_newline (fst (span_space s')))
      else None
  | [] => None
  end.

Definition doctype : str := lit "<!DOCTYPE html>".

(** The [if] of [formatCleanHtml]. *)
Definition with_doctype (cleanHtml : str) : str :=
  if includes cleanHtml doctype then cleanHtml
  else doctype ++ [nl] ++ cleanHtml.

(** [.replace(/>\s*</g, '>\n<')]. *)
Definition break_text : str -> str :=
  replace_matches between_tags (lit ">" ++ [nl] ++ lit "<") 0.

(** [.replace(/\n\s*\n/g, '\n')]. *)
Definition squeeze_text : str -> str := replace_matches blank_lines [nl] 0.

(** [.split('\n').map(line => line.trim()).filter(line => line.length > 0)]. *)
Definition trimmed_lines (s : str) : list str :=
  filter (fun line => 0 <? List.length line) (map trim (split_lines s)).

(** The expression [formatCleanHtml] returns: the two replacements, then the
    lines trimmed, the empty ones left out, joined again. *)
Definition reformat (cleanHtml : str) : str :=
  join [nl] (trimmed_lines (squeeze_text (break_text cleanHtml))).

(** [formatCleanHtml], on the document that [cheerio.load(html)] gives. *)
Definition formatCleanHtml (loaded : forest) : str :=
  reformat (with_doctype (serialize (remove (named "style") loaded))).

(** **** A text as its characters and the white space between them

    A text is white space, then characters that are no white space, each
    with the white space after it. *)
Definition flatten (toks : list (ascii * str)) : str :=
  flat_map (fun t => fst t :: snd t) toks.

Fixpoint tokens (s : str) : str * list (ascii * str) :=
  match s with
  | [] => ([], [])
  | c :: s' =>
      let (w, toks) := tokens s' in
      if is_space c then (c :: w, toks) else ([], (c, w) :: toks)
  end.

Definition blank (w : str) : Prop := forallb is_space w = true.

Definition well_spaced (toks : list (ascii * str)) : Prop :=
  Forall (fun t => is_space (fst t) = false /\ blank (snd t)) toks.

Definition has_nl (w : str) : bool := existsb (Ascii.eqb nl) w.

(** The first replacement, on the white space between two characters. *)
Fixpoint break_tags (toks : list (ascii * str)) : list (ascii * str) :=
  match toks with
  | [] => []
  | (c, w) :: rest =>
      (c, match rest with
          | (d, _) :: _ =>
              if Ascii.eqb c ">" && Ascii.eqb d "<" then [nl] else w
          | [] => w
          end) :: break_tags rest
  end.

(** The second replacement, on a run of white space. *)
Fixpoint squeeze (w : str) : str :=
  match w with
  | [] => []
  | c :: w' =>
      if Ascii.eqb c nl
      then match upto_last_newline w' with
           | Some n => nl :: skipn n w'
           | None => nl :: w'
           end
      else c :: squeeze w'
  end.

Definition squeezed (toks : list (ascii * str)) : list (ascii * str) :=
  map (fun t => (fst t, squeeze (snd t))) toks.

(** The lines trimmed and joined, on the white space between two
    characters. *)
Fixpoint tidy (toks : list (ascii * str)) : list (ascii * str) :=
  match toks with
  | [] => []
  | (c, w) :: rest =>
      (c, match rest with
          | _ :: _ => if has_nl w then [nl] else w
          | [] => []
          end) :: tidy rest
  end.

(** The three steps together. *)
Fixpoint reflow (toks : list (ascii * str)) : list (ascii * str) :=
  match toks with
  | [] => []
  | (c, w) :: rest =>
      (c, match rest with
          | (d, _) :: _ =>
              if (Ascii.eqb c ">" && Ascii.eqb d "<") || has_nl w
              then [nl] else w
          | [] => []
          end) :: reflow rest
  end.

(** The characters of the doctype before its last one. *)
Definition doctype_tokens : list (ascii * str) :=
  [("<"%char, []); ("!"%char, []); ("D"%char, []); ("O"%char, []);
   ("C"%char, []); ("T"%char, []); ("Y"%char, []); ("P"%char, []);
   ("E"%char, lit " "); ("h"%char, []); ("t"%char, []); ("m"%char, []);
   ("l"%char, [])].

End StyleProcessor.

(** ** WidgetExtractionService *)

Module WidgetExtraction.

Definition WIDGET_ELEMENTS : list str :=
  map lit ["h1"; "h2"; "h3"; "h4"; "h5"; "h6"; "p"; "svg"; "img"; "image";
           "video"; "span"; "button"; "a"; "text"; "wow-image"; "wix-video";
           "wow-svg"; "wow-icon"; "wow-canvas"; "main"].

(** The two locals of [extractWidgets] the walk updates: [widgetCounter]
    and the [widgets] record, in insertion order. *)
Record widget_state : Type := {
  widgetCounter : nat;
  widgets : list (str * str)
}.

(** [isInsideSection]: the walk up the [parentElement] chain, given as the
    names of the ancestors, nearest first. *)
Definition isInsideSection (ancestors : list str) : bool :=
  existsb (fun tagName => str_eqb (toLowerCase tagName) "section") ancestors.

(** [children.forEach(child => processElement(child))]: each child is
    replaced in place or kept. *)
Definition each_child (process : node -> widget_state -> node * widget_state) :=
  fix each (cs : forest) (st : widget_state) : forest * widget_state :=
    match cs with
    | [] => ([], st)
    | child :: cs' =>
        let (child', st1) := process child st in
        let (cs'', st2) := each cs' st1 in
        (child' :: cs'', st2)
    end.

Definition extract (element : node) (st : widget_state) : node * widget_state :=
  let widgetKey := widget_token (widgetCounter st) in
  (Text widgetKey,
   {| widgetCounter := S (widgetCounter st);
      widgets := widgets st ++ [(widgetKey, outerHTML element)] |}).

(** [processElement]: the node that stands at the place of [element]
    afterwards, and the updated locals. *)
Fixpoint processElement (ancestors : list str) (element : node) (st : widget_state)
  {struct element} : node * widget_state :=
  match element with
  | Element name attribs kids =>
      let tagName := toLowerCase name in
      if mem tagName WIDGET_ELEMENTS then
        if str_eqb tagName "main" && negb (isInsideSection ancestors) then
          let (kids', st') :=
            each_child (processElement (name :: ancestors)) kids st in
          (Element name attribs kids', st')
        else extract element st
      else
        let (kids', st') :=
          each_child (processElement (name :: ancestors)) kids st in
        (Element name attribs kids', st')
  | _ => (element, st)
  end.

(** Apply [f] to the first node satisfying [p]. *)
Fixpoint on_first (p : node -> bool) (f : node -> widget_state -> node * widget_state)
         (ns : forest) (st : widget_state) : forest * widget_state :=
  match ns with
  | [] => ([], st)
  | n :: rest =>
      if p n then let (n', st') := f n st in (n' :: rest, st')
      else let (rest', st') := on_first p f rest st in (n :: rest', st')
  end.

Definition is_body (n : node) : bool :=
  match n with
  | Element name _ _ => str_eqb name "body" || str_eqb name "frameset"
  | _ => false
  end.

Definition process_children (ancestors : list str) (n : node) (st : widget_state)
  : node * widget_state :=
  match n with
  | Element name attribs kids =>
      let (kids', st') :=
        each_child (processElement (name :: ancestors)) kids st in
      (Element name attribs kids', st')
  | _ => (n, st)
  end.

(** [document.body || document.documentElement], and the walk over its
    child nodes. *)
Definition process_root (root : node) (st : widget_state) : node * widget_state :=
  match root with
  | Element name attribs kids =>
      if str_eqb name "html" && existsb is_body kids then
        let (kids', st') :=
          on_first is_body (process_children [name]) kids st in
        (Element name attribs kids', st')
      else process_children [] root st
  | _ => (root, st)
  end.

Record WidgetExtractionResult : Type := {
  result_widgets : list (str * str);
  modifiedHtml : str;
  totalWidgets : nat
}.

Definition extractWidgets (document : forest) : WidgetExtractionResult :=
  let (document', st) :=
    on_first is_element process_root document
             {| widgetCounter := 1; widgets := [] |} in
  {| result_widgets := widgets st;
     modifiedHtml := serialize document';
     totalWidgets := List.length (widgets st) |}.

(** Putting the fragments back: every occurrence of each emitted token is
    replaced by the captured markup, token after token. *)
Definition substitute_back (ws : list (str * str)) (html : str) : str :=
  fold_left (fun acc w => subst_all (fst w) (snd w) acc) ws html.

(** Equality of documents up to white space. *)
Definition strip_space (s : str) : str := filter (fun c => negb (is_space c)) s.
Definition same_markup (a b : str) : Prop := strip_space a = strip_space b.

(** A page whose text already holds what will be the first token:
    [<div>{{widget-1}}</div><p>x</p>]. *)
Definition colliding_page : forest :=
  [Doctype "html";
   Element "html" []
     [Element "head" [] [];
      Element "body" []
        [Element "div" [] [Text "{{widget-1}}"];
         Element "p" [] [Text "x"]]]].

(** A page with a [main] at the top and another below a [section]. *)
Definition sample_page : forest :=
  [Doctype "html";
   Element "html" [(lit "lang", lit "en")]
     [Element "head" [] [Element "title" [] [Text "t"]];
      Element "body" []
        [Element "main" []
           [Element "h1" [(lit "class", lit "a&b")] [Text "Title"];
            Element "section" []
              [Element "main" [] [Element "p" [] [Text "in"]];
               Element "div" [] [Element "img" [(lit "src", lit "x.png")] [];
                                 Text " 1 < 2 "]]];
         Comment " end "]]].

(** The emitted tokens do not occur in the page as it came in. *)
Definition tokens_fresh (document : forest) : bool :=
  forallb (fun w => negb (includes (serialize document) (fst w)))
          (result_widgets (extractWidgets document)).

(** *** Markup cut into segments

    The markup before and after extraction, read side by side: literal
    text, a fragment with the token that took its place, and a fragment
    below a void element, which is recorded but never printed. *)
Inductive seg : Type :=
| Lit (s : str)
| Hole (k : nat) (frag : str)
| Ghost (k : nat) (frag : str).

Definition seg_orig (g : seg) : str :=
  match g with Lit s => s | Hole _ f => f | Ghost _ _ => [] end.

Definition seg_templ (g : seg) : str :=
  match g with Lit s => s | Hole k _ => widget_token k | Ghost _ _ => [] end.

Definition seg_hole (g : seg) : list (str * str) :=
  match g with
  | Lit _ => []
  | Hole k f | Ghost k f => [(widget_token k, f)]
  end.

Definition seg_num (g : seg) : list nat :=
  match g with Lit _ => [] | Hole k _ | Ghost k _ => [k] end.

Definition hide (g : seg) : seg :=
  match g with Lit _ => Lit [] | Hole k f | Ghost k f => Ghost k f end.

(** [cut c c' s s' ws]: extraction with the counter going from [c] to [c']
    turned the markup [s] into [s'] and recorded [ws]. *)
Definition cut (c c' : nat) (s s' : str) (ws : list (str * str)) : Prop :=
  exists segs,
    s = flat_map seg_orig segs /\ s' = flat_map seg_templ segs /\
    ws = flat_map seg_hole segs /\
    flat_map seg_num segs = seq c (c' - c) /\ c <= c'.

(** [processElement] cuts the markup of [n], whatever the context. *)
Definition cuts (n : node) : Prop :=
  forall ancestors st raw,
    exists w,
      widgets (snd (processElement ancestors n st)) = widgets st ++ w /\
      cut (widgetCounter st)
          (widgetCounter (snd (processElement ancestors n st)))
          (serialize_node raw n)
          (serialize_node raw (fst (processElement ancestors n st))) w.

(** The same of any function applied at one place of the page. *)
Definition cutting (f : node -> widget_state -> node * widget_state) : Prop :=
  forall n st raw,
    exists w,
      widgets (snd (f n st)) = widgets st ++ w /\
      cut (widgetCounter st) (widgetCounter (snd (f n st)))
          (serialize_node raw n) (serialize_node raw (fst (f n st))) w.

(** *** What the walk leaves and what it records *)

(** Nothing of [n] would be extracted in the context [ancestors]: every
    element is outside [WIDGET_ELEMENTS], or is a [main] with no [section]
    above it. *)
Fixpoint settled (ancestors : list str) (n : node) : bool :=
  match n with
  | Element name _ kids =>
      let tagName := toLowerCase name in
      (negb (mem tagName WIDGET_ELEMENTS)
       || (str_eqb tagName "main" && negb (isInsideSection ancestors)))
      && forallb (settled (name :: ancestors)) kids
  | _ => true
  end.

(** The outer markup of an element of [WIDGET_ELEMENTS]. *)
Definition widget_markup (html : str) : Prop :=
  exists name attribs kids,
    html = outerHTML (Element name attribs kids) /\
    mem (toLowerCase name) WIDGET_ELEMENTS = true.

(** A function of the walk that records such markup only. *)
Definition records_widgets (f : node -> widget_state -> node * widget_state)
  : Prop :=
  forall n st,
    Forall (fun w => widget_markup (snd w)) (widgets st) ->
    Forall (fun w => widget_markup (snd w)) (widgets (snd (f n st))).

End WidgetExtraction.

(** ** ComponentExtractionService *)

Module ComponentExtraction.

Inductive component_type : Type := target_id | section.

(** [ExtractedComponent], without the identifier the database assigns. *)
Record ExtractedComponent : Type := {
  placeholderId : str;
  originalId : str;
  type : component_type;
  found : bool;
  componentHtml : str;
  childrenCount : nat
}.

(** What [saveComponent] is given. *)
Record Component : Type := {
  placeholder_id : str;
  original_id : str;
  row_type : component_type;
  html_content : str
}.

(** The lines written to the console at each decision. *)
Inductive event : Type :=
| Found_target (targetId : str)
| Target_not_found (targetId : str)
| Skipping_nested (sectionId : str)
| Skipping_processed (sectionId : str)
| Found_section (sectionId placeholderId : str).

Definition targetIds : list str :=
  map lit ["pinnedTopLeft"; "pinnedTopRight"; "pinnedBottomLeft"].

Definition lines (ls : list str) : str :=
  match ls with
  | [] => []
  | l :: rest => l ++ flat_map (fun x => nl :: x) rest
  end.

Definition quoted (s : string) : str := [dq] ++ lit s ++ [dq].

(** The page around a fragment, shared by the three templates. *)
Definition shell (title : str) (body : list str) : str :=
  lines ([lit "<!DOCTYPE html>";
          lit "<html lang=" ++ quoted "en" ++ lit ">";
          lit "<head>";
          lit "    <meta charset=" ++ quoted "UTF-8" ++ lit ">";
          lit "    <meta name=" ++ quoted "viewport" ++ lit " content="
            ++ quoted "width=device-width, initial-scale=1.0" ++ lit ">";
          lit "    <title>" ++ title ++ lit "</title>";
          lit "</head>";
          lit "<body>"]
           ++ body ++
         [lit "</body>";
          lit "</html>"]).

Definition createCleanComponentHTML (componentHtml elementId placeholderId : str)
  : str :=
  shell (lit "Component: " ++ elementId)
        [lit "    <!-- Placeholder ID: " ++ placeholderId ++ lit " -->";
         lit "    <!-- Original ID: " ++ elementId ++ lit " -->";
         componentHtml].

Definition createNotFoundComponentHTML (elementId placeholderId : str) : str :=
  shell (lit "Component Not Found: " ++ elementId)
        [lit "    <!-- Placeholder ID: " ++ placeholderId ++ lit " -->";
         lit "    <!-- Original ID: " ++ elementId ++ lit " -->";
         lit "    <!-- STATUS: NOT FOUND -->";
         lit "    <div style="
           ++ quoted "padding: 20px; border: 2px dashed red; background: #fff3f3;"
           ++ lit ">";
         lit "        <h2 style=" ++ quoted "color: red;"
           ++ lit ">Component Not Found</h2>";
         lit "        <p><strong>Original ID:</strong> " ++ elementId ++ lit "</p>";
         lit "        <p><strong>Placeholder ID:</strong> " ++ placeholderId
           ++ lit "</p>";
         lit "        <p>This component was not found in the source HTML.</p>";
         lit "    </div>"].

(** The markup stored for a target that is not in the page. *)
Definition notFoundHtml (targetId placeholderId : str) : str :=
  lines [lit "<div style="
           ++ quoted "padding: 20px; border: 2px dashed red; background: #fff3f3;"
           ++ lit ">";
         lit "  <h2 style=" ++ quoted "color: red;"
           ++ lit ">Component Not Found</h2>";
         lit "  <p><strong>Original ID:</strong> " ++ targetId ++ lit "</p>";
         lit "  <p><strong>Placeholder ID:</strong> " ++ placeholderId ++ lit "</p>";
         lit "  <p>This component was not found in the source HTML.</p>";
         lit "</div>"].

(** The locals of [extractComponents], the rows saved and the console. *)
Record state : Type := {
  doc : forest;
  detached : list path;
  placeholderCounter : nat;
  processedSections : list str;
  extractedComponents : list ExtractedComponent;
  saved : list Component;
  console : list event
}.

Definition element_children (n : node) : forest :=
  match n with
  | Element _ _ kids => filter is_element kids
  | _ => []
  end.

(** One turn of the loop over [targetIds]. *)
Definition target_step (st : state) (targetId : str) : state :=
  let matched := flat_map (select (has_id targetId)) (doc st) in
  let placeholderId := wigoh_id (placeholderCounter st) in
  let placeholderCounter' := S (placeholderCounter st) in
  match matched with
  | _ :: _ =>
      let doc1 := map (mark (has_id targetId) "wig-id" (braced placeholderId))
                      (doc st) in
      let element := flat_map (select (has_id targetId)) doc1 in
      let componentHtml := flat_map outerHTML element in
      let doc2 := map (replace_with (has_id targetId) (braced placeholderId))
                      doc1 in
      {| doc := doc2;
         detached := detached st;
         placeholderCounter := placeholderCounter';
         processedSections := processedSections st;
         extractedComponents :=
           extractedComponents st ++
           [{| placeholderId := placeholderId;
               originalId := targetId;
               type := target_id;
               found := true;
               componentHtml :=
                 createCleanComponentHTML componentHtml targetId placeholderId;
               childrenCount :=
                 List.length
                   (flat_map (fun el =>
                                filter (fun k => negb (has_id targetId k))
                                       (element_children el)) element) |}];
         saved := saved st ++
                  [{| placeholder_id := placeholderId;
                      original_id := targetId;
                      row_type := target_id;
                      html_content := componentHtml |}];
         console := console st ++ [Found_target targetId] |}
  | [] =>
      {| doc := doc st;
         detached := detached st;
         placeholderCounter := placeholderCounter';
         processedSections := processedSections st;
         extractedComponents :=
           extractedComponents st ++
           [{| placeholderId := placeholderId;
               originalId := targetId;
               type := target_id;
               found := false;
               componentHtml :=
                 createNotFoundComponentHTML targetId placeholderId;
               childrenCount := 0 |}];
         saved := saved st ++
                  [{| placeholder_id := placeholderId;
                      original_id := targetId;
                      row_type := target_id;
                      html_content := notFoundHtml targetId placeholderId |}];
         console := console st ++ [Target_not_found targetId] |}
  end.

(** [$section.attr('id') || `section_${index + 1}`]. *)
Definition section_id (attribs : list (str * str)) (index : nat) : str :=
  match lookup_attr "id" attribs with
  | Some (c :: v) => c :: v
  | _ => lit "section_" ++ decimal (index + 1)
  end.

Definition log (e : event) (st : state) : state :=
  {| doc := doc st;
     detached := detached st;
     placeholderCounter := placeholderCounter st;
     processedSections := processedSections st;
     extractedComponents := extractedComponents st;
     saved := saved st;
     console := console st ++ [e] |}.

(** A top-level section is tagged, captured and replaced by its token. *)
Definition extract_section (st : state) (p : path) (sectionId : str)
           (name : str) (attribs : list (str * str)) (kids : forest) : state :=
  let placeholderId := wigoh_id (placeholderCounter st) in
  let sectionHtml :=
    outerHTML (Element name (set_attr "wig-id" (braced placeholderId) attribs)
                       kids) in
  {| doc := update_at (doc st) p (Text (braced placeholderId));
     detached := p :: detached st;
     placeholderCounter := S (placeholderCounter st);
     processedSections := processedSections st ++ [sectionId];
     extractedComponents :=
       extractedComponents st ++
       [{| placeholderId := placeholderId;
           originalId := sectionId;
           type := section;
           found := true;
           componentHtml :=
             createCleanComponentHTML sectionHtml sectionId placeholderId;
           childrenCount := List.length (filter is_element kids) |}];
     saved := saved st ++
              [{| placeholder_id := placeholderId;
                  original_id := sectionId;
                  row_type := section;
                  html_content := sectionHtml |}];
     console := console st ++ [Found_section sectionId placeholderId] |}.

(** One turn of the loop over [sectionElements].  [doc0] is the document
    when the sections were collected: the element of the turn is the one
    found at [p] then; the names of its ancestors and its own [id] are as
    they were, its markup is read in the document as it is now. *)
Definition section_step (doc0 : forest) (st : state) (turn : nat * path) : state :=
  let (index, p) := turn in
  match node_at doc0 p with
  | Some (Element _ attribs0 _) =>
      let sectionId := section_id attribs0 index in
      let isNested := existsb (is_section_at doc0) (parents (detached st) p) in
      if isNested then log (Skipping_nested sectionId) st
      else if mem sectionId (processedSections st)
      then log (Skipping_processed sectionId) st
      else
        match node_at (doc st) p with
        | Some (Element name attribs kids) =>
            extract_section st p sectionId name attribs kids
        | _ => st
        end
  | _ => st
  end.

(** The loop over the sections [ps] that come at the turns [i], [i+1], ... *)
Definition run (doc0 : forest) (i : nat) (ps : list path) (st : state) : state :=
  fold_left (section_step doc0) (combine (seq i (List.length ps)) ps) st.

(** The section fragments and the console lines that announce them. *)
Definition section_keys (cs : list ExtractedComponent) : list (str * str) :=
  flat_map (fun c => match type c with
                     | section => [(originalId c, placeholderId c)]
                     | target_id => []
                     end) cs.

Definition announced (es : list event) : list (str * str) :=
  flat_map (fun e => match e with
                     | Found_section sectionId placeholderId =>
                         [(sectionId, placeholderId)]
                     | _ => []
                     end) es.



(** [sectionElements = $('section').toArray()] and the loop over it. *)
Definition process_sections (st : state) : state :=
  run (doc st) 0 (select_paths is_section (doc st)) st.

Definition is_stylesheet_link (n : node) : bool :=
  match n with
  | Element name attribs _ =>
      str_eqb name "link" &&
      match lookup_attr "rel" attribs with
      | Some v => str_eqb (toLowerCase v) "stylesheet"
      | None => false
      end
  | _ => false
  end.

(** "Cleaning HTML": the removals, then the body in a fresh page. *)
Definition clean (document : forest) : str :=
  let d1 := remove (named "script") document in
  let d2 := remove (named "style") d1 in
  let d3 := remove is_stylesheet_link d2 in
  let d4 := remove (named "meta") d3 in
  let d5 := remove (named "title") d4 in
  let d6 := remove (named "header") d5 in
  let d7 := remove (named "footer") d6 in
  let d8 := remove (has_id "soapAfterPagesContainer") d7 in
  let bodyContent :=
    match flat_map (select (named "body")) d8 with
    | Element name _ kids :: _ =>
        flat_map (serialize_node (mem name raw_text_elements)) kids
    | _ => serialize d8
    end in
  shell "Extracted Content with Placeholders" [bodyContent].

Definition initial (document : forest) : state :=
  {| doc := document;
     detached := [];
     placeholderCounter := 1;
     processedSections := [];
     extractedComponents := [];
     saved := [];
     console := [] |}.

Definition process_targets (st : state) : state :=
  fold_left target_step targetIds st.

Record ExtractionResult : Type := {
  cleanedHtml : str;
  components : list ExtractedComponent
}.

(** The state when [extractComponents] has gone through both loops. *)
Definition extraction (document : forest) : state :=
  process_sections (process_targets (initial document)).

Definition extractComponents (document : forest) : ExtractionResult :=
  {| cleanedHtml := clean (doc (extraction document));
     components := extractedComponents (extraction document) |}.

(** A fragment of kind section with a token number from [low] on. *)
Definition section_fragment (low : nat) (c : ExtractedComponent) : Prop :=
  type c = section /\ exists n, low <= n /\ placeholderId c = wigoh_id n.

(** What holds before the turn [i]: the elements that left the document
    are sections; a top-level section still to come is in the document as it
    was; the ids processed are those of earlier turns. *)
Definition inv (doc0 : forest) (all : list path) (i : nat) (st : state)
  : Prop :=
  Forall (fun q => is_section_at doc0 q = true) (detached st)
  /\ (forall p, In p (skipn i all) -> top_level doc0 p = true ->
                node_at (doc st) p = node_at doc0 p)
  /\ (forall sid, In sid (processedSections st) ->
                  exists j pj name attribs kids,
                    j < i /\ nth_error all j = Some pj /\
                    node_at doc0 pj = Some (Element name attribs kids) /\
                    sid = section_id attribs j).

(** The console, the rows and the components only grow. *)
Definition grows (st st' : state) : Prop :=
  exists es sv cs,
    console st' = console st ++ es /\ saved st' = saved st ++ sv /\
    extractedComponents st' = extractedComponents st ++ cs.

(** The page of the scenario of the specification:
    [<section id="a">X</section><section id="b"><section id="c">Y</section>
    </section>]. *)
Definition scenario_page : forest :=
  [Element "html" []
     [Element "head" [] [];
      Element "body" []
        [Element "section" [(lit "id", lit "a")] [Text "X"];
         Element "section" [(lit "id", lit "b")]
           [Element "section" [(lit "id", lit "c")] [Text "Y"]]]]].


(** *** Tokens, ids and removals *)

(** What a fragment and the row saved for it have in common. *)
Definition component_key (c : ExtractedComponent) : str * str * component_type :=
  (placeholderId c, originalId c, type c).

Definition row_key (r : Component) : str * str * component_type :=
  (placeholder_id r, original_id r, row_type r).

(** The fragments so far carry the tokens 1, 2, ... in order, the counter
    is at the next one, and a row was saved for each of them. *)
Definition numbered (st : state) : Prop :=
  map placeholderId (extractedComponents st)
  = map wigoh_id (seq 1 (List.length (extractedComponents st)))
  /\ placeholderCounter st = S (List.length (extractedComponents st))
  /\ map row_key (saved st) = map component_key (extractedComponents st).

(** The ids processed are those of the section fragments, without repeat. *)
Definition ids_once (st : state) : Prop :=
  map fst (section_keys (extractedComponents st)) = processedSections st
  /\ NoDup (processedSections st).

(** The ids of the top-level sections of the turns before [i] are among
    those processed. *)
Definition seen (doc0 : forest) (all : list path) (i : nat) (st : state) : Prop :=
  forall j pj name attribs kids,
    j < i -> nth_error all j = Some pj ->
    node_at doc0 pj = Some (Element name attribs kids) ->
    top_level doc0 pj = true ->
    In (section_id attribs j) (processedSections st).

(** Two sections side by side under the same id. *)
Definition twin_page : forest :=
  [Element "html" []
     [Element "head" [] [];
      Element "body" []
        [Element "section" [(lit "id", lit "a")] [Text "X"];
         Element "div" []
           [Element "section" [(lit "id", lit "a")] [Text "Y"]]]]].

(** The selectors of the removals of "Cleaning HTML", in their order. *)
Definition removals : list (node -> bool) :=
  [named "script"; named "style"; is_stylesheet_link; named "meta";
   named "title"; named "header"; named "footer";
   has_id "soapAfterPagesContainer"].

(** The document after the removals. *)
Definition swept (document : forest) : forest :=
  fold_left (fun d p => remove p d) removals document.

(** [$('body').html()], or [$.html()] when there is no [body]. *)
Definition bodyContent (document : forest) : str :=
  match flat_map (select (named "body")) document with
  | Element name _ kids :: _ =>
      flat_map (serialize_node (mem name raw_text_elements)) kids
  | _ => serialize document
  end.

(** Before the turn [i]: a section still in the document is one of the
    page, at or below a top-level section whose turn is still to come. *)
Definition pending (doc0 : forest) (all : list path) (i : nat) (st : state)
  : Prop :=
  forall q,
    is_section_at (doc st) q = true ->
    exists k pk,
      i <= k /\ nth_error all k = Some pk /\
      top_level doc0 pk = true /\ prefix_of pk q.

(** The resolved ids of the sections are pairwise different. *)
Definition distinct_ids (doc0 : forest) (all : list path) : Prop :=
  forall i j pi pj ni ai ki nj aj kj,
    i < j -> nth_error all i = Some pi -> nth_error all j = Some pj ->
    node_at doc0 pi = Some (Element ni ai ki) ->
    node_at doc0 pj = Some (Element nj aj kj) ->
    section_id ai i <> section_id aj j.

End ComponentExtraction.

(** ** ReconstructionService *)

Module Reconstruction.

(** A token of the component extractor with the digits [ds]. *)
Definition component_token (ds : str) : str := braced (lit "wigoh-id-" ++ ds).

(** The longest run of digits at the head of [s], and what follows. *)
Fixpoint span_digits (s : str) : str * str :=
  match s with
  | c :: s' =>
      if is_digit c
      then let (ds, rest) := span_digits s' in (c :: ds, rest)
      else ([], s)
  | [] => ([], [])
  end.

Definition marker_prefix : str := lit "wig-id=" ++ [dq] ++ lit "{{wigoh-id-".
Definition marker_suffix : str := lit "}}" ++ [dq].

(** The expression [/wig-id="(\{\{wigoh-id-\d+\}\})"/] tried at the head of
    [s]: the captured group when it matches there. *)
Definition wig_id_here (s : str) : option str :=
  if starts marker_prefix s then
    let (ds, rest) := span_digits (skipn 19 s) in
    match ds with
    | [] => None
    | _ :: _ => if starts marker_suffix rest then Some (component_token ds) else None
    end
  else None.

(** [optimized_html.match(...)]: the leftmost match, its group 1. *)
Fixpoint wigIdMatch (s : str) : option str :=
  match wig_id_here s with
  | Some t => Some t
  | None => match s with
            | [] => None
            | _ :: s' => wigIdMatch s'
            end
  end.

(** A row of the widgets table.  Rows are written by [extractWidgets] only,
    under the key [{{widget-N}}]; the row is kept by its number [N]. *)
Record widget_row : Type := {
  widget_no : nat;
  widget_html : str
}.

Definition widget_key (w : widget_row) : str := widget_token (widget_no w).

(** The working document and a counter of replacements. *)
Definition progress : Type := (str * nat)%type.

(** One turn of the loop over the optimised components; [row] is what
    [getOptimizedComponentById] returned, [None] for no row. *)
Definition component_step (st : progress) (row : option str) : progress :=
  match row with
  | None => st
  | Some [] => st
  | Some optimized_html =>
      match wigIdMatch optimized_html with
      | None => st
      | Some wigIdPlaceholder =>
          if includes (fst st) wigIdPlaceholder
          then (js_replace wigIdPlaceholder optimized_html (fst st), S (snd st))
          else st
      end
  end.

(** One turn of the loop over the widgets. *)
Definition widget_step (st : progress) (widget : widget_row) : progress :=
  let placeholder := widget_key widget in
  if includes (fst st) placeholder
  then (js_replace_all placeholder (widget_html widget) (fst st),
        snd st + count_matches placeholder 0 (fst st))
  else st.

Record ReconstructionResult : Type := {
  reconstructedHtml : str;
  totalComponents : nat;
  totalWidgets : nat
}.

Definition reconstruct (template : str) (components : list (option str))
           (widgets : list widget_row) : ReconstructionResult :=
  let (html1, componentsReplaced) :=
    fold_left component_step components (template, 0) in
  let (html2, widgetsReplaced) :=
    fold_left widget_step widgets (html1, 0) in
  {| reconstructedHtml := html2;
     totalComponents := componentsReplaced;
     totalWidgets := widgetsReplaced |}.

(** [reconstructHtml]: it throws when no template was stored. *)
Definition reconstructHtml (placeholderData : option str)
           (components : list (option str)) (widgets : list widget_row)
  : option ReconstructionResult :=
  match placeholderData with
  | None => None
  | Some template => Some (reconstruct template components widgets)
  end.

(** What the widget loop would give if the markup of each widget were put
    in as it is. *)
Definition widget_step_verbatim (st : progress) (widget : widget_row) : progress :=
  (subst_all (widget_key widget) (widget_html widget) (fst st),
   snd st + count_matches (widget_key widget) 0 (fst st)).

(** Some component of the list carries the token [t] in its marker
    attribute. *)
Definition covers (components : list (option str)) (t : str) : bool :=
  existsb (fun row =>
             match row with
             | Some (c :: html) =>
                 match wigIdMatch (c :: html) with
                 | Some t' => str_eqb t t'
                 | None => false
                 end
             | _ => false
             end) components.

(** The scenario of the specification: one component, one widget. *)
Definition scenario_template : str := "<div>{{wigoh-id-001}}</div>".
Definition scenario_components : list (option str) :=
  [Some (lit "<section wig-id=" ++ [dq] ++ lit "{{wigoh-id-001}}" ++ [dq]
           ++ lit ">{{widget-1}}</section>")].
Definition scenario_widgets : list widget_row :=
  [{| widget_no := 1; widget_html := "<b>Hi</b>" |}].

(** A paragraph that quotes a price. *)
Definition price_widget : widget_row :=
  {| widget_no := 1; widget_html := "<p>Only $$5 today</p>" |}.

(** The rows of the widgets table when [saveWidget] was called for each
    entry of [widgets] on an empty table, as [getAllWidgets] returns them,
    by id; [extractWidgets] saves them under the tokens [first],
    [first + 1], ... *)
Definition rows_from (first : nat) (widgets : list (str * str)) : list widget_row :=
  map (fun iw => {| widget_no := fst iw; widget_html := snd (snd iw) |})
      (combine (seq first (List.length widgets)) widgets).


End Reconstruction.

(** ** HtmlToJsonService *)

Module HtmlToJson.

(** What [elementToJson] returns: a string, or a [DOMNode] object. *)
Inductive jvalue : Type :=
| JText (s : str)
| JNode (tagName : str) (attributes : list (str * str))
        (children : list jvalue) (textContent : option str).

(** [element.type === 'tag']: the DOM library gives [script] and [style]
    elements types of their own. *)
Definition is_tag (name : str) : bool :=
  negb (str_eqb name "script") && negb (str_eqb name "style").

(** The body of the [forEach] over [element.children]: only non-empty
    children are pushed. *)
Definition push_child (children : list jvalue) (childNode : jvalue) : list jvalue :=
  match childNode with
  | JText s => match trim s with [] => children | _ => children ++ [childNode] end
  | JNode _ _ _ _ => children ++ [childNode]
  end.

Definition convert_children (conv : node -> nat -> jvalue * nat) :=
  fix each (cs : forest) (children : list jvalue) (nodeCount : nat)
    : list jvalue * nat :=
    match cs with
    | [] => (children, nodeCount)
    | child :: cs' =>
        let (childNode, nodeCount') := conv child nodeCount in
        each cs' (push_child children childNode) nodeCount'
    end.

(** "Add textContent for leaf elements with text". *)
Definition finish (name : str) (attribs : list (str * str))
           (children : list jvalue) : jvalue :=
  match children with
  | [JText s] => JNode name attribs [] (Some s)
  | _ => JNode name attribs children None
  end.

(** [elementToJson], with the instance counter [this.nodeCount] threaded. *)
Fixpoint elementToJson (element : node) (nodeCount : nat) : jvalue * nat :=
  let nodeCount := S nodeCount in
  match element with
  | Text data => (JText (trim data), nodeCount)
  | Comment _ => (JText [], nodeCount)
  | Element name attribs kids =>
      if is_tag name then
        let (children, nodeCount') :=
          convert_children elementToJson kids [] nodeCount in
        (finish name attribs children, nodeCount')
      else (JText [], nodeCount)
  | Doctype _ => (JText [], nodeCount)
  end.

(** [convertToJson] on the parsed reconstructed page: the counter is reset,
    the walk starts at [$('body')[0]], or at the root node (which is no tag)
    when there is no [body]. *)
Definition convertToJson (doc : forest) : jvalue * nat :=
  match flat_map (select (named "body")) doc with
  | body :: _ => elementToJson body 0
  | [] => (JText [], 1)
  end.

(** The parsed page [<body><p>Hello</p></body>]. *)
Definition hello_page : forest :=
  [Element "html" []
     [Element "head" [] [];
      Element "body" [] [Element "p" [] [Text "Hello"]]]].

(** *** The shape and the size of an exported tree *)

Section JvalueInduction.

Variable P : jvalue -> Prop.
Hypothesis P_text : forall s, P (JText s).
Hypothesis P_node :
  forall name attribs children textContent,
    Forall P children -> P (JNode name attribs children textContent).

Fixpoint jvalue_induction (j : jvalue) : P j :=
  match j with
  | JText s => P_text s
  | JNode name attribs children textContent =>
      P_node name attribs textContent
        ((fix all (js : list jvalue) : Forall P js :=
            match js with
            | [] => Forall_nil P
            | x :: js' => Forall_cons x (jvalue_induction x) (all js')
            end) children)
  end.

End JvalueInduction.

(** What the export keeps: a string that is not empty and has no white
    space at its ends; a leaf with such a [textContent] and no children; a
    node whose children are kept and are not one single string. *)
Inductive kept : jvalue -> Prop :=
| kept_string s : s <> [] -> trim s = s -> kept (JText s)
| kept_leaf name attribs s :
    s <> [] -> trim s = s -> kept (JNode name attribs [] (Some s))
| kept_node name attribs children :
    Forall kept children -> (forall s, children <> [JText s]) ->
    kept (JNode name attribs children None).

(** The nodes of a subtree of the document. *)
Fixpoint node_count (n : node) : nat :=
  match n with
  | Element _ _ kids => S (list_sum (map node_count kids))
  | _ => 1
  end.

(** No [script] and no [style] element in the subtree. *)
Fixpoint tags_only (n : node) : bool :=
  match n with
  | Element name _ kids => is_tag name && forallb tags_only kids
  | _ => true
  end.

(** The entries of an exported tree: objects, strings, [textContent]s. *)
Fixpoint json_count (j : jvalue) : nat :=
  match j with
  | JText _ => 1
  | JNode _ _ children textContent =>
      S (list_sum (map json_count children)
         + match textContent with Some _ => 1 | None => 0 end)
  end.

End HtmlToJson.

(** ** AIService *)

Module AIService.

Definition fence : str := lit "```".
Definition html_fence : str := lit "```html".

(** [extractOptimizedHTML].  The expression
    [/```html\s*([\s\S]*?)\s*```/] matches at the first [```html] that has a
    [```] after it, and its group, once trimmed, is the trimmed text between
    the two; [response.trim()] is returned in both other cases. *)
Definition extractOptimizedHTML (response : str) : str :=
  match cut_at html_fence response with
  | Some (_, rest) =>
      match cut_at fence rest with
      | Some (inner, _) => trim inner
      | None => trim response
      end
  | None => trim response
  end.

End AIService.

(** ** GcsUploadService *)

Module GcsUpload.
Import HtmlToJson.

(** A value as [countNodes] looks at it: one that is no object (or is
    [null]), with its truthiness; an array; any other object, with its
    property [children] when it has one. *)
Inductive value : Type :=
| Primitive (truthy : bool)
| Array (items : list value)
| Object (children : option value).

Definition truthy (v : value) : bool :=
  match v with Primitive b => b | _ => true end.

(** [countNodes] of [uploadCustomJson]. *)
Fixpoint countNodes (obj : value) : nat :=
  match obj with
  | Primitive _ => 1
  | Array items => fold_left (fun sum item => sum + countNodes item) items 0
  | Object children =>
      1 + match children with
          | Some c => if truthy c then countNodes c else 0
          | None => 0
          end
  end.

(** An exported tree as such a value: a string is truthy unless empty, a
    node is an object whose [children] is an array. *)
Fixpoint as_value (j : jvalue) : value :=
  match j with
  | JText s => Primitive (match s with [] => false | _ :: _ => true end)
  | JNode _ _ children _ => Object (Some (Array (map as_value children)))
  end.

(** The nodes of an exported tree that carry a [textContent]. *)
Fixpoint text_leaves (j : jvalue) : nat :=
  match j with
  | JText _ => 0
  | JNode _ _ children textContent =>
      list_sum (map text_leaves children)
      + match textContent with Some _ => 1 | None => 0 end
  end.

End GcsUpload.

(* ================================================================== *)
(** * Properties *)
(* ================================================================== *)

Unset Implicit Arguments.

(** ** Strings: prefixes, occurrences, replacement *)

Lemma str_eqb_eq a b : str_eqb a b = true <-> a = b.
Proof.
  revert b. induction a as [|x a IH]; intros [|y b]; simpl; split; intro H;
    try reflexivity; try discriminate.
  - apply andb_true_iff in H. destruct H as [H1 H2].
    apply Ascii.eqb_eq in H1. apply IH in H2. congruence.
  - inversion H; subst. rewrite Ascii.eqb_refl. simpl. apply IH. reflexivity.
Qed.

Lemma str_eqb_refl a : str_eqb a a = true.
Proof. apply str_eqb_eq. reflexivity. Qed.

Lemma str_eqb_neq a b : str_eqb a b = false <-> a <> b.
Proof.
  split; intro H.
  - intro E. apply str_eqb_eq in E. congruence.
  - destruct (str_eqb a b) eqn:E; [|reflexivity].
    apply str_eqb_eq in E. contradiction.
Qed.

Lemma starts_iff p s : starts p s = true <-> exists r, s = p ++ r.
Proof.
  revert s. induction p as [|a p IH]; intros s; simpl.
  - split; [intros _; exists s; reflexivity | reflexivity].
  - destruct s as [|b s].
    + split; [discriminate | intros [r Hr]; discriminate].
    + rewrite andb_true_iff, Ascii.eqb_eq, IH. split.
      * intros [-> [r ->]]. exists r. reflexivity.
      * intros [r Hr]. inversion Hr; subst. split; [reflexivity | exists r; reflexivity].
Qed.

Lemma starts_app p r : starts p (p ++ r) = true.
Proof. apply starts_iff. exists r. reflexivity. Qed.

Lemma skipn_len_app (p r : str) : skipn (List.length p) (p ++ r) = r.
Proof. induction p; simpl; auto. Qed.

Lemma occurs_here p v : occurs p (p ++ v).
Proof. exists [], v. reflexivity. Qed.

Lemma occurs_app_l p a b : occurs p a -> occurs p (a ++ b).
Proof.
  intros [u [v ->]]. exists u, (v ++ b). now rewrite <- !app_assoc.
Qed.

Lemma occurs_app_r p a b : occurs p b -> occurs p (a ++ b).
Proof.
  intros [u [v ->]]. exists (a ++ u), v. now rewrite <- !app_assoc.
Qed.

Lemma occurs_cons p c s : occurs p s -> occurs p (c :: s).
Proof. apply (occurs_app_r p [c]). Qed.

Lemma includes_iff s p : includes s p = true <-> occurs p s.
Proof.
  induction s as [|c s IH]; simpl.
  - rewrite orb_false_r, starts_iff. split.
    + intros [r Hr]. exists [], r. exact Hr.
    + intros [u [v H]]. destruct u; [exists v; exact H | discriminate].
  - rewrite orb_true_iff, starts_iff, IH. split.
    + intros [[r Hr] | H].
      * exists [], r. exact Hr.
      * apply occurs_cons. exact H.
    + intros [u [v H]]. destruct u as [|a u].
      * left. exists v. exact H.
      * right. inversion H; subst. exists u, v. reflexivity.
Qed.

Lemma not_includes_iff s p : includes s p = false <-> ~ occurs p s.
Proof.
  rewrite <- includes_iff. destruct (includes s p); split; congruence.
Qed.

Section ReplaceFacts.

Variable sub : str -> str -> str.
Variable pat : str.
Hypothesis pat_nonempty : pat <> [].

Lemma replace_all_skip k before s :
  replace_all sub pat k before s
  = replace_all sub pat 0 (before ++ firstn k s) (skipn k s).
Proof.
  revert k before. induction s as [|c s IH]; intros k before.
  - destruct k; reflexivity.
  - destruct k as [|k].
    + simpl firstn. simpl skipn. now rewrite app_nil_r.
    + simpl. rewrite IH. now rewrite <- app_assoc.
Qed.

Lemma replace_all_match before r :
  replace_all sub pat 0 before (pat ++ r)
  = sub before r ++ replace_all sub pat 0 (before ++ pat) r.
Proof.
  assert (Hl : List.length pat = S (List.length pat - 1)).
  { destruct pat; [contradiction | simpl; lia]. }
  destruct (pat ++ r) as [|c s'] eqn:E.
  { destruct pat; [contradiction | discriminate]. }
  cbn [replace_all]. rewrite <- E, starts_app, skipn_len_app.
  f_equal. rewrite replace_all_skip.
  assert (H1 : firstn (List.length pat) (c :: s') = pat).
  { rewrite <- E, firstn_app, Nat.sub_diag, firstn_all. simpl. apply app_nil_r. }
  assert (H2 : skipn (List.length pat) (c :: s') = r).
  { rewrite <- E. apply skipn_len_app. }
  rewrite Hl in H1, H2. simpl in H1, H2.
  rewrite H2, <- app_assoc. simpl. rewrite H1. reflexivity.
Qed.

Lemma replace_all_pass before x y :
  (forall x1 x2, x = x1 ++ x2 -> x2 <> [] -> starts pat (x2 ++ y) = false) ->
  replace_all sub pat 0 before (x ++ y)
  = x ++ replace_all sub pat 0 (before ++ x) y.
Proof.
  revert before. induction x as [|c x IH]; intros before H.
  - simpl. now rewrite app_nil_r.
  - change ((c :: x) ++ y) with (c :: (x ++ y)). cbn [replace_all].
    change (c :: x ++ y) with ((c :: x) ++ y).
    rewrite (H [] (c :: x) eq_refl) by discriminate.
    simpl. f_equal. rewrite IH.
    + now rewrite <- app_assoc.
    + intros x1 x2 -> Hx2. apply (H (c :: x1) x2); [reflexivity | exact Hx2].
Qed.

Lemma replace_all_absent before s :
  ~ occurs pat s -> replace_all sub pat 0 before s = s.
Proof.
  intro H. rewrite <- (app_nil_r s) at 1. rewrite replace_all_pass.
  - simpl. now rewrite app_nil_r.
  - intros x1 x2 -> Hx2. rewrite app_nil_r.
    destruct (starts pat x2) eqn:E; [|reflexivity].
    exfalso. apply H. apply starts_iff in E. destruct E as [r ->].
    exists x1, r. reflexivity.
Qed.

Lemma replace_first_eq before s :
  replace_first sub pat before s
  = if starts pat s
    then sub before (skipn (List.length pat) s) ++ skipn (List.length pat) s
    else match s with
         | [] => []
         | c :: s' => c :: replace_first sub pat (before ++ [c]) s'
         end.
Proof. destruct s; reflexivity. Qed.

Lemma replace_first_match before r :
  replace_first sub pat before (pat ++ r) = sub before r ++ r.
Proof.
  rewrite replace_first_eq, starts_app, skipn_len_app. reflexivity.
Qed.

Lemma replace_first_pass before x y :
  (forall x1 x2, x = x1 ++ x2 -> x2 <> [] -> starts pat (x2 ++ y) = false) ->
  replace_first sub pat before (x ++ y)
  = x ++ replace_first sub pat (before ++ x) y.
Proof.
  revert before. induction x as [|c x IH]; intros before H.
  - simpl. now rewrite app_nil_r.
  - rewrite replace_first_eq.
    rewrite (H [] (c :: x) eq_refl) by discriminate.
    simpl. f_equal. rewrite IH.
    + now rewrite <- app_assoc.
    + intros x1 x2 -> Hx2. apply (H (c :: x1) x2); [reflexivity | exact Hx2].
Qed.

End ReplaceFacts.

Section FirstOccurrence.

Variable sub : str -> str -> str.
Variable pat : str.

(** The leftmost occurrence: no match starts before it. *)
Lemma first_occurrence s :
  occurs pat s ->
  exists u v,
    s = u ++ pat ++ v /\
    (forall x1 x2, u = x1 ++ x2 -> x2 <> [] ->
                   starts pat (x2 ++ pat ++ v) = false).
Proof.
  induction s as [|c s IH]; intros Hocc.
  - destruct Hocc as [u [v H]]. symmetry in H.
    apply app_eq_nil in H. destruct H as [-> H].
    apply app_eq_nil in H. destruct H as [Hp ->].
    exists [], []. split; [now rewrite Hp|].
    intros x1 x2 H Hx2. symmetry in H. apply app_eq_nil in H.
    destruct H as [_ H]. contradiction.
  - destruct (starts pat (c :: s)) eqn:E.
    + apply starts_iff in E. destruct E as [r Hr].
      exists [], r. split; [exact Hr|].
      intros x1 x2 H Hx2. symmetry in H. apply app_eq_nil in H.
      destruct H as [_ H]. contradiction.
    + assert (Hs : occurs pat s).
      { destruct Hocc as [u [v H]]. destruct u as [|a u].
        - simpl in H. rewrite H, starts_app in E. discriminate.
        - inversion H; subst. exists u, v. reflexivity. }
      destruct (IH Hs) as [u [v [Hs' Hfirst]]].
      exists (c :: u), v. split; [simpl; now rewrite Hs'|].
      intros x1 x2 H Hx2. destruct x1 as [|a x1].
      * simpl in H. subst x2. simpl. rewrite <- Hs'. exact E.
      * inversion H; subst. now apply (Hfirst x1 x2).
Qed.

Lemma replace_first_occurs before s :
  occurs pat s ->
  exists u v,
    s = u ++ pat ++ v /\
    (forall x1 x2, u = x1 ++ x2 -> x2 <> [] ->
                   starts pat (x2 ++ pat ++ v) = false) /\
    replace_first sub pat before s = u ++ sub (before ++ u) v ++ v.
Proof.
  intro Hocc. destruct (first_occurrence s Hocc) as [u [v [Hs Hfirst]]].
  exists u, v. split; [exact Hs|]. split; [exact Hfirst|].
  rewrite Hs, replace_first_pass by exact Hfirst.
  now rewrite replace_first_match.
Qed.

Lemma replace_all_occurs before s :
  pat <> [] -> occurs pat s ->
  exists u v,
    s = u ++ pat ++ v /\
    (forall x1 x2, u = x1 ++ x2 -> x2 <> [] ->
                   starts pat (x2 ++ pat ++ v) = false) /\
    replace_all sub pat 0 before s
    = u ++ sub (before ++ u) v
        ++ replace_all sub pat 0 ((before ++ u) ++ pat) v.
Proof.
  intros Hne Hocc. destruct (first_occurrence s Hocc) as [u [v [Hs Hfirst]]].
  exists u, v. split; [exact Hs|]. split; [exact Hfirst|].
  rewrite Hs, replace_all_pass by exact Hfirst.
  now rewrite replace_all_match.
Qed.

End FirstOccurrence.

(** ** White space at the ends *)

Lemma trimStart_fixed s :
  match s with [] => True | c :: _ => is_space c = false end ->
  trimStart s = s.
Proof. destruct s as [|c s]; [reflexivity|]. simpl. now intros ->. Qed.

Lemma trimStart_headed s :
  match trimStart s with [] => True | c :: _ => is_space c = false end.
Proof.
  induction s as [|c s IH]; [exact I|]. simpl.
  destruct (is_space c) eqn:E; [exact IH | exact E].
Qed.

Lemma trimStart_suffix s :
  exists ws, s = ws ++ trimStart s /\ forallb is_space ws = true.
Proof.
  induction s as [|c s IH]; [now exists []|]. simpl.
  destruct (is_space c) eqn:E.
  - destruct IH as [ws [H1 H2]]. exists (c :: ws). simpl.
    rewrite E, H2. split; [now rewrite <- H1 | reflexivity].
  - now exists [].
Qed.

Lemma trim_headed s :
  match trim s with [] => True | c :: _ => is_space c = false end.
Proof.
  unfold trim. pose proof (trimStart_headed s) as Ha.
  destruct (trimStart_suffix (rev (trimStart s))) as [ws [Hw _]].
  set (b := trimStart (rev (trimStart s))) in *.
  assert (E : trimStart s = rev b ++ rev ws).
  { rewrite <- (rev_involutive (trimStart s)), Hw, rev_app_distr. reflexivity. }
  destruct (rev b) as [|c r]; [exact I|].
  rewrite E in Ha. exact Ha.
Qed.

Lemma trim_idempotent s : trim (trim s) = trim s.
Proof.
  pose proof (trim_headed s) as H.
  unfold trim at 1. rewrite (trimStart_fixed _ H).
  unfold trim. rewrite rev_involutive.
  rewrite (trimStart_fixed _ (trimStart_headed (rev (trimStart s)))).
  reflexivity.
Qed.

(** ** The matches of a global expression *)

Section CountFacts.

Variable pat : str.
Hypothesis pat_nonempty : pat <> [].

Lemma count_matches_skip k s :
  count_matches pat k s = count_matches pat 0 (skipn k s).
Proof.
  revert k. induction s as [|c s IH]; intros k.
  - destruct k; reflexivity.
  - destruct k as [|k]; [reflexivity|]. simpl. apply IH.
Qed.

Lemma count_matches_match r :
  count_matches pat 0 (pat ++ r) = S (count_matches pat 0 r).
Proof.
  assert (Hl : List.length pat = S (List.length pat - 1)).
  { destruct pat; [contradiction | simpl; lia]. }
  destruct (pat ++ r) as [|c s'] eqn:E.
  { destruct pat; [contradiction | discriminate]. }
  cbn [count_matches]. rewrite <- E, starts_app. f_equal.
  rewrite count_matches_skip.
  assert (H2 : skipn (List.length pat) (c :: s') = r).
  { rewrite <- E. apply skipn_len_app. }
  rewrite Hl in H2. simpl in H2. now rewrite H2.
Qed.

Lemma count_matches_pass x y :
  (forall x1 x2, x = x1 ++ x2 -> x2 <> [] -> starts pat (x2 ++ y) = false) ->
  count_matches pat 0 (x ++ y) = count_matches pat 0 y.
Proof.
  induction x as [|c x IH]; intros H; [reflexivity|].
  change ((c :: x) ++ y) with (c :: (x ++ y)). cbn [count_matches].
  change (c :: x ++ y) with ((c :: x) ++ y).
  rewrite (H [] (c :: x) eq_refl) by discriminate.
  apply IH. intros x1 x2 -> Hx2. apply (H (c :: x1) x2); [reflexivity | exact Hx2].
Qed.

Lemma no_start_no_occurrence u v :
  (forall x1 x2, u = x1 ++ x2 -> x2 <> [] ->
                 starts pat (x2 ++ pat ++ v) = false) ->
  ~ occurs pat u.
Proof.
  intros Hfirst [a [b Hab]].
  assert (Hx : pat ++ b <> []) by (destruct pat; [contradiction | discriminate]).
  specialize (Hfirst a (pat ++ b) Hab Hx).
  rewrite <- app_assoc, starts_app in Hfirst. discriminate.
Qed.

(** The text cut at the matches of the global expression. *)
Lemma pieces_of rep :
  forall n s before,
    List.length s <= n ->
    exists pieces,
      pieces <> []
      /\ s = join pat pieces
      /\ Forall (fun piece => ~ occurs pat piece) pieces
      /\ replace_all (fun _ _ => rep) pat 0 before s = join rep pieces
      /\ count_matches pat 0 s = List.length pieces - 1.
Proof.
  induction n as [|n IH]; intros s before Hlen.
  - destruct s; [|simpl in Hlen; lia]. exists [[]].
    repeat split; try discriminate.
    constructor; [|constructor]. intros [u [v H]].
    destruct u; [|discriminate]. destruct pat; [contradiction | discriminate].
  - destruct (includes s pat) eqn:E.
    + apply includes_iff in E.
      destruct (replace_all_occurs (fun _ _ => rep) pat before s pat_nonempty E)
        as [u [v [Hs [Hfirst Hr]]]].
      assert (Hv : List.length v <= n).
      { rewrite Hs, !length_app in Hlen.
        destruct pat; [contradiction | simpl in Hlen; lia]. }
      destruct (IH v ((before ++ u) ++ pat) Hv)
        as [pieces [Hne [Hj [Hfree [Hrep Hcount]]]]].
      exists (u :: pieces). destruct pieces as [|p0 pieces]; [contradiction|].
      split; [discriminate|]. split; [now rewrite Hs, Hj|]. split.
      * constructor; [|exact Hfree]. now apply (no_start_no_occurrence u v).
      * split; [now rewrite Hr, Hrep|].
        rewrite Hs, count_matches_pass by exact Hfirst.
        rewrite count_matches_match, Hcount. simpl. lia.
    + apply not_includes_iff in E. exists [s].
      split; [discriminate|]. split; [reflexivity|]. split.
      * constructor; [exact E | constructor].
      * split; [now apply replace_all_absent|].
        rewrite <- (app_nil_r s). rewrite count_matches_pass; [reflexivity|].
        intros x1 x2 -> Hx2. rewrite app_nil_r.
        destruct (starts pat x2) eqn:Es; [|reflexivity].
        exfalso. apply E. apply starts_iff in Es. destruct Es as [r ->].
        exists x1, r. reflexivity.
Qed.

End CountFacts.

(** ** The first occurrence of a text *)

Lemma cut_at_first a pat u v :
  ~ In a u -> cut_at (a :: pat) (u ++ a :: pat ++ v) = Some (u, v).
Proof.
  intros Hu. induction u as [|c u IH].
  - cbn [app cut_at starts]. rewrite Ascii.eqb_refl, starts_app. cbn [andb].
    cbn [List.length skipn]. now rewrite skipn_len_app.
  - cbn [app cut_at starts].
    destruct (Ascii.eqb a c) eqn:E.
    { apply Ascii.eqb_eq in E. subst a. exfalso. apply Hu. now left. }
    cbn [andb]. rewrite IH; [reflexivity|]. intro Hin. apply Hu. now right.
Qed.

Lemma cut_at_none a pat s : ~ In a s -> cut_at (a :: pat) s = None.
Proof.
  intros Hs. induction s as [|c s IH]; [reflexivity|].
  cbn [cut_at starts].
  destruct (Ascii.eqb a c) eqn:E.
  { apply Ascii.eqb_eq in E. subst a. exfalso. apply Hs. now left. }
  cbn [andb]. rewrite IH; [reflexivity|]. intro Hin. apply Hs. now right.
Qed.

(** ** Occurrences across a seam *)




Lemma nodup_map {A B} (f : A -> B) l :
  (forall a b, f a = f b -> a = b) -> NoDup l -> NoDup (map f l).
Proof.
  intros Hinj. induction 1 as [|x l Hx _ IH]; simpl; constructor; [|exact IH].
  intro H. apply in_map_iff in H. destruct H as [y [Hy Hin]].
  apply Hinj in Hy. now subst y.
Qed.

(** ** Tokens in braces never overlap *)

Lemma brace_free_app a b : brace_free (a ++ b) <-> brace_free a /\ brace_free b.
Proof. unfold brace_free. rewrite forallb_app, andb_true_iff. tauto. Qed.

Lemma brace_free_In s c : brace_free s -> In c s -> is_brace c = false.
Proof.
  unfold brace_free. rewrite forallb_forall. intros H Hin.
  apply H in Hin. now apply negb_true_iff in Hin.
Qed.

Lemma same_core a b r1 r2 :
  brace_free a -> brace_free b ->
  a ++ "}"%char :: r1 = b ++ "}"%char :: r2 -> a = b /\ r1 = r2.
Proof.
  revert b. induction a as [|x a IH]; intros [|y b] Ha Hb H; simpl in H.
  - inversion H. auto.
  - inversion H; subst. simpl in Hb. discriminate.
  - inversion H; subst. simpl in Ha. discriminate.
  - inversion H; subst.
    apply (brace_free_app [y] a) in Ha. apply (brace_free_app [y] b) in Hb.
    destruct (IH b) as [-> ->]; tauto.
Qed.

Lemma braced_same_start c1 c2 v y :
  brace_free c1 -> brace_free c2 ->
  braced c1 ++ v = braced c2 ++ y -> c1 = c2 /\ v = y.
Proof.
  intros H1 H2 H. unfold braced in H. rewrite <- !app_assoc in H.
  simpl in H. inversion H as [H'].
  apply same_core in H'; auto. destruct H' as [-> H']. inversion H'. auto.
Qed.

Lemma braced_no_straddle c1 c2 l m v y :
  brace_free c1 -> braced c1 = l ++ m -> l <> [] -> m <> [] ->
  m ++ v = braced c2 ++ y -> False.
Proof.
  intros H1 Hsplit Hl Hm Heq.
  destruct m as [|h m]; [contradiction|].
  unfold braced in Heq. simpl in Heq. inversion Heq as [[Hh Hrest]]. subst h.
  destruct l as [|a l]; [contradiction|].
  unfold braced in Hsplit. simpl in Hsplit. inversion Hsplit as [[Ha Hs]].
  destruct l as [|b l].
  - simpl in Hs. inversion Hs as [Hm']. subst m.
    destruct c1 as [|x c1]; simpl in Hrest; inversion Hrest; subst.
    simpl in H1. discriminate.
  - simpl in Hs. inversion Hs as [[Hb Hs']].
    assert (Hin : In "{"%char (c1 ++ lit "}}")).
    { simpl. rewrite Hs'. apply in_or_app. right. left. reflexivity. }
    apply in_app_or in Hin. destruct Hin as [Hin | Hin].
    + apply (brace_free_In _ _ H1) in Hin. discriminate.
    + simpl in Hin. destruct Hin as [Hin | [Hin | []]]; discriminate.
Qed.

Lemma braced_nonempty c : braced c <> [].
Proof. discriminate. Qed.

(** Two tokens in one string are disjoint or the same occurrence. *)
Lemma braced_overlap c1 c2 u v x y :
  brace_free c1 -> brace_free c2 ->
  u ++ braced c1 ++ v = x ++ braced c2 ++ y ->
  (exists w, x = u ++ braced c1 ++ w /\ v = w ++ braced c2 ++ y)
  \/ (u = x /\ c1 = c2 /\ v = y)
  \/ (exists w, u = x ++ braced c2 ++ w /\ y = w ++ braced c1 ++ v).
Proof.
  intros H1 H2 H.
  apply app_eq_app in H. destruct H as [l [[Hu Hy] | [Hx Hv]]].
  - (* the second token starts first *)
    destruct l as [|a l].
    + rewrite app_nil_r in Hu. change ([] ++ braced c1 ++ v) with (braced c1 ++ v) in Hy.
      symmetry in Hy.
      apply braced_same_start in Hy; [|assumption|assumption].
      right; left. destruct Hy as [-> ->]. auto.
    + apply app_eq_app in Hy. destruct Hy as [m [[Hb Hv] | [Hl Hy]]].
      * destruct m as [|b m].
        -- rewrite app_nil_r in Hb. right; right. exists [].
           rewrite app_nil_r, Hb. split; [exact Hu | symmetry; exact Hv].
        -- exfalso. symmetry in Hv.
           apply (braced_no_straddle c2 c1 (a :: l) (b :: m) y v); auto; discriminate.
      * right; right. exists m. split; [|exact Hy].
        rewrite Hu, Hl. reflexivity.
  - destruct l as [|a l].
    + rewrite app_nil_r in Hx. change ([] ++ braced c2 ++ y) with (braced c2 ++ y) in Hv.
      apply braced_same_start in Hv; [|assumption|assumption].
      right; left. destruct Hv as [-> ->]. auto.
    + apply app_eq_app in Hv. destruct Hv as [m [[Hb Hy] | [Hl Hv]]].
      * destruct m as [|b m].
        -- rewrite app_nil_r in Hb. left. exists [].
           rewrite app_nil_r, Hb. split; [exact Hx | symmetry; exact Hy].
        -- exfalso. symmetry in Hy.
           apply (braced_no_straddle c1 c2 (a :: l) (b :: m) v y); auto; discriminate.
      * left. exists m. split; [|exact Hv].
        rewrite Hx, Hl. reflexivity.
Qed.

(** ** Counters in decimal *)

Lemma lit_inj a b : lit a = lit b -> a = b.
Proof.
  unfold lit. intro H.
  rewrite <- (string_of_list_ascii_of_string a), H.
  apply string_of_list_ascii_of_string.
Qed.

Lemma decimal_inj a b : decimal a = decimal b -> a = b.
Proof.
  unfold decimal. intro H. apply lit_inj in H.
  apply DecimalNat.Unsigned.to_uint_inj.
  assert (E : Some (Nat.to_uint a) = Some (Nat.to_uint b)).
  { rewrite <- !DecimalString.NilEmpty.usu. now rewrite H. }
  now inversion E.
Qed.

Lemma decimal_digits n : forallb is_digit (decimal n) = true.
Proof.
  unfold decimal. generalize (Nat.to_uint n) as d.
  induction d; simpl; auto.
Qed.

Lemma digits_brace_free s : forallb is_digit s = true -> brace_free s.
Proof.
  unfold brace_free. induction s as [|c s IH]; simpl; [reflexivity|].
  rewrite andb_true_iff. intros [Hc Hs]. rewrite (IH Hs), andb_true_r.
  unfold is_digit in Hc. apply andb_true_iff in Hc. destruct Hc as [H1 H2].
  apply Nat.leb_le in H1, H2. unfold is_brace.
  destruct (Ascii.eqb c "{") eqn:E1.
  { apply Ascii.eqb_eq in E1. subst c. cbv in H2. lia. }
  destruct (Ascii.eqb c "}") eqn:E2.
  { apply Ascii.eqb_eq in E2. subst c. cbv in H2. lia. }
  reflexivity.
Qed.

Lemma widget_core_brace_free n : brace_free (lit "widget-" ++ decimal n).
Proof.
  apply brace_free_app. split; [reflexivity|].
  apply digits_brace_free, decimal_digits.
Qed.

Lemma widget_token_inj a b : widget_token a = widget_token b -> a = b.
Proof.
  unfold widget_token. intro H.
  assert (H' : braced (lit "widget-" ++ decimal a) ++ [] =
               braced (lit "widget-" ++ decimal b) ++ []) by now rewrite H.
  apply braced_same_start in H'; try apply widget_core_brace_free.
  destruct H' as [H' _]. apply app_inv_head in H'. now apply decimal_inj.
Qed.

Lemma escape_text_digits_like s :
  forallb (fun c => negb (Ascii.eqb c "&" || Ascii.eqb c "<" || Ascii.eqb c ">"
                          || (ch c =? 160))) s = true ->
  escape_text s = s.
Proof.
  induction s as [|c s IH]; simpl; [reflexivity|].
  rewrite andb_true_iff, negb_true_iff, !orb_false_iff.
  intros [[[[H1 H2] H3] H4] Hs].
  unfold escape_text in *. simpl. rewrite (IH Hs).
  unfold escape_text_char. rewrite H1, H2, H3, H4. reflexivity.
Qed.

Lemma escape_text_widget_token n : escape_text (widget_token n) = widget_token n.
Proof.
  apply escape_text_digits_like.
  unfold widget_token, braced. rewrite !forallb_app.
  rewrite !andb_true_iff. repeat split; try reflexivity.
  pose proof (decimal_digits n) as H. revert H.
  generalize (decimal n) as s. induction s as [|c s IH]; simpl; [reflexivity|].
  rewrite !andb_true_iff. intros [Hc Hs]. split; [|now apply IH].
  unfold is_digit in Hc. apply andb_true_iff in Hc. destruct Hc as [H1 H2].
  apply Nat.leb_le in H1, H2. apply negb_true_iff. rewrite !orb_false_iff.
  repeat split.
  - destruct (Ascii.eqb c "&") eqn:E; [|reflexivity].
    apply Ascii.eqb_eq in E. subst c. cbv in H1. lia.
  - destruct (Ascii.eqb c "<") eqn:E; [|reflexivity].
    apply Ascii.eqb_eq in E. subst c. cbv in H2. lia.
  - destruct (Ascii.eqb c ">") eqn:E; [|reflexivity].
    apply Ascii.eqb_eq in E. subst c. cbv in H2. lia.
  - apply Nat.eqb_neq. lia.
Qed.

Lemma number_zeros k s :
  number (repeat "0"%char k ++ s) = number s.
Proof.
  unfold number. induction k as [|k IH]; [reflexivity|].
  cbn [repeat app string_of_list_ascii DecimalString.NilEmpty.uint_of_string].
  destruct (DecimalString.NilEmpty.uint_of_string (string_of_list_ascii (repeat "0"%char k ++ s)))
    as [d|] eqn:E;
    destruct (DecimalString.NilEmpty.uint_of_string (string_of_list_ascii s))
    as [d'|] eqn:E'; cbn in *; try discriminate; try reflexivity.
  - exact IH.
Qed.

Lemma number_decimal n : number (decimal n) = Some n.
Proof.
  unfold number, decimal, lit.
  rewrite string_of_list_ascii_of_string, DecimalString.NilEmpty.usu.
  cbn [option_map]. now rewrite DecimalNat.Unsigned.of_to.
Qed.

Lemma pad3_inj a b : pad3 a = pad3 b -> a = b.
Proof.
  intro H. assert (E : number (pad3 a) = number (pad3 b)) by now rewrite H.
  unfold pad3 in E. rewrite !number_zeros, !number_decimal in E.
  now inversion E.
Qed.

Lemma wigoh_id_inj a b : wigoh_id a = wigoh_id b -> a = b.
Proof.
  unfold wigoh_id. intro H. apply app_inv_head in H. now apply pad3_inj.
Qed.

(** ** Paths *)

(** ** Runs of white space *)

Lemma span_space_run w r :
  forallb is_space w = true ->
  match r with [] => True | c :: _ => is_space c = false end ->
  span_space (w ++ r) = (w, r).
Proof.
  intros Hw Hr. induction w as [|a w IH]; simpl.
  - destruct r as [|c r]; [reflexivity|]. simpl. now rewrite Hr.
  - simpl in Hw. apply andb_prop in Hw. destruct Hw as [Ha Hw].
    rewrite Ha, (IH Hw). reflexivity.
Qed.

Lemma trimStart_blank w r :
  forallb is_space w = true -> trimStart (w ++ r) = trimStart r.
Proof.
  intro Hw. induction w as [|a w IH]; [reflexivity|]. simpl in *.
  apply andb_prop in Hw. destruct Hw as [Ha Hw]. rewrite Ha. auto.
Qed.

Lemma trimEnd_blank w : forallb is_space w = true -> trimEnd w = [].
Proof.
  intro Hw. unfold trimEnd.
  assert (H : forallb is_space (rev w) = true).
  { rewrite forallb_forall in *. intros x Hx. apply Hw. now apply in_rev. }
  rewrite <- (app_nil_r (rev w)), (trimStart_blank _ [] H). reflexivity.
Qed.

Lemma trimEnd_solid x d y :
  is_space d = false -> trimEnd (x ++ d :: y) = x ++ d :: trimEnd y.
Proof.
  intro Hd. unfold trimEnd. rewrite rev_app_distr. cbn [rev].
  rewrite <- app_assoc. cbn [app].
  pose proof (trimStart_headed (rev y)) as Hb.
  destruct (trimStart_suffix (rev y)) as [ws [Hy Hws]].
  remember (trimStart (rev y)) as b eqn:Eb. clear Eb.
  rewrite Hy, <- app_assoc, (trimStart_blank _ _ Hws).
  assert (E : trimStart (b ++ d :: rev x) = b ++ d :: rev x).
  { apply trimStart_fixed. destruct b as [|c b']; cbn [app]; assumption. }
  rewrite E, rev_app_distr. cbn [rev]. rewrite rev_involutive, <- app_assoc.
  reflexivity.
Qed.

Lemma trim_blank_head a l : is_space a = true -> trim (a :: l) = trim l.
Proof. intro Ha. unfold trim. simpl. now rewrite Ha. Qed.

Lemma trim_solid_head c l :
  is_space c = false -> trim (c :: l) = c :: trimEnd l.
Proof.
  intro Hc. unfold trim. cbn [trimStart]. rewrite Hc.
  apply (trimEnd_solid [] c l Hc).
Qed.

Lemma trim_blank w : forallb is_space w = true -> trim w = [].
Proof.
  intro Hw. unfold trim. rewrite <- (app_nil_r w), (trimStart_blank _ [] Hw).
  reflexivity.
Qed.

Module PathFacts.

Lemma in_proper_prefixes q p :
  In q (proper_prefixes p) <-> q <> [] /\ exists r, r <> [] /\ p = q ++ r.
Proof.
  revert q. induction p as [|i p IH]; intros q; simpl.
  - split; [contradiction|]. intros [Hq [r [Hr H]]].
    destruct q; [contradiction | discriminate].
  - destruct p as [|j p'].
    + split; [contradiction|]. intros [Hq [r [Hr H]]].
      destruct q as [|a q]; [contradiction|].
      destruct q; destruct r; try contradiction; discriminate.
    + simpl In. rewrite in_map_iff. split.
      * intros [<- | [q' [<- Hq']]].
        -- split; [discriminate|]. exists (j :: p'). split; [discriminate | reflexivity].
        -- apply IH in Hq'. destruct Hq' as [Hq [r [Hr H]]].
           split; [discriminate|]. exists r. split; [exact Hr|].
           simpl. now rewrite H.
      * intros [Hq [r [Hr H]]]. destruct q as [|a q]; [contradiction|].
        simpl in H. inversion H; subst a.
        destruct q as [|b q]; [now left|]. right.
        exists (b :: q). split; [reflexivity|]. apply IH.
        split; [discriminate|]. exists r. split; [exact Hr | assumption].
Qed.

Lemma nth_error_set_nth_other {A} i j (f : A -> A) l :
  i <> j -> nth_error (set_nth i f l) j = nth_error l j.
Proof.
  revert i j. induction l as [|x l IH]; intros i j Hij; simpl.
  - reflexivity.
  - destruct i as [|i].
    + destruct j as [|j]; [contradiction | reflexivity].
    + destruct j as [|j]; [reflexivity|]. simpl. apply IH. lia.
Qed.

Lemma nth_error_set_nth_same {A} i (f : A -> A) l :
  nth_error (set_nth i f l) i = option_map f (nth_error l i).
Proof.
  revert i. induction l as [|x l IH]; intros i; simpl.
  - destruct i; reflexivity.
  - destruct i as [|i]; simpl; [reflexivity | apply IH].
Qed.

Lemma node_at_cons ns i j q :
  node_at ns (i :: j :: q)
  = match nth_error ns i with
    | Some (Element _ _ kids) => node_at kids (j :: q)
    | _ => None
    end.
Proof.
  cbn [node_at]. destruct (nth_error ns i) as [[d|d|d|name attribs kids]|];
    reflexivity.
Qed.

Lemma update_at_cons ns i a p x :
  update_at ns (i :: a :: p) x
  = set_nth i (fun n => match n with
                        | Element name at_ kids =>
                            Element name at_ (update_at kids (a :: p) x)
                        | _ => n
                        end) ns.
Proof. reflexivity. Qed.

(** Replacing a node leaves alone what is neither above nor below it. *)
Lemma node_at_update_other p :
  forall q ns x,
    ~ prefix_of p q -> ~ prefix_of q p ->
    node_at (update_at ns p x) q = node_at ns q.
Proof.
  induction p as [|i p IH]; intros q ns x Hpq Hqp.
  - exfalso. apply Hpq. exists q. reflexivity.
  - destruct q as [|j q].
    { exfalso. apply Hqp. exists (i :: p). reflexivity. }
    destruct (Nat.eq_dec i j) as [<- | Hij].
    + assert (Hpq' : ~ prefix_of p q).
      { intros [r Hr]. apply Hpq. exists r. simpl. now rewrite Hr. }
      assert (Hqp' : ~ prefix_of q p).
      { intros [r Hr]. apply Hqp. exists r. simpl. now rewrite Hr. }
      destruct p as [|a p].
      { exfalso. apply Hpq'. exists q. reflexivity. }
      destruct q as [|b q].
      { exfalso. apply Hqp'. exists (a :: p). reflexivity. }
      rewrite update_at_cons, !node_at_cons, nth_error_set_nth_same.
      destruct (nth_error ns i) as [[d|d|d|name attribs kids]|]; cbn [option_map];
        try reflexivity.
      apply IH; assumption.
    + cbn [node_at].
      assert (E : nth_error (update_at ns (i :: p) x) j = nth_error ns j).
      { cbn [update_at]. destruct p; now apply nth_error_set_nth_other. }
      now rewrite E.
Qed.


Lemma node_at_sub ns j k r :
  nth_error ns j = Some k -> node_at ns (j :: r) = sub_at k r.
Proof.
  intro H. cbn [node_at]. rewrite H. destruct r; reflexivity.
Qed.

Lemma each_indexed_in {A} (f : nat -> node -> list A) ks :
  forall i0 x,
    In x (each_indexed f i0 ks) ->
    exists j k, nth_error ks j = Some k /\ In x (f (i0 + j) k).
Proof.
  induction ks as [|k ks IH]; intros i0 x H; simpl in H; [contradiction|].
  apply in_app_or in H. destruct H as [H | H].
  - exists 0, k. rewrite Nat.add_0_r. auto.
  - destruct (IH _ _ H) as [j [k' [Hj Hin]]].
    exists (S j), k'. split; [exact Hj|].
    now replace (i0 + S j) with (S i0 + j) by lia.
Qed.

Lemma paths_in_spec pr n :
  forall here p,
    In p (paths_in pr here n) ->
    exists r m, p = here ++ r /\ sub_at n r = Some m /\ pr m = true.
Proof.
  assert (Hself : forall m here p,
             In p (if pr m then [here] else []) ->
             exists r m', p = here ++ r /\ sub_at m r = Some m' /\ pr m' = true).
  { intros m here p H. destruct (pr m) eqn:E; [|contradiction].
    destruct H as [<- | []]. exists [], m. rewrite app_nil_r. auto. }
  induction n as [d|d|d|name attribs kids IH] using node_induction;
    intros here p H; cbn [paths_in] in H.
  - rewrite app_nil_r in H. now apply Hself.
  - rewrite app_nil_r in H. now apply Hself.
  - rewrite app_nil_r in H. now apply Hself.
  - apply in_app_or in H. destruct H as [H | H]; [now apply Hself|].
    apply each_indexed_in in H. destruct H as [j [k [Hj Hin]]].
    rewrite Forall_forall in IH.
    destruct (IH k (nth_error_In _ _ Hj) _ _ Hin) as [r [m [Hp [Hsub Hm]]]].
    exists (j :: r), m. split; [now rewrite Hp, <- app_assoc|].
    split; [|exact Hm].
    change (sub_at (Element name attribs kids) (j :: r)) with (node_at kids (j :: r)).
    now rewrite (node_at_sub kids j k r Hj).
Qed.

Lemma select_paths_spec pr doc p :
  In p (select_paths pr doc) ->
  exists m, node_at doc p = Some m /\ pr m = true.
Proof.
  unfold select_paths. intro H.
  apply each_indexed_in in H. destruct H as [j [k [Hj Hin]]].
  cbn [Nat.add] in Hin.
  apply paths_in_spec in Hin. destruct Hin as [r [m [Hp [Hsub Hm]]]].
  exists m. split; [|exact Hm]. subst p. change ([j] ++ r) with (j :: r).
  now rewrite (node_at_sub doc j k r Hj).
Qed.

Lemma each_indexed_nodup {A} (f : nat -> node -> list A) ks :
  (forall i k, In k ks -> NoDup (f i k)) ->
  (forall i j k1 k2 x, i <> j -> In x (f i k1) -> In x (f j k2) -> False) ->
  forall i0, NoDup (each_indexed f i0 ks).
Proof.
  intros Hnd Hdis. induction ks as [|k ks IH]; intros i0; simpl.
  - constructor.
  - apply NoDup_app.
    + apply Hnd. now left.
    + apply IH. intros i k' Hk'. apply Hnd. now right.
    + intros x Hx Hx'. apply each_indexed_in in Hx'.
      destruct Hx' as [j [k' [_ Hin]]].
      apply (Hdis i0 (S i0 + j) k k' x); [lia | exact Hx | exact Hin].
Qed.

Lemma paths_in_nodup pr n : forall here, NoDup (paths_in pr here n).
Proof.
  assert (Hself : forall (b : bool) (here : path), NoDup (if b then [here] else [])).
  { intros [|] here; repeat constructor. intros []. }
  induction n as [d|d|d|name attribs kids IH] using node_induction;
    intros here; cbn [paths_in]; try (rewrite app_nil_r; apply Hself).
  apply NoDup_app.
  - apply Hself.
  - apply each_indexed_nodup.
    + intros i k Hk. rewrite Forall_forall in IH. now apply IH.
    + intros i j k1 k2 x Hij H1 H2.
      apply paths_in_spec in H1. destruct H1 as [r1 [_ [H1 _]]].
      apply paths_in_spec in H2. destruct H2 as [r2 [_ [H2 _]]].
      rewrite H1, <- !app_assoc in H2. apply app_inv_head in H2.
      inversion H2. contradiction.
  - intros x Hx Hx'.
    destruct (pr _); [|contradiction]. destruct Hx as [<- | []].
    apply each_indexed_in in Hx'. destruct Hx' as [j [k [_ Hin]]].
    apply paths_in_spec in Hin. destruct Hin as [r [_ [Hp _]]].
    rewrite <- app_assoc in Hp. rewrite <- (app_nil_r here) in Hp at 1.
    apply app_inv_head in Hp. discriminate.
Qed.

Lemma select_paths_nodup pr doc : NoDup (select_paths pr doc).
Proof.
  unfold select_paths. apply each_indexed_nodup.
  - intros i k _. apply paths_in_nodup.
  - intros i j k1 k2 x Hij H1 H2.
    apply paths_in_spec in H1. destruct H1 as [r1 [_ [H1 _]]].
    apply paths_in_spec in H2. destruct H2 as [r2 [_ [H2 _]]].
    rewrite H1 in H2. inversion H2. contradiction.
Qed.

(** *** A node is printed inside the markup of its ancestors *)

Lemma serialize_element raw m :
  is_element m = true -> serialize_node raw m = outerHTML m.
Proof. destruct m; try discriminate. reflexivity. Qed.




(** *** Every selected node has its path *)

Lemma each_indexed_intro {A} (f : nat -> node -> list A) ks :
  forall i0 j k x,
    nth_error ks j = Some k -> In x (f (i0 + j) k) ->
    In x (each_indexed f i0 ks).
Proof.
  induction ks as [|k0 ks IH]; intros i0 j k x Hj Hx; [destruct j; discriminate|].
  simpl. apply in_or_app. destruct j as [|j].
  - inversion Hj; subst k0. rewrite Nat.add_0_r in Hx. now left.
  - right. apply (IH (S i0) j k x Hj).
    now replace (S i0 + j) with (i0 + S j) by lia.
Qed.

Lemma paths_in_complete pr n :
  forall here r m,
    sub_at n r = Some m -> pr m = true -> In (here ++ r) (paths_in pr here n).
Proof.
  induction n as [d|d|d|name attribs kids IH] using node_induction;
    intros here r m Hsub Hm;
    try (destruct r; [|discriminate]; inversion Hsub; subst m;
         cbn [paths_in]; rewrite Hm, app_nil_r; now left).
  cbn [paths_in]. apply in_or_app. destruct r as [|j r].
  - left. inversion Hsub; subst m. rewrite Hm, app_nil_r. now left.
  - right. change (sub_at (Element name attribs kids) (j :: r))
      with (node_at kids (j :: r)) in Hsub.
    destruct (nth_error kids j) as [k|] eqn:Hj;
      [|cbn [node_at] in Hsub; rewrite Hj in Hsub; discriminate].
    rewrite (node_at_sub kids j k r Hj) in Hsub.
    apply (each_indexed_intro _ kids 0 j k _ Hj). cbn [Nat.add].
    rewrite Forall_forall in IH.
    replace (here ++ j :: r) with ((here ++ [j]) ++ r)
      by now rewrite <- app_assoc.
    apply (IH k (nth_error_In _ _ Hj) _ r m Hsub Hm).
Qed.

Lemma select_paths_complete pr doc p m :
  node_at doc p = Some m -> pr m = true -> In p (select_paths pr doc).
Proof.
  intros Hnode Hm. destruct p as [|j r]; [discriminate|].
  destruct (nth_error doc j) as [k|] eqn:Hj;
    [|cbn [node_at] in Hnode; rewrite Hj in Hnode; discriminate].
  rewrite (node_at_sub doc j k r Hj) in Hnode.
  unfold select_paths. apply (each_indexed_intro _ doc 0 j k _ Hj).
  cbn [Nat.add]. apply (paths_in_complete pr k [j] r m Hnode Hm).
Qed.

(** A text put at [p]: the sections that are left were there before, and
    none is at [p] or below it. *)
Lemma section_after_text p :
  forall ns q text,
    p <> [] ->
    is_section_at (update_at ns p (Text text)) q = true ->
    is_section_at ns q = true /\ ~ prefix_of p q.
Proof.
  unfold is_section_at.
  induction p as [|i p IH]; intros ns q text Hp H; [contradiction|].
  destruct q as [|j q]; [discriminate|].
  destruct (Nat.eq_dec i j) as [<- | Hij].
  - destruct p as [|a p].
    + exfalso. cbn [update_at node_at] in H.
      rewrite nth_error_set_nth_same in H.
      destruct (nth_error ns i); cbn [option_map] in H; [|discriminate].
      destruct q; discriminate.
    + rewrite update_at_cons in H. cbn [node_at] in H.
      rewrite nth_error_set_nth_same in H. cbn [node_at].
      destruct (nth_error ns i) as [[d|d|d|name attribs kids]|];
        cbn [option_map] in H; try discriminate;
        try (destruct q; discriminate).
      destruct q as [|b q].
      * split; [exact H|]. intros [r Hr]. discriminate.
      * destruct (IH kids (b :: q) text) as [H1 H2]; [discriminate | exact H|].
        split; [exact H1|]. intros [r Hr]. apply H2. exists r.
        now inversion Hr.
  - split.
    + cbn [node_at] in *.
      assert (E : nth_error (update_at ns (i :: p) (Text text)) j
                  = nth_error ns j).
      { cbn [update_at]. destruct p; now apply nth_error_set_nth_other. }
      now rewrite E in H.
    + intros [r Hr]. cbn [app] in Hr. congruence.
Qed.

Lemma forallb_false {A} (f : A -> bool) l :
  forallb f l = false -> exists x, In x l /\ f x = false.
Proof.
  induction l as [|y l IH]; [discriminate|].
  cbn [forallb]. intro H. apply andb_false_iff in H. destruct H as [H | H].
  - exists y. split; [now left | exact H].
  - destruct (IH H) as [x [Hx Hf]]. exists x. split; [now right | exact Hf].
Qed.

(** Above a section there is a top-level one, or it is top-level itself. *)
Lemma topmost_section doc0 :
  forall n q,
    List.length q <= n -> is_section_at doc0 q = true ->
    exists pk, prefix_of pk q /\ is_section_at doc0 pk = true /\
               top_level doc0 pk = true.
Proof.
  induction n as [|n IH]; intros q Hlen Hs.
  - destruct q; [discriminate | simpl in Hlen; lia].
  - destruct (top_level doc0 q) eqn:Et.
    + exists q. split; [exists []; now rewrite app_nil_r | auto].
    + unfold top_level in Et. apply forallb_false in Et.
      destruct Et as [q' [Hq' Hn]]. apply negb_false_iff in Hn.
      apply in_proper_prefixes in Hq'. destruct Hq' as [Hne [r [Hr Hq]]].
      assert (Hl : List.length q' <= n).
      { rewrite Hq, length_app in Hlen. destruct r; [contradiction|].
        simpl in Hlen. lia. }
      destruct (IH q' Hl Hn) as [pk [[r' Hpk] [H1 H2]]].
      exists pk. split; [|auto]. exists (r' ++ r). now rewrite Hq, Hpk, app_assoc.
Qed.

Lemma anywhere_path pr n :
  anywhere pr n = true -> exists r m, sub_at n r = Some m /\ pr m = true.
Proof.
  induction n as [d|d|d|name attribs kids IH] using node_induction;
    cbn [anywhere]; intro H;
    try (rewrite orb_false_r in H; eexists [], _; split; [reflexivity | exact H]).
  apply orb_true_iff in H. destruct H as [H | H].
  - eexists [], _. split; [reflexivity | exact H].
  - apply existsb_exists in H. destruct H as [k [Hk Ha]].
    rewrite Forall_forall in IH. destruct (IH k Hk Ha) as [r [m [Hsub Hm]]].
    apply In_nth_error in Hk. destruct Hk as [j Hj].
    exists (j :: r), m. split; [|exact Hm].
    change (sub_at (Element name attribs kids) (j :: r))
      with (node_at kids (j :: r)).
    now rewrite (node_at_sub kids j k r Hj).
Qed.

Lemma present_path pr doc :
  present pr doc = true -> exists q m, node_at doc q = Some m /\ pr m = true.
Proof.
  unfold present. intro H. apply existsb_exists in H.
  destruct H as [k [Hk Ha]]. apply anywhere_path in Ha.
  destruct Ha as [r [m [Hsub Hm]]].
  apply In_nth_error in Hk. destruct Hk as [j Hj].
  exists (j :: r), m. split; [|exact Hm].
  now rewrite (node_at_sub doc j k r Hj).
Qed.

End PathFacts.

(** ** HtmlStyleProcessorService *)

Module StyleFacts.
Import StyleProcessor PathFacts.

(** *** No entry of the flattened description is a script *)

Lemma fold_flatten_clean ds :
  Forall (fun d => forall acc, Forall script_free acc ->
                               Forall script_free (flattenElements d acc)) ds ->
  forall acc, Forall script_free acc ->
              Forall script_free (fold_left (fun acc d => flattenElements d acc) ds acc).
Proof.
  induction 1 as [|d ds Hd _ IH]; intros acc Hacc; simpl; auto.
Qed.

Lemma flattenElements_clean d :
  forall acc, Forall script_free acc -> Forall script_free (flattenElements d acc).
Proof.
  induction d as [items IH | tag id className html styles children IH |]
    using layout_induction; intros acc Hacc; cbn [flattenElements].
  - now apply fold_flatten_clean.
  - assert (Hdesc : forall acc', Forall script_free acc' ->
              Forall script_free
                (match children with
                 | Some cs => fold_left (fun acc d => flattenElements d acc) cs acc'
                 | None => acc'
                 end)).
    { intros acc' Hacc'. destruct children as [cs|]; [|exact Hacc'].
      now apply fold_flatten_clean. }
    destruct styles as [st|]; [|now apply Hdesc].
    destruct (tag_is_script tag) eqn:Et; [exact Hacc|].
    destruct (html_has_script html) eqn:Eh; [exact Hacc|].
    apply Hdesc. apply Forall_app. split; [exact Hacc|].
    constructor; [|constructor]. split; assumption.
  - exact Hacc.
Qed.

(** *** The elements of the loop are no scripts *)

Lemma qualifying_spec n :
  forall inBody here p,
    In p (qualifying inBody here n) ->
    exists r name attribs kids,
      p = here ++ r /\ sub_at n r = Some (Element name attribs kids) /\
      mem (toLowerCase name) excludedTags = false.
Proof.
  induction n as [d|d|d|name attribs kids IH] using node_induction;
    intros inBody here p H; cbn [qualifying] in H; try contradiction.
  apply in_app_or in H. destruct H as [H | H].
  - destruct (mem (toLowerCase name) excludedTags) eqn:E; [contradiction|].
    destruct (inBody || _); [|contradiction].
    destruct H as [<- | []]. exists [], name, attribs, kids.
    rewrite app_nil_r. auto.
  - apply each_indexed_in in H. destruct H as [j [k [Hj Hin]]].
    rewrite Forall_forall in IH.
    destruct (IH k (nth_error_In _ _ Hj) _ _ _ Hin)
      as [r [nm [a [ks [Hp [Hsub Hm]]]]]].
    exists (j :: r), nm, a, ks. split; [now rewrite Hp, <- app_assoc|].
    split; [|exact Hm].
    change (sub_at (Element name attribs kids) (j :: r)) with (node_at kids (j :: r)).
    now rewrite (node_at_sub kids j k r Hj).
Qed.

Lemma allHtmlElements_spec doc p :
  In p (allHtmlElements doc) ->
  exists name, name_at doc p = Some name /\
               mem (toLowerCase name) excludedTags = false.
Proof.
  unfold allHtmlElements. intro H.
  apply each_indexed_in in H. destruct H as [j [k [Hj Hin]]].
  cbn [Nat.add] in Hin.
  apply qualifying_spec in Hin. destruct Hin as [r [nm [a [ks [Hp [Hsub Hm]]]]]].
  exists nm. split; [|exact Hm]. subst p. change ([j] ++ r) with (j :: r).
  unfold name_at. now rewrite (node_at_sub doc j k r Hj), Hsub.
Qed.

(** Setting an attribute changes no name. *)
Lemma name_at_update p :
  forall ns q name attribs attribs' kids,
    node_at ns p = Some (Element name attribs kids) ->
    name_at (update_at ns p (Element name attribs' kids)) q = name_at ns q.
Proof.
  induction p as [|i p IH]; intros ns q name attribs attribs' kids Hnode;
    [discriminate|].
  destruct q as [|j q]; [reflexivity|].
  destruct (Nat.eq_dec i j) as [<- | Hij].
  - destruct p as [|a p].
    + cbn [node_at] in Hnode. unfold name_at. cbn [update_at node_at].
      rewrite nth_error_set_nth_same.
      destruct (nth_error ns i) as [n|]; [|discriminate].
      inversion Hnode; subst n. cbn [option_map]. destruct q; reflexivity.
    + rewrite node_at_cons in Hnode. unfold name_at.
      rewrite update_at_cons. cbn [node_at]. rewrite nth_error_set_nth_same.
      destruct (nth_error ns i) as [[d|d|d|nm at_ ks]|]; try discriminate.
      cbn [option_map]. destruct q as [|b q]; [reflexivity|].
      apply (IH ks (b :: q) name attribs attribs' kids Hnode).
  - unfold name_at. cbn [node_at].
    assert (E : nth_error (update_at ns (i :: p) (Element name attribs' kids)) j
                = nth_error ns j).
    { cbn [update_at]. destruct p; now apply nth_error_set_nth_other. }
    now rewrite E.
Qed.

(** *** The counters of the main loop *)

Lemma skipn_entry {A} (l : list A) i x :
  nth_error l i = Some x -> skipn i l = x :: skipn (S i) l.
Proof.
  revert i. induction l as [|y l IH]; intros [|i] H; try discriminate.
  - now inversion H.
  - cbn [skipn]. now apply IH.
Qed.


Lemma style_loop_thrown entries ps :
  forall i st, style_loop entries i ps (Thrown st) = Thrown st.
Proof.
  unfold style_loop. induction ps as [|p ps IH]; intros i st; [reflexivity|].
  cbn [List.length seq combine fold_left style_step]. apply IH.
Qed.

Lemma style_loop_cons entries i p ps pr :
  style_loop entries i (p :: ps) pr
  = style_loop entries (S i) ps (style_step entries pr (i, p)).
Proof. reflexivity. Qed.

Section MainLoop.

Variable doc0 : forest.
Variable entries : list JsonStyleEntry.
Hypothesis entries_clean : Forall script_free entries.

Local Abbreviation same_names := (StyleProcessor.same_names doc0).
Local Abbreviation qualifies := (StyleProcessor.qualifies doc0).

Lemma not_script name :
  mem (toLowerCase name) excludedTags = false ->
  str_eqb (toLowerCase name) "script" = false.
Proof.
  unfold mem, excludedTags. cbn [map existsb]. intro H.
  rewrite !orb_false_iff in H. tauto.
Qed.

(** The turn of an entry whose styles hide the method: the line of the
    matching is written, then the exception leaves the loop. *)
Lemma style_step_throws i p st e :
  qualifies p -> same_names st ->
  nth_error entries i = Some e -> quiet e = false ->
  style_step entries (Running st) (i, p)
  = Thrown (count (fun st => st) (Index_matching i) st).
Proof.
  intros [name [Hname Hex]] Hsame He Hq. unfold style_step.
  pose proof (Hsame p) as Hp. rewrite Hname in Hp. unfold name_at in Hp.
  destruct (node_at (page st) p) as [[d|d|d|nm attribs kids]|] eqn:Hnode;
    try discriminate.
  inversion Hp; subst nm. rewrite (not_script name Hex), He.
  rewrite Forall_forall in entries_clean.
  destruct (entries_clean e (nth_error_In _ _ He)) as [Ht Hh].
  rewrite Ht, Hh. unfold inlineStyleString.
  unfold quiet in Hq. apply negb_false_iff in Hq. now rewrite Hq.
Qed.

(** Any other turn: it keeps the names, skips nothing, and counts a match
    when the description has an entry at the index, a mismatch when not. *)
Lemma style_step_counts i p st :
  qualifies p -> same_names st ->
  match nth_error entries i with
  | Some e => quiet e = true
  | None => True
  end ->
  exists st',
    style_step entries (Running st) (i, p) = Running st'
    /\ same_names st'
    /\ skippedScriptElements st' = skippedScriptElements st
    /\ List.length (outcomes st') = S (List.length (outcomes st))
    /\ (if i <? List.length entries
        then totalMatches st' = S (totalMatches st)
             /\ indexMismatches st' = indexMismatches st
             /\ attempts (outcomes st') = S (attempts (outcomes st))
        else totalMatches st' = totalMatches st
             /\ indexMismatches st' = S (indexMismatches st)
             /\ attempts (outcomes st') = attempts (outcomes st)).
Proof.
  intros [name [Hname Hex]] Hsame Hquiet. unfold style_step.
  pose proof (Hsame p) as Hp. rewrite Hname in Hp. unfold name_at in Hp.
  destruct (node_at (page st) p) as [[d|d|d|nm attribs kids]|] eqn:Hnode;
    try discriminate.
  inversion Hp; subst nm. rewrite (not_script name Hex).
  destruct (nth_error entries i) as [e|] eqn:He.
  - assert (Hlt : (i <? List.length entries) = true).
    { apply Nat.ltb_lt. apply nth_error_Some. congruence. }
    rewrite Hlt.
    rewrite Forall_forall in entries_clean.
    destruct (entries_clean e (nth_error_In _ _ He)) as [Ht Hh].
    rewrite Ht, Hh. unfold inlineStyleString.
    unfold quiet in Hquiet. apply negb_true_iff in Hquiet. rewrite Hquiet.
    eexists. split; [reflexivity|]. unfold count, matched, attempts.
    cbn [page totalMatches skippedScriptElements indexMismatches outcomes].
    rewrite filter_app, !length_app. simpl. repeat split; try lia.
    intro q. unfold same_names in Hsame. cbn [page].
    destruct (trim _); [apply Hsame|].
    rewrite (name_at_update p (page st) q name attribs _ kids Hnode).
    apply Hsame.
  - assert (Hge : (i <? List.length entries) = false).
    { apply Nat.ltb_ge. now apply nth_error_None. }
    rewrite Hge. eexists. split; [reflexivity|]. unfold count, mismatch, attempts.
    cbn [page totalMatches skippedScriptElements indexMismatches outcomes].
    rewrite filter_app, !length_app. simpl. repeat split; try lia.
    exact Hsame.
Qed.


End MainLoop.





(** *** The flattened description *)

Lemma fold_flatten_numbers ds :
  Forall (fun d => forall acc,
              map jsonIndex acc = seq 0 (List.length acc) ->
              map jsonIndex (flattenElements d acc)
              = seq 0 (List.length (flattenElements d acc))) ds ->
  forall acc,
    map jsonIndex acc = seq 0 (List.length acc) ->
    map jsonIndex (fold_left (fun acc d => flattenElements d acc) ds acc)
    = seq 0 (List.length (fold_left (fun acc d => flattenElements d acc) ds acc)).
Proof.
  induction 1 as [|d ds Hd _ IH]; intros acc Hacc; simpl; auto.
Qed.

Lemma flattenElements_numbers d :
  forall acc,
    map jsonIndex acc = seq 0 (List.length acc) ->
    map jsonIndex (flattenElements d acc)
    = seq 0 (List.length (flattenElements d acc)).
Proof.
  induction d as [items IH | tag id className html styles children IH |]
    using layout_induction; intros acc Hacc; cbn [flattenElements].
  - now apply fold_flatten_numbers.
  - assert (Hdesc : forall acc',
              map jsonIndex acc' = seq 0 (List.length acc') ->
              map jsonIndex
                (match children with
                 | Some cs => fold_left (fun acc d => flattenElements d acc) cs acc'
                 | None => acc'
                 end)
              = seq 0 (List.length
                         (match children with
                          | Some cs =>
                              fold_left (fun acc d => flattenElements d acc) cs acc'
                          | None => acc'
                          end))).
    { intros acc' Hacc'. destruct children as [cs|]; [|exact Hacc'].
      now apply fold_flatten_numbers. }
    destruct styles as [st|]; [|now apply Hdesc].
    destruct (tag_is_script tag); [exact Hacc|].
    destruct (html_has_script html); [exact Hacc|].
    apply Hdesc. rewrite map_app, length_app, Hacc. simpl.
    rewrite Nat.add_1_r, seq_S. reflexivity.
  - exact Hacc.
Qed.

(** X1. The flattened description: the entry at the place [i] carries
    [jsonIndex = i], and no entry is a script. *)
Theorem flattened_entries_carry_their_position :
  forall layoutJson,
    map jsonIndex (flattenElements layoutJson [])
    = seq 0 (List.length (flattenElements layoutJson []))
    /\ Forall script_free (flattenElements layoutJson []).
Proof.
  intro layoutJson. split.
  - now apply flattenElements_numbers.
  - apply flattenElements_clean. constructor.
Qed.

(** *** The stats of every run *)


(** *** The elements of the loop *)

Lemma qualifying_iff n :
  forall inBody here p,
    In p (qualifying inBody here n) <->
    exists r name,
      p = here ++ r /\ sub_name n r = Some name /\
      mem (toLowerCase name) excludedTags = false /\
      (inBody = true \/
       exists r1 r2 nm, r = r1 ++ r2 /\ sub_name n r1 = Some nm /\
                        toLowerCase nm = lit "body").
Proof.
  induction n as [d|d|d|name attribs kids IH] using node_induction;
    intros inBody here p;
    try (cbn [qualifying]; split; [contradiction|];
         intros [r [nm [_ [H _]]]]; unfold sub_name in H;
         destruct r; discriminate).
  rewrite Forall_forall in IH. cbn [qualifying]. rewrite in_app_iff. split.
  - intros [H | H].
    + destruct (mem (toLowerCase name) excludedTags) eqn:E; [contradiction|].
      cbn [negb andb] in H.
      destruct (inBody || str_eqb (toLowerCase name) "body") eqn:B;
        [|contradiction].
      destruct H as [<- | []]. exists [], name. rewrite app_nil_r.
      repeat split; auto.
      apply orb_true_iff in B. destruct B as [B | B]; [now left|].
      right. apply str_eqb_eq in B. exists [], [], name. auto.
    + apply each_indexed_in in H. destruct H as [j [k [Hj Hin]]].
      apply (IH k (nth_error_In _ _ Hj)) in Hin.
      destruct Hin as [r [nm [Hp [Hsub [Hm Hb]]]]].
      exists (j :: r), nm. split; [now rewrite Hp, <- app_assoc|].
      assert (Hdown : forall r', sub_name (Element name attribs kids) (j :: r')
                                 = sub_name k r').
      { intro r'. unfold sub_name.
        change (sub_at (Element name attribs kids) (j :: r'))
          with (node_at kids (j :: r')).
        now rewrite (node_at_sub kids j k r' Hj). }
      split; [now rewrite Hdown|]. split; [exact Hm|].
      destruct Hb as [Hb | [r1 [r2 [nb [Hr [Hn Hbody]]]]]].
      * apply orb_true_iff in Hb. destruct Hb as [Hb | Hb]; [now left|].
        right. apply str_eqb_eq in Hb. exists [], (j :: r), name. auto.
      * right. exists (j :: r1), r2, nb. rewrite Hdown, Hr. auto.
  - intros [r [nm [Hp [Hsub [Hm Hb]]]]]. destruct r as [|j r].
    + left. unfold sub_name in Hsub. cbn [sub_at] in Hsub.
      inversion Hsub; subst nm. rewrite Hm. cbn [negb andb].
      rewrite app_nil_r in Hp. subst p.
      assert (B : inBody || str_eqb (toLowerCase name) "body" = true).
      { destruct Hb as [-> | [r1 [r2 [nb [Hr [Hn Hbody]]]]]]; [reflexivity|].
        destruct r1; [|discriminate]. unfold sub_name in Hn. cbn [sub_at] in Hn.
        inversion Hn; subst nb. rewrite Hbody.
        change (str_eqb (lit "body") (lit "body")) with true.
        apply orb_true_r. }
      rewrite B. now left.
    + right. unfold sub_name in Hsub.
      change (sub_at (Element name attribs kids) (j :: r))
        with (node_at kids (j :: r)) in Hsub.
      destruct (nth_error kids j) as [k|] eqn:Hj;
        [|cbn [node_at] in Hsub; rewrite Hj in Hsub; discriminate].
      assert (Hdown : forall r', sub_name (Element name attribs kids) (j :: r')
                                 = sub_name k r').
      { intro r'. unfold sub_name.
        change (sub_at (Element name attribs kids) (j :: r'))
          with (node_at kids (j :: r')).
        now rewrite (node_at_sub kids j k r' Hj). }
      rewrite (node_at_sub kids j k r Hj) in Hsub.
      apply (each_indexed_intro _ kids 0 j k p Hj). cbn [Nat.add].
      apply (IH k (nth_error_In _ _ Hj)).
      exists r, nm. split; [now rewrite Hp, <- app_assoc|].
      split; [exact Hsub|]. split; [exact Hm|].
      destruct Hb as [-> | [r1 [r2 [nb [Hr [Hn Hbody]]]]]]; [now left|].
      destruct r1 as [|j1 r1].
      * left. unfold sub_name in Hn. cbn [sub_at] in Hn.
        inversion Hn; subst nb. rewrite Hbody.
        change (str_eqb (lit "body") (lit "body")) with true.
        apply orb_true_r.
      * right. cbn [app] in Hr. inversion Hr; subst j1 r.
        exists r1, r2, nb. rewrite <- Hdown. auto.
Qed.

(** X3. The elements of the loop: an element is visited exactly when its tag is
    none of the excluded ones and it is the [body] or has a [body] above
    it. *)
Theorem loop_visits_the_elements_of_the_body :
  forall document p,
    In p (allHtmlElements document) <->
    (exists name, name_at document p = Some name /\
                  mem (toLowerCase name) excludedTags = false)
    /\ inside_body document p.
Proof.
  intros document p. unfold allHtmlElements, inside_body. split.
  - intro H. apply each_indexed_in in H. destruct H as [j [k [Hj Hin]]].
    cbn [Nat.add] in Hin. apply qualifying_iff in Hin.
    destruct Hin as [r [nm [Hp [Hsub [Hm Hb]]]]].
    assert (Hdown : forall r', name_at document (j :: r') = sub_name k r').
    { intro r'. unfold name_at, sub_name.
      now rewrite (node_at_sub document j k r' Hj). }
    subst p. change ([j] ++ r) with (j :: r). split.
    + exists nm. rewrite Hdown. auto.
    + destruct Hb as [Hb | [r1 [r2 [nb [Hr [Hn Hbody]]]]]]; [discriminate|].
      exists (j :: r1), r2, nb. rewrite Hdown, Hr. auto.
  - intros [[nm [Hname Hm]] [q [r [nb [Hp [Hq Hbody]]]]]].
    destruct q as [|j q]; [discriminate|].
    unfold name_at in Hq.
    destruct (nth_error document j) as [k|] eqn:Hj;
      [|cbn [node_at] in Hq; rewrite Hj in Hq; discriminate].
    assert (Hdown : forall r', name_at document (j :: r') = sub_name k r').
    { intro r'. unfold name_at, sub_name.
      now rewrite (node_at_sub document j k r' Hj). }
    apply (each_indexed_intro _ document 0 j k p Hj). cbn [Nat.add].
    apply qualifying_iff. subst p. exists (q ++ r), nm.
    split; [reflexivity|]. cbn [app] in Hname. rewrite Hdown in Hname.
    split; [exact Hname|]. split; [exact Hm|].
    right. exists q, r, nb. rewrite <- Hdown. auto.
Qed.

Lemma loop_visits_witness : In [0; 1; 0] (allHtmlElements styled_page).
Proof.
  apply (proj2 (loop_visits_the_elements_of_the_body styled_page [0; 1; 0])).
  split.
  - exists (lit "div"). split; reflexivity.
  - exists [0; 1], [0], (lit "body"). repeat split; reflexivity.
Defined.

(** X4. No element of the loop is a script: [getElementHtmlString] has a string
    for each of them, never [null]. *)
Theorem loop_never_meets_a_script :
  forall document,
    Forall (fun p => exists element s,
                node_at document p = Some element /\
                getElementHtmlString element = Some s)
           (allHtmlElements document).
Proof.
  intro document. apply Forall_forall. intros p Hp.
  apply allHtmlElements_spec in Hp. destruct Hp as [name [Hname Hex]].
  unfold name_at in Hname.
  destruct (node_at document p) as [[d|d|d|nm attribs kids]|]; try discriminate.
  inversion Hname; subst nm.
  eexists _, _. split; [reflexivity|].
  unfold getElementHtmlString. rewrite (not_script name Hex). reflexivity.
Qed.

(** *** Styles go by position *)

Lemma attribs_at_update_same p :
  forall ns name attribs attribs' kids,
    node_at ns p = Some (Element name attribs kids) ->
    attribs_at (update_at ns p (Element name attribs' kids)) p = Some attribs'.
Proof.
  induction p as [|i p IH]; intros ns name attribs attribs' kids Hnode;
    [discriminate|].
  destruct p as [|a p].
  - cbn [node_at] in Hnode. unfold attribs_at. cbn [update_at node_at].
    rewrite nth_error_set_nth_same.
    destruct (nth_error ns i) as [n|]; [|discriminate]. reflexivity.
  - rewrite node_at_cons in Hnode. unfold attribs_at.
    rewrite update_at_cons, node_at_cons, nth_error_set_nth_same.
    destruct (nth_error ns i) as [[d|d|d|nm at_ ks]|]; try discriminate.
    cbn [option_map]. apply (IH ks name attribs attribs' kids Hnode).
Qed.

Lemma attribs_at_update_other p :
  forall ns q name attribs attribs' kids,
    node_at ns p = Some (Element name attribs kids) -> q <> p ->
    attribs_at (update_at ns p (Element name attribs' kids)) q = attribs_at ns q.
Proof.
  induction p as [|i p IH]; intros ns q name attribs attribs' kids Hnode Hqp;
    [discriminate|].
  destruct q as [|j q]; [reflexivity|].
  destruct (Nat.eq_dec i j) as [<- | Hij].
  - destruct p as [|a p].
    + cbn [node_at] in Hnode. unfold attribs_at. cbn [update_at node_at].
      rewrite nth_error_set_nth_same.
      destruct (nth_error ns i) as [n|]; [|discriminate].
      inversion Hnode; subst n. cbn [option_map].
      destruct q; [contradiction | reflexivity].
    + rewrite node_at_cons in Hnode. unfold attribs_at.
      rewrite update_at_cons. cbn [node_at]. rewrite nth_error_set_nth_same.
      destruct (nth_error ns i) as [[d|d|d|nm at_ ks]|]; try discriminate.
      cbn [option_map]. destruct q as [|b q]; [reflexivity|].
      apply (IH ks (b :: q) name attribs attribs' kids Hnode).
      intro E. apply Hqp. now rewrite E.
  - unfold attribs_at. cbn [node_at].
    assert (E : nth_error (update_at ns (i :: p) (Element name attribs' kids)) j
                = nth_error ns j).
    { cbn [update_at]. destruct p; now apply nth_error_set_nth_other. }
    now rewrite E.
Qed.

Lemma with_styles_hidden e attribs :
  quiet e = false -> with_styles e attribs = attribs.
Proof.
  unfold quiet, with_styles, inlineStyleString. intro H.
  apply negb_false_iff in H. now rewrite H.
Qed.

Section Positions.

Variable doc0 : forest.
Variable entries : list JsonStyleEntry.
Hypothesis entries_clean : Forall script_free entries.

(** One turn writes the attributes of its own element only, and nothing
    when it throws. *)
Lemma style_step_attribs i p st :
  qualifies doc0 p -> same_names doc0 st ->
  attribs_at (page (state_of (style_step entries (Running st) (i, p)))) p
  = match nth_error entries i with
    | Some e => option_map (with_styles e) (attribs_at (page st) p)
    | None => attribs_at (page st) p
    end
  /\ forall q, q <> p ->
               attribs_at (page (state_of (style_step entries (Running st) (i, p)))) q
               = attribs_at (page st) q.
Proof.
  intros [name [Hname Hex]] Hsame. unfold style_step.
  pose proof (Hsame p) as Hp. rewrite Hname in Hp. unfold name_at in Hp.
  unfold attribs_at at 2 4.
  destruct (node_at (page st) p) as [[d|d|d|nm attribs kids]|] eqn:Hnode;
    try discriminate.
  inversion Hp; subst nm. rewrite (not_script name Hex).
  destruct (nth_error entries i) as [e|] eqn:He.
  - rewrite Forall_forall in entries_clean.
    destruct (entries_clean e (nth_error_In _ _ He)) as [Ht Hh].
    rewrite Ht, Hh. unfold with_styles.
    destruct (inlineStyleString (entry_styles e)) as [inline|];
      cbn [state_of count matched page option_map].
    + destruct (trim inline) as [|c t].
      * unfold attribs_at. rewrite Hnode. auto.
      * split.
        -- apply (attribs_at_update_same p (page st) name attribs _ kids Hnode).
        -- intros q Hq.
           now apply (attribs_at_update_other p (page st) q name attribs _ kids Hnode).
    + unfold attribs_at. rewrite Hnode. auto.
  - cbn [state_of count mismatch page]. unfold attribs_at. rewrite Hnode. auto.
Qed.

(** The loop: an element gets the styles of its entry when the loop comes
    to it and reads them, that is when no entry up to its own hides the
    method. *)
Lemma style_loop_attribs ps :
  forall i st,
    NoDup ps -> Forall (qualifies doc0) ps -> same_names doc0 st ->
    let st' := state_of (style_loop entries i ps (Running st)) in
    (forall q, ~ In q ps -> attribs_at (page st') q = attribs_at (page st) q)
    /\ (forall k p, nth_error ps k = Some p ->
                    attribs_at (page st') p
                    = match nth_error entries (i + k) with
                      | Some e =>
                          if forallb quiet (firstn (S k) (skipn i entries))
                          then option_map (with_styles e) (attribs_at (page st) p)
                          else attribs_at (page st) p
                      | None => attribs_at (page st) p
                      end).
Proof.
  induction ps as [|p ps IH]; intros i st Hnd Hq Hsame; cbn zeta.
  - split; [reflexivity|]. intros [|k] p H; discriminate.
  - inversion Hnd as [|? ? Hnotin Hnd']; subst.
    inversion Hq as [|? ? Hp Hps]; subst.
    rewrite style_loop_cons.
    destruct (style_step_attribs i p st Hp Hsame) as [Hown Hothers].
    destruct (nth_error entries i) as [e|] eqn:He.
    + rewrite (skipn_entry entries i e He).
      destruct (quiet e) eqn:Eq.
      * destruct (style_step_counts doc0 entries entries_clean i p st Hp Hsame)
          as [st1 [E1 [Hsame1 _]]]; [now rewrite He|].
        rewrite E1 in *. cbn [state_of] in Hown, Hothers.
        destruct (IH (S i) st1 Hnd' Hps Hsame1) as [Hout Hin].
        split.
        -- intros q Hnq. rewrite Hout by (intro H; apply Hnq; now right).
           apply Hothers. intros ->. apply Hnq. now left.
        -- intros [|k] p' Hk.
           ++ inversion Hk; subst p'. rewrite Nat.add_0_r, He.
              cbn [firstn forallb]. rewrite Eq. cbn [andb].
              rewrite Hout by exact Hnotin. exact Hown.
           ++ cbn [nth_error] in Hk. rewrite (Hin k p' Hk).
              replace (i + S k) with (S i + k) by lia.
              change (firstn (S (S k)) (e :: skipn (S i) entries))
                with (e :: firstn (S k) (skipn (S i) entries)).
              cbn [forallb]. rewrite Eq. cbn [andb].
              rewrite Hothers; [reflexivity|].
              intros ->. apply Hnotin. eapply nth_error_In; eassumption.
      * rewrite (style_step_throws doc0 entries entries_clean i p st e
                   Hp Hsame He Eq), style_loop_thrown.
        cbn [state_of count page]. split; [reflexivity|].
        intros k p' Hk. cbn [firstn forallb]. rewrite Eq. cbn [andb].
        now destruct (nth_error entries (i + k)).
    + destruct (style_step_counts doc0 entries entries_clean i p st Hp Hsame)
        as [st1 [E1 [Hsame1 _]]]; [now rewrite He|].
      rewrite E1 in *. cbn [state_of] in Hown, Hothers.
      destruct (IH (S i) st1 Hnd' Hps Hsame1) as [Hout Hin].
      assert (Hnone : forall k, nth_error entries (i + k) = None).
      { intro k. apply nth_error_None. apply nth_error_None in He. lia. }
      split.
      * intros q Hnq. rewrite Hout by (intro H; apply Hnq; now right).
        apply Hothers. intros ->. apply Hnq. now left.
      * intros [|k] p' Hk; rewrite Hnone.
        -- inversion Hk; subst p'. rewrite Hout by exact Hnotin. exact Hown.
        -- cbn [nth_error] in Hk. rewrite (Hin k p' Hk).
           replace (S i + k) with (i + S k) by lia. rewrite Hnone.
           apply Hothers. intros ->. apply Hnotin.
           eapply nth_error_In; eassumption.
Qed.

End Positions.

Lemma qualifying_nodup n : forall inBody here, NoDup (qualifying inBody here n).
Proof.
  induction n as [d|d|d|name attribs kids IH] using node_induction;
    intros inBody here; cbn [qualifying]; try constructor.
  apply NoDup_app.
  - destruct (_ && _); repeat constructor. intros [].
  - apply each_indexed_nodup.
    + intros i k Hk. rewrite Forall_forall in IH. now apply IH.
    + intros i j k1 k2 x Hij H1 H2.
      apply qualifying_spec in H1. destruct H1 as [r1 [? [? [? [H1 _]]]]].
      apply qualifying_spec in H2. destruct H2 as [r2 [? [? [? [H2 _]]]]].
      rewrite H1, <- !app_assoc in H2. apply app_inv_head in H2.
      inversion H2. contradiction.
  - intros x Hx Hx'.
    destruct (_ && _); [|contradiction]. destruct Hx as [<- | []].
    apply each_indexed_in in Hx'. destruct Hx' as [j [k [_ Hin]]].
    apply qualifying_spec in Hin. destruct Hin as [r [? [? [? [Hp _]]]]].
    rewrite <- app_assoc in Hp. rewrite <- (app_nil_r here) in Hp at 1.
    apply app_inv_head in Hp. discriminate.
Qed.

Lemma allHtmlElements_nodup doc : NoDup (allHtmlElements doc).
Proof.
  unfold allHtmlElements. apply each_indexed_nodup.
  - intros i k _. apply qualifying_nodup.
  - intros i j k1 k2 x Hij H1 H2.
    apply qualifying_spec in H1. destruct H1 as [r1 [? [? [? [H1 _]]]]].
    apply qualifying_spec in H2. destruct H2 as [r2 [? [? [? [H2 _]]]]].
    rewrite H1 in H2. inversion H2. contradiction.
Qed.

(** X5. Styles go by position, as far as the loop gets: the element that
    comes [i]-th in the loop gets the styles of the [i]-th entry of the
    flattened description, added to the style it had, when no entry up to
    the [i]-th has a style named [hasOwnProperty]; at the first entry that
    has one the loop throws, and the element of that turn and those after
    it keep their attributes.  An element beyond the description keeps its
    attributes, and so does every element the loop does not visit. *)
Theorem styles_go_by_position :
  forall document layoutJson,
    (forall i p,
        nth_error (allHtmlElements document) i = Some p ->
        attribs_at (page (styled document layoutJson)) p
        = match nth_error (flattenElements layoutJson []) i with
          | Some e =>
              if forallb quiet (firstn (S i) (flattenElements layoutJson []))
              then option_map (with_styles e) (attribs_at document p)
              else attribs_at document p
          | None => attribs_at document p
          end)
    /\ (forall q,
           ~ In q (allHtmlElements document) ->
           attribs_at (page (styled document layoutJson)) q
           = attribs_at document q).
Proof.
  intros document layoutJson.
  assert (Hclean : Forall script_free (flattenElements layoutJson []))
    by (apply flattenElements_clean; constructor).
  assert (Hq : Forall (qualifies document) (allHtmlElements document)).
  { apply Forall_forall. intros p Hp. now apply allHtmlElements_spec. }
  assert (Hsame : same_names document (start document)) by (intro q; reflexivity).
  destruct (style_loop_attribs document (flattenElements layoutJson []) Hclean
              (allHtmlElements document) 0 (start document)
              (allHtmlElements_nodup document) Hq Hsame) as [Hout Hin].
  split.
  - intros i p Hi. apply (Hin i p Hi).
  - intros q Hnq. apply (Hout q Hnq).
Qed.

Lemma styles_go_by_position_witness :
  attribs_at (page (styled styled_page styled_layout)) [0; 1; 0]
  = Some [(lit "style", lit "color: red; width: 10px;")]
  /\ attribs_at (page (styled styled_page styled_layout)) [0; 0] = Some []
  /\ attribs_at (page (styled hiding_page hiding_layout)) [0; 1]
     = Some [(lit "style", lit "margin: 0;")]
  /\ attribs_at (page (styled hiding_page hiding_layout)) [0; 1; 0] = Some [].
Proof.
  destruct (styles_go_by_position styled_page styled_layout) as [H1 H2].
  destruct (styles_go_by_position hiding_page hiding_layout) as [H3 _].
  split; [|split; [|split]].
  - rewrite (H1 1 [0; 1; 0] eq_refl). reflexivity.
  - rewrite (H2 [0; 0]); [reflexivity|].
    intro H. vm_compute in H. intuition discriminate.
  - rewrite (H3 0 [0; 1] eq_refl). reflexivity.
  - rewrite (H3 1 [0; 1; 0] eq_refl). reflexivity.
Defined.

(** *** Nothing but the styles *)

Lemma set_style_filtered v attribs :
  filter (fun a => negb (str_eqb "style" (fst a))) (set_attr "style" v attribs)
  = filter (fun a => negb (str_eqb "style" (fst a))) attribs.
Proof.
  induction attribs as [|[k' v'] rest IH]; [reflexivity|].
  cbn [set_attr]. destruct (str_eqb (lit "style") k') eqn:E.
  - cbn [filter fst]. rewrite E. cbn [negb].
    change (str_eqb (lit "style") (lit "style")) with true. reflexivity.
  - cbn [filter fst]. rewrite E. cbn [negb]. now rewrite IH.
Qed.

Lemma map_set_nth {A B} (f : A -> B) (g : A -> A) i l :
  (forall x, nth_error l i = Some x -> f (g x) = f x) ->
  map f (set_nth i g l) = map f l.
Proof.
  revert i. induction l as [|y l IH]; intros [|i] H; simpl; try reflexivity.
  - now rewrite (H y eq_refl).
  - now rewrite IH.
Qed.

Lemma without_style_update p :
  forall ns name attribs attribs' kids,
    node_at ns p = Some (Element name attribs kids) ->
    filter (fun a => negb (str_eqb "style" (fst a))) attribs'
    = filter (fun a => negb (str_eqb "style" (fst a))) attribs ->
    map without_style (update_at ns p (Element name attribs' kids))
    = map without_style ns.
Proof.
  induction p as [|i p IH]; intros ns name attribs attribs' kids Hnode Hf;
    [discriminate|].
  destruct p as [|j p].
  - cbn [update_at]. apply map_set_nth. intros x Hx.
    cbn [node_at] in Hnode. rewrite Hx in Hnode. inversion Hnode; subst x.
    cbn [without_style]. now rewrite Hf.
  - rewrite node_at_cons in Hnode. rewrite update_at_cons.
    apply map_set_nth. intros x Hx. rewrite Hx in Hnode.
    destruct x as [d|d|d|nm a ks]; try discriminate.
    cbn [without_style]. f_equal.
    apply (IH ks name attribs attribs' kids Hnode Hf).
Qed.

Lemma style_step_without_style entries pr turn :
  map without_style (page (state_of (style_step entries pr turn)))
  = map without_style (page (state_of pr)).
Proof.
  unfold style_step. destruct pr as [st|st]; [|reflexivity].
  destruct turn as [i p]. cbn [state_of].
  destruct (node_at (page st) p) as [[d|d|d|name attribs kids]|] eqn:Hnode;
    try reflexivity.
  destruct (str_eqb (toLowerCase name) "script"); [reflexivity|].
  destruct (nth_error entries i) as [e|]; [|reflexivity].
  destruct (tag_is_script (entry_tag e)); [reflexivity|].
  destruct (html_has_script (entry_html e)); [reflexivity|].
  destruct (inlineStyleString (entry_styles e)) as [inline|]; [|reflexivity].
  cbn [state_of count matched page].
  destruct (trim inline); [reflexivity|].
  apply (without_style_update p (page st) name attribs _ kids Hnode).
  apply set_style_filtered.
Qed.

Lemma style_loop_without_style entries turns :
  forall pr,
    map without_style (page (state_of (fold_left (style_step entries) turns pr)))
    = map without_style (page (state_of pr)).
Proof.
  induction turns as [|t turns IH]; intro pr; [reflexivity|].
  cbn [fold_left]. rewrite IH. apply style_step_without_style.
Qed.

(** X6. [processHtml] writes [style] attributes and nothing else: with these
    attributes left out, the page after the loop is the page that came
    in, and so it is when the loop is left by the exception. *)
Theorem only_style_attributes_change :
  forall document layoutJson,
    map without_style (page (styled document layoutJson))
    = map without_style document.
Proof.
  intros document layoutJson. unfold styled, main_loop, style_loop.
  now rewrite style_loop_without_style.
Qed.

(** *** [camelToKebab] *)

Lemma lower_char_not_capital c : is_capital (lower_char c) = false.
Proof.
  unfold lower_char, is_capital.
  destruct ((65 <=? ch c) && (ch c <=? 90)) eqn:E; [|exact E].
  apply andb_true_iff in E. destruct E as [E1 E2].
  apply Nat.leb_le in E1. apply Nat.leb_le in E2. unfold ch in *.
  rewrite nat_ascii_embedding by lia.
  apply andb_false_iff. right. apply Nat.leb_gt. lia.
Qed.

Lemma lower_char_small c : is_capital c = false -> lower_char c = c.
Proof. unfold lower_char, is_capital. now intros ->. Qed.

Lemma toLowerCase_small s :
  forallb (fun c => negb (is_capital c)) s = true -> toLowerCase s = s.
Proof.
  induction s as [|c s IH]; simpl; [reflexivity|].
  intro H. apply andb_true_iff in H. destruct H as [Hc Hs].
  apply negb_true_iff in Hc. now rewrite (lower_char_small c Hc), IH.
Qed.

Lemma toLowerCase_no_capital s :
  forallb (fun c => negb (is_capital c)) (toLowerCase s) = true.
Proof.
  induction s as [|c s IH]; simpl; [reflexivity|].
  now rewrite lower_char_not_capital, IH.
Qed.

Lemma hyphenate_small s :
  forallb (fun c => negb (is_capital c)) s = true ->
  flat_map (fun c => if is_capital c then ["-"%char; c] else [c]) s = s.
Proof.
  induction s as [|c s IH]; simpl; [reflexivity|].
  intro H. apply andb_true_iff in H. destruct H as [Hc Hs].
  apply negb_true_iff in Hc. now rewrite Hc, IH.
Qed.

Lemma camelToKebab_small s :
  forallb (fun c => negb (is_capital c)) s = true -> camelToKebab s = s.
Proof.
  intro H. unfold camelToKebab. rewrite (hyphenate_small s H).
  now apply toLowerCase_small.
Qed.

(** X7. [camelToKebab] on ASCII text: the result has no capital, it is one
    character longer for each capital of the argument, a text without
    capitals comes back as it is, and a second application changes
    nothing. *)
Theorem camelToKebab_leaves_no_capital :
  forall s,
    forallb is_ascii s = true ->
    forallb (fun c => negb (is_capital c)) (camelToKebab s) = true
    /\ List.length (camelToKebab s)
       = List.length s + List.length (filter is_capital s)
    /\ (forallb (fun c => negb (is_capital c)) s = true -> camelToKebab s = s)
    /\ camelToKebab (camelToKebab s) = camelToKebab s.
Proof.
  intros s _. split; [apply toLowerCase_no_capital|]. split; [|split].
  - unfold camelToKebab, toLowerCase. rewrite length_map.
    induction s as [|c s IH]; [reflexivity|]. cbn [flat_map filter].
    rewrite length_app, IH. destruct (is_capital c); simpl; lia.
  - apply camelToKebab_small.
  - apply camelToKebab_small. apply toLowerCase_no_capital.
Qed.

Lemma camelToKebab_witness :
  camelToKebab (lit "backgroundColor") = lit "background-color"
  /\ camelToKebab (camelToKebab (lit "backgroundColor"))
     = camelToKebab (lit "backgroundColor").
Proof.
  split; [reflexivity|].
  apply (camelToKebab_leaves_no_capital (lit "backgroundColor") eq_refl).
Defined.

(** ** The formatting of the styled page *)

Lemma replace_matches_skip matched rep x y :
  replace_matches matched rep (List.length x) (x ++ y)
  = replace_matches matched rep 0 y.
Proof.
  induction x as [|a x IH]; [reflexivity|].
  cbn [List.length app replace_matches]. exact IH.
Qed.

Lemma solid_gt c : Ascii.eqb c ">" = true -> is_space c = false.
Proof. intro H. apply Ascii.eqb_eq in H. now subst c. Qed.

Lemma solid_lt c : Ascii.eqb c "<" = true -> is_space c = false.
Proof. intro H. apply Ascii.eqb_eq in H. now subst c. Qed.

Lemma blank_not_gt a : is_space a = true -> Ascii.eqb a ">" = false.
Proof.
  intro H. destruct (Ascii.eqb a ">") eqn:E; [|reflexivity].
  apply solid_gt in E. congruence.
Qed.

Lemma solid_not_nl c : is_space c = false -> Ascii.eqb c nl = false.
Proof.
  intro H. destruct (Ascii.eqb c nl) eqn:E; [|reflexivity].
  apply Ascii.eqb_eq in E. now subst c.
Qed.

Lemma flatten_cons c w rest : flatten ((c, w) :: rest) = c :: w ++ flatten rest.
Proof. reflexivity. Qed.

Lemma flatten_headed toks :
  well_spaced toks ->
  match flatten toks with [] => True | c :: _ => is_space c = false end.
Proof.
  intro H. destruct toks as [|[c w] rest]; [exact I|].
  rewrite flatten_cons. inversion H as [|? ? [Hc _] _]. exact Hc.
Qed.

Lemma tokens_flatten s :
  s = fst (tokens s) ++ flatten (snd (tokens s))
  /\ blank (fst (tokens s)) /\ well_spaced (snd (tokens s)).
Proof.
  induction s as [|c s [IH1 [IH2 IH3]]]; [repeat split; constructor|].
  cbn [tokens]. destruct (tokens s) as [w toks]. cbn [fst snd] in *.
  destruct (is_space c) eqn:E; cbn [fst snd].
  - split; [now rewrite IH1 at 1|]. split; [|exact IH3].
    unfold blank in *. cbn [forallb]. now rewrite E.
  - split; [now rewrite IH1 at 1|]. split; [reflexivity|].
    constructor; [split; assumption | exact IH3].
Qed.

(** *** The first replacement *)

Lemma break_text_cons c s :
  break_text (c :: s)
  = match between_tags (c :: s) with
    | Some n =>
        (lit ">" ++ [nl] ++ lit "<")
          ++ replace_matches between_tags (lit ">" ++ [nl] ++ lit "<") (n - 1) s
    | None => c :: break_text s
    end.
Proof. reflexivity. Qed.

Lemma between_tags_other c s : Ascii.eqb c ">" = false -> between_tags (c :: s) = None.
Proof. intro H. cbn [between_tags]. now rewrite H. Qed.

Lemma between_tags_gap w r :
  blank w ->
  match r with [] => True | c :: _ => is_space c = false end ->
  between_tags (">"%char :: w ++ r)
  = match r with
    | d :: _ => if Ascii.eqb d "<" then Some (2 + List.length w) else None
    | [] => None
    end.
Proof.
  intros Hw Hr. cbn [between_tags]. change (Ascii.eqb ">" ">") with true.
  cbn iota. now rewrite (span_space_run w r Hw Hr).
Qed.

Lemma break_text_blank w y :
  blank w -> break_text (w ++ y) = w ++ break_text y.
Proof.
  unfold blank. intro Hw. induction w as [|a w IH]; [reflexivity|].
  cbn [forallb] in Hw. apply andb_prop in Hw. destruct Hw as [Ha Hw].
  cbn [app]. rewrite break_text_cons, (between_tags_other a _ (blank_not_gt a Ha)).
  now rewrite (IH Hw).
Qed.

Lemma break_text_other c y :
  Ascii.eqb c ">" = false -> break_text (c :: y) = c :: break_text y.
Proof. intro H. now rewrite break_text_cons, (between_tags_other c y H). Qed.

Lemma break_text_tokens toks :
  well_spaced toks ->
  forall w0, blank w0 ->
    break_text (w0 ++ flatten toks) = w0 ++ flatten (break_tags toks).
Proof.
  induction toks as [|[c w] rest IH]; intros Hs w0 Hw0.
  - cbn [flatten flat_map break_tags].
    rewrite (break_text_blank w0 [] Hw0). reflexivity.
  - inversion Hs as [|? ? [Hc Hw] Hrest]; subst. cbn [fst snd] in *.
    rewrite (break_text_blank w0 _ Hw0). f_equal.
    pose proof (IH Hrest) as IHr.
    cbn [break_tags]. rewrite !flatten_cons.
    destruct (Ascii.eqb c ">") eqn:Ec.
    + apply Ascii.eqb_eq in Ec. subst c.
      rewrite break_text_cons.
      rewrite (between_tags_gap w (flatten rest) Hw (flatten_headed rest Hrest)).
      destruct rest as [|[d wd] rest'].
      * cbn [flatten flat_map]. rewrite (break_text_blank w [] Hw). reflexivity.
      * rewrite flatten_cons. cbn [andb].
        destruct (Ascii.eqb d "<") eqn:Ed.
        -- apply Ascii.eqb_eq in Ed. subst d.
           cbn [Nat.add Nat.sub]. rewrite ?Nat.sub_0_r.
           change (w ++ "<"%char :: wd ++ flatten rest')
             with (w ++ ["<"%char] ++ (wd ++ flatten rest')).
           rewrite (app_assoc w ["<"%char] (wd ++ flatten rest')).
           replace (S (List.length w)) with (List.length (w ++ ["<"%char]))
             by (rewrite length_app; simpl; lia).
           rewrite replace_matches_skip. fold break_text.
           specialize (IHr [] eq_refl). cbn [app] in IHr.
           rewrite flatten_cons in IHr.
           rewrite (break_text_other "<" _ eq_refl) in IHr.
           destruct (break_tags (("<"%char, wd) :: rest')) as [|[d' w'] t] eqn:Eb;
             [discriminate|].
           rewrite flatten_cons in IHr. injection IHr as Hd' IHr.
           rewrite IHr, flatten_cons, <- Hd'. reflexivity.
        -- rewrite <- flatten_cons. rewrite (IHr w Hw). reflexivity.
    + rewrite (break_text_other c _ Ec). cbn [andb].
      replace (match rest with
               | [] => w
               | (d, _) :: _ => w
               end) with w by (now destruct rest as [|[? ?] ?]).
      now rewrite (IHr w Hw).
Qed.

(** *** The second replacement *)

Lemma squeeze_text_cons c s :
  squeeze_text (c :: s)
  = match blank_lines (c :: s) with
    | Some n => [nl] ++ replace_matches blank_lines [nl] (n - 1) s
    | None => c :: squeeze_text s
    end.
Proof. reflexivity. Qed.

Lemma blank_lines_other c s : Ascii.eqb c nl = false -> blank_lines (c :: s) = None.
Proof. intro H. cbn [blank_lines]. now rewrite H. Qed.

Lemma blank_lines_run w r :
  blank w ->
  match r with [] => True | c :: _ => is_space c = false end ->
  blank_lines (nl :: w ++ r) = option_map S (upto_last_newline w).
Proof.
  intros Hw Hr. cbn [blank_lines]. change (Ascii.eqb nl nl) with true.
  cbn iota. now rewrite (span_space_run w r Hw Hr).
Qed.

Lemma squeeze_text_other c y :
  Ascii.eqb c nl = false -> squeeze_text (c :: y) = c :: squeeze_text y.
Proof. intro H. now rewrite squeeze_text_cons, (blank_lines_other c y H). Qed.

Lemma upto_last_newline_none w : upto_last_newline w = None <-> has_nl w = false.
Proof.
  induction w as [|c w IH]; [now split|]. cbn [upto_last_newline has_nl existsb].
  fold (has_nl w). rewrite (Ascii.eqb_sym nl c).
  destruct (upto_last_newline w) as [n|].
  - split; [discriminate|]. intro H. apply orb_false_iff in H.
    destruct H as [_ H]. apply IH in H. discriminate.
  - destruct (Ascii.eqb c nl); [split; discriminate|].
    cbn [orb]. split; intros _; [now apply IH | reflexivity].
Qed.

Lemma upto_last_newline_some w n :
  upto_last_newline w = Some n ->
  n <= List.length w /\ has_nl (skipn n w) = false.
Proof.
  revert n. induction w as [|c w IH]; intros n H; [discriminate|].
  cbn [upto_last_newline] in H. destruct (upto_last_newline w) as [m|] eqn:E.
  - injection H as <-. destruct (IH m eq_refl) as [H1 H2].
    cbn [List.length skipn]. split; [lia | exact H2].
  - destruct (Ascii.eqb c nl); [|discriminate]. injection H as <-.
    cbn [List.length skipn]. split; [lia|]. now apply upto_last_newline_none.
Qed.

Lemma blank_skipn n w : blank w -> blank (skipn n w).
Proof.
  unfold blank. rewrite !forallb_forall. intros H x Hx. apply H.
  rewrite <- (firstn_skipn n w). apply in_or_app. now right.
Qed.

Lemma squeeze_text_plain w r :
  has_nl w = false -> squeeze_text (w ++ r) = w ++ squeeze_text r.
Proof.
  intro H. induction w as [|a w IH]; [reflexivity|].
  cbn [has_nl existsb] in H. apply orb_false_iff in H. destruct H as [Ha H].
  rewrite Ascii.eqb_sym in Ha. cbn [app].
  rewrite (squeeze_text_other a _ Ha). now rewrite (IH H).
Qed.

Lemma squeeze_text_run w r :
  blank w ->
  match r with [] => True | c :: _ => is_space c = false end ->
  squeeze_text (w ++ r) = squeeze w ++ squeeze_text r.
Proof.
  intros Hw Hr. induction w as [|a w IH]; [reflexivity|].
  unfold blank in Hw. cbn [forallb] in Hw. apply andb_prop in Hw.
  destruct Hw as [Ha Hw]. cbn [app squeeze].
  destruct (Ascii.eqb a nl) eqn:E.
  - apply Ascii.eqb_eq in E. subst a.
    rewrite squeeze_text_cons, (blank_lines_run w r Hw Hr).
    destruct (upto_last_newline w) as [m|] eqn:Em; cbn [option_map].
    + destruct (upto_last_newline_some w m Em) as [Hm Hk].
      cbn [Nat.sub]. rewrite Nat.sub_0_r.
      rewrite <- (firstn_skipn m w) at 1. rewrite <- app_assoc.
      replace m with (List.length (firstn m w)) at 1
        by (rewrite length_firstn; lia).
      rewrite replace_matches_skip. fold squeeze_text.
      rewrite (squeeze_text_plain _ r Hk). reflexivity.
    + rewrite (squeeze_text_other nl _ eq_refl) || idtac.
      apply upto_last_newline_none in Em.
      rewrite (squeeze_text_plain w r Em). reflexivity.
  - rewrite (squeeze_text_other a _ E). now rewrite (IH Hw).
Qed.

Lemma squeeze_blank w : blank w -> blank (squeeze w).
Proof.
  unfold blank. intro Hw. induction w as [|a w IH]; [reflexivity|].
  cbn [forallb] in Hw. apply andb_prop in Hw. destruct Hw as [Ha Hw].
  cbn [squeeze]. destruct (Ascii.eqb a nl) eqn:E.
  - destruct (upto_last_newline w) as [m|]; cbn [forallb];
      [now rewrite (blank_skipn m w Hw) | now rewrite Hw].
  - cbn [forallb]. now rewrite Ha, (IH Hw).
Qed.

Lemma squeeze_nl w :
  has_nl (squeeze w) = has_nl w /\ (has_nl w = false -> squeeze w = w).
Proof.
  induction w as [|a w [IH1 IH2]]; [now split|].
  cbn [squeeze has_nl existsb]. fold (has_nl w). rewrite (Ascii.eqb_sym nl a).
  destruct (Ascii.eqb a nl) eqn:E.
  - split; [|discriminate]. now destruct (upto_last_newline w).
  - cbn [has_nl existsb orb]. rewrite (Ascii.eqb_sym nl a), E. cbn [orb].
    fold (has_nl (squeeze w)). split; [exact IH1|].
    intro H. now rewrite (IH2 H).
Qed.

Lemma squeeze_text_tokens toks :
  well_spaced toks ->
  forall w0, blank w0 ->
    squeeze_text (w0 ++ flatten toks) = squeeze w0 ++ flatten (squeezed toks).
Proof.
  induction toks as [|[c w] rest IH]; intros Hs w0 Hw0.
  - cbn [flatten flat_map squeezed map].
    now rewrite (squeeze_text_run w0 [] Hw0 I).
  - inversion Hs as [|? ? [Hc Hw] Hrest]; subst. cbn [fst snd] in *.
    rewrite flatten_cons.
    rewrite (squeeze_text_run w0 (c :: w ++ flatten rest) Hw0 Hc). f_equal.
    rewrite (squeeze_text_other c _ (solid_not_nl c Hc)).
    cbn [squeezed map fst snd]. rewrite flatten_cons. f_equal.
    apply (IH Hrest w Hw).
Qed.

Lemma break_tags_spaced toks : well_spaced toks -> well_spaced (break_tags toks).
Proof.
  induction toks as [|[c w] rest IH]; intro H; [constructor|].
  inversion H as [|? ? [Hc Hw] Hrest]; subst. cbn [fst snd] in *.
  cbn [break_tags]. constructor; [|now apply IH]. cbn [fst snd].
  split; [exact Hc|]. destruct rest as [|[d wd] rest']; [exact Hw|].
  now destruct (Ascii.eqb c ">" && Ascii.eqb d "<").
Qed.

Lemma squeezed_spaced toks : well_spaced toks -> well_spaced (squeezed toks).
Proof.
  induction toks as [|[c w] rest IH]; intro H; [constructor|].
  inversion H as [|? ? [Hc Hw] Hrest]; subst. cbn [fst snd] in *.
  constructor; [|now apply IH]. cbn [fst snd].
  split; [exact Hc | now apply squeeze_blank].
Qed.

(** *** The lines *)

Lemma split_lines_nl s : split_lines (nl :: s) = [] :: split_lines s.
Proof. reflexivity. Qed.

Lemma split_lines_other c s :
  Ascii.eqb c nl = false ->
  split_lines (c :: s)
  = (c :: hd [] (split_lines s)) :: tl (split_lines s).
Proof.
  intro H. cbn [split_lines]. rewrite H.
  destruct (split_lines s) as [|line rest] eqn:E; [|reflexivity].
  destruct s as [|a s]; [discriminate|]. cbn [split_lines] in E.
  destruct (Ascii.eqb a nl); [discriminate|].
  now destruct (split_lines s).
Qed.

Lemma split_lines_plain x s :
  has_nl x = false ->
  split_lines (x ++ s) = (x ++ hd [] (split_lines s)) :: tl (split_lines s).
Proof.
  intro H. induction x as [|a x IH].
  - cbn [app]. destruct (split_lines s) as [|line rest] eqn:E; [|reflexivity].
    destruct s as [|c s]; [discriminate|].
    destruct (Ascii.eqb c nl) eqn:Ec.
    + apply Ascii.eqb_eq in Ec. subst c. discriminate.
    + rewrite (split_lines_other c s Ec) in E. discriminate.
  - cbn [has_nl existsb] in H. apply orb_false_iff in H. destruct H as [Ha H].
    rewrite Ascii.eqb_sym in Ha. cbn [app].
    rewrite (split_lines_other a _ Ha), (IH H). reflexivity.
Qed.

Lemma has_nl_split w :
  has_nl w = true -> exists wa wb, w = wa ++ nl :: wb /\ has_nl wa = false.
Proof.
  induction w as [|a w IH]; [discriminate|]. cbn [has_nl existsb].
  fold (has_nl w). destruct (Ascii.eqb nl a) eqn:E; cbn [orb].
  - intros _. apply Ascii.eqb_eq in E. subst a. now exists [], w.
  - intro H. destruct (IH H) as [wa [wb [-> Hwa]]].
    exists (a :: wa), wb. split; [reflexivity|].
    cbn [has_nl existsb]. rewrite E. exact Hwa.
Qed.

Lemma blank_app wa wb : blank (wa ++ wb) -> blank wa /\ blank wb.
Proof. unfold blank. rewrite forallb_app. apply andb_prop. Qed.

Lemma trimmed_lines_blank_cons a s :
  is_space a = true -> trimmed_lines (a :: s) = trimmed_lines s.
Proof.
  intro Ha. unfold trimmed_lines. destruct (Ascii.eqb a nl) eqn:E.
  - apply Ascii.eqb_eq in E. subst a. reflexivity.
  - rewrite (split_lines_other a s E).
    destruct (split_lines s) as [|line rest] eqn:Es.
    + destruct s as [|c s]; [discriminate|].
      destruct (Ascii.eqb c nl) eqn:Ec.
      * apply Ascii.eqb_eq in Ec. subst c. discriminate.
      * rewrite (split_lines_other c s Ec) in Es. discriminate.
    + cbn [hd tl map]. now rewrite (trim_blank_head a line Ha).
Qed.

Lemma trimmed_lines_blank w s :
  blank w -> trimmed_lines (w ++ s) = trimmed_lines s.
Proof.
  unfold blank. intro Hw. induction w as [|a w IH]; [reflexivity|].
  cbn [forallb] in Hw. apply andb_prop in Hw. destruct Hw as [Ha Hw].
  cbn [app]. rewrite (trimmed_lines_blank_cons a _ Ha). auto.
Qed.

Lemma trimmed_lines_broken c w s :
  is_space c = false -> blank w -> has_nl w = true ->
  trimmed_lines (c :: w ++ s) = [c] :: trimmed_lines s.
Proof.
  intros Hc Hw Hn. destruct (has_nl_split w Hn) as [wa [wb [-> Hwa]]].
  destruct (blank_app _ _ Hw) as [Hba Hbb].
  assert (Hx : has_nl (c :: wa) = false).
  { cbn [has_nl existsb]. rewrite Ascii.eqb_sym, (solid_not_nl c Hc). exact Hwa. }
  change (c :: (wa ++ nl :: wb) ++ s) with ((c :: wa ++ nl :: wb) ++ s).
  replace ((c :: wa ++ nl :: wb) ++ s) with ((c :: wa) ++ nl :: wb ++ s)
    by (cbn [app]; now rewrite <- app_assoc).
  unfold trimmed_lines at 1.
  rewrite (split_lines_plain (c :: wa) _ Hx), split_lines_nl.
  cbn [hd tl map]. rewrite app_nil_r, (trim_solid_head c wa Hc).
  rewrite (trimEnd_blank wa Hba). cbn [filter List.length Nat.ltb Nat.leb].
  f_equal. fold (trimmed_lines (wb ++ s)).
  unfold blank in Hbb. cbn [forallb] in Hbb. apply andb_prop in Hbb.
  now apply trimmed_lines_blank.
Qed.

Lemma trimmed_lines_solid d s :
  is_space d = false ->
  exists line more,
    split_lines (d :: s) = (d :: line) :: more
    /\ trimmed_lines (d :: s)
       = (d :: trimEnd line)
           :: filter (fun line => 0 <? List.length line) (map trim more).
Proof.
  intro Hd. rewrite (split_lines_other d s (solid_not_nl d Hd)).
  exists (hd [] (split_lines s)), (tl (split_lines s)). split; [reflexivity|].
  unfold trimmed_lines. rewrite (split_lines_other d s (solid_not_nl d Hd)).
  cbn [map]. rewrite (trim_solid_head d _ Hd). reflexivity.
Qed.

Lemma trimmed_lines_joined c w d s :
  is_space c = false -> blank w -> has_nl w = false -> is_space d = false ->
  exists line more,
    trimmed_lines (d :: s) = (d :: line) :: more
    /\ trimmed_lines (c :: w ++ d :: s) = (c :: w ++ d :: line) :: more.
Proof.
  intros Hc Hw Hn Hd.
  destruct (trimmed_lines_solid d s Hd) as [line [more [Hs Ht]]].
  exists (trimEnd line),
    (filter (fun line => 0 <? List.length line) (map trim more)).
  split; [exact Ht|].
  assert (Hx : has_nl (c :: w) = false).
  { cbn [has_nl existsb]. rewrite Ascii.eqb_sym, (solid_not_nl c Hc). exact Hn. }
  unfold trimmed_lines.
  change (c :: w ++ d :: s) with ((c :: w) ++ d :: s).
  rewrite (split_lines_plain (c :: w) _ Hx), Hs. cbn [hd tl map app].
  rewrite (trim_solid_head c _ Hc), (trimEnd_solid w d line Hd).
  reflexivity.
Qed.

Lemma join_headed (sep x a : str) more :
  join sep ((x ++ a) :: more) = x ++ join sep (a :: more).
Proof.
  destruct more as [|b more]; [reflexivity|].
  cbn [join]. now rewrite <- app_assoc.
Qed.

Lemma lines_tokens toks :
  well_spaced toks -> toks <> [] ->
  trimmed_lines (flatten toks) <> []
  /\ join [nl] (trimmed_lines (flatten toks)) = flatten (tidy toks).
Proof.
  induction toks as [|[c w] rest IH]; intros Hs Hne; [contradiction|].
  inversion Hs as [|? ? [Hc Hw] Hrest]; subst. cbn [fst snd] in *.
  rewrite flatten_cons. cbn [tidy]. rewrite flatten_cons.
  destruct rest as [|[d wd] rest'].
  - (* the last character: the white space after it goes *)
    cbn [flatten flat_map tidy app]. rewrite app_nil_r.
    destruct (has_nl w) eqn:Hn.
    + rewrite <- (app_nil_r w), (trimmed_lines_broken c w [] Hc Hw Hn).
      split; [discriminate | reflexivity].
    + assert (Hx : has_nl (c :: w) = false).
      { cbn [has_nl existsb]. rewrite Ascii.eqb_sym, (solid_not_nl c Hc).
        exact Hn. }
      unfold trimmed_lines. rewrite <- (app_nil_r (c :: w)).
      rewrite (split_lines_plain (c :: w) [] Hx). cbn [split_lines hd tl map].
      rewrite app_nil_r, (trim_solid_head c w Hc), (trimEnd_blank w Hw).
      split; [discriminate | reflexivity].
  - destruct (IH Hrest) as [IH1 IH2]; [discriminate|].
    inversion Hrest as [|? ? [Hd Hwd] Hrest']; subst. cbn [fst snd] in *.
    rewrite flatten_cons in *.
    destruct (has_nl w) eqn:Hn.
    + rewrite (trimmed_lines_broken c w _ Hc Hw Hn).
      split; [discriminate|].
      destruct (trimmed_lines (d :: wd ++ flatten rest')) as [|a more] eqn:E;
        [contradiction|].
      change (join [nl] ([c] :: a :: more))
        with ([c] ++ [nl] ++ join [nl] (a :: more)).
      rewrite IH2. reflexivity.
    + destruct (trimmed_lines_joined c w d (wd ++ flatten rest') Hc Hw Hn Hd)
        as [line [more [H1 H2]]].
      rewrite H2. split; [discriminate|].
      change (c :: w ++ d :: line) with ((c :: w) ++ d :: line).
      rewrite join_headed, <- IH2, H1. reflexivity.
Qed.

Lemma tidy_squeezed toks : tidy (squeezed (break_tags toks)) = reflow toks.
Proof.
  induction toks as [|[c w] rest IH]; [reflexivity|].
  cbn [break_tags squeezed map tidy reflow fst snd].
  fold (squeezed (break_tags rest)). rewrite IH. f_equal. f_equal.
  destruct rest as [|[d wd] rest']; [reflexivity|].
  cbn [break_tags squeezed map].
  destruct (Ascii.eqb c ">" && Ascii.eqb d "<"); [reflexivity|]. cbn [orb].
  destruct (squeeze_nl w) as [H1 H2]. rewrite H1.
  destruct (has_nl w); [reflexivity | now apply H2].
Qed.

(** The expression on a text given by its characters and white space. *)
Lemma reformat_tokens toks w0 :
  well_spaced toks -> blank w0 ->
  reformat (w0 ++ flatten toks) = flatten (reflow toks).
Proof.
  intros Hs Hw0. unfold reformat.
  rewrite (break_text_tokens toks Hs w0 Hw0).
  rewrite (squeeze_text_tokens _ (break_tags_spaced toks Hs) w0 Hw0).
  rewrite (trimmed_lines_blank _ _ (squeeze_blank w0 Hw0)).
  destruct toks as [|t toks']; [reflexivity|].
  rewrite <- tidy_squeezed.
  apply lines_tokens.
  - apply squeezed_spaced, break_tags_spaced, Hs.
  - destruct t as [c w]. discriminate.
Qed.

Lemma reflow_spaced toks : well_spaced toks -> well_spaced (reflow toks).
Proof.
  induction toks as [|[c w] rest IH]; intro H; [constructor|].
  inversion H as [|? ? [Hc Hw] Hrest]; subst. cbn [fst snd] in *.
  cbn [reflow]. constructor; [|now apply IH]. cbn [fst snd].
  split; [exact Hc|]. destruct rest as [|[d wd] rest']; [reflexivity|].
  now destruct ((Ascii.eqb c ">" && Ascii.eqb d "<") || has_nl w).
Qed.

Lemma reflow_again toks : reflow (reflow toks) = reflow toks.
Proof.
  induction toks as [|[c w] rest IH]; [reflexivity|].
  cbn [reflow]. rewrite IH. f_equal. f_equal.
  destruct rest as [|[d wd] rest']; [reflexivity|]. cbn [reflow].
  destruct (Ascii.eqb c ">" && Ascii.eqb d "<"); [reflexivity|]. cbn [orb].
  now destruct (has_nl w) eqn:E; [|rewrite E].
Qed.

Lemma solid_tokens toks w0 :
  well_spaced toks -> blank w0 ->
  filter (fun c => negb (is_space c)) (w0 ++ flatten toks) = map fst toks.
Proof.
  assert (Hb : forall w y, blank w ->
             filter (fun c => negb (is_space c)) (w ++ y)
             = filter (fun c => negb (is_space c)) y).
  { intros w y Hw. induction w as [|a w IHw]; [reflexivity|].
    unfold blank in Hw. cbn [forallb] in Hw. apply andb_prop in Hw.
    destruct Hw as [Ha Hw]. cbn [app filter]. rewrite Ha. cbn [negb]. auto. }
  intros Hs Hw0. rewrite (Hb w0 _ Hw0). clear w0 Hw0.
  induction toks as [|[c w] rest IH]; [reflexivity|].
  inversion Hs as [|? ? [Hc Hw] Hrest]; subst. cbn [fst snd] in *.
  rewrite flatten_cons. cbn [filter map fst]. rewrite Hc. cbn [negb].
  now rewrite (Hb w _ Hw), (IH Hrest).
Qed.

Lemma reflow_chars toks : map fst (reflow toks) = map fst toks.
Proof.
  induction toks as [|[c w] rest IH]; [reflexivity|].
  cbn [reflow map fst]. now rewrite IH.
Qed.

Lemma reformat_by_tokens s : reformat s = flatten (reflow (snd (tokens s))).
Proof.
  destruct (tokens_flatten s) as [H1 [H2 H3]].
  rewrite H1 at 1. now apply reformat_tokens.
Qed.

Lemma reformat_again s : reformat (reformat s) = reformat s.
Proof.
  destruct (tokens_flatten s) as [_ [_ H3]].
  rewrite (reformat_by_tokens s).
  pose proof (reformat_tokens (reflow (snd (tokens s))) []
                (reflow_spaced _ H3) eq_refl) as H.
  cbn [app] in H. rewrite H. now rewrite reflow_again.
Qed.

Lemma break_tags_reflow toks : break_tags (reflow toks) = reflow toks.
Proof.
  induction toks as [|[c w] rest IH]; [reflexivity|].
  cbn [reflow break_tags]. rewrite IH. f_equal. f_equal.
  destruct rest as [|[d wd] rest']; [reflexivity|]. cbn [reflow].
  now destruct (Ascii.eqb c ">" && Ascii.eqb d "<").
Qed.

Lemma squeezed_reflow toks : squeezed (reflow toks) = reflow toks.
Proof.
  induction toks as [|[c w] rest IH]; [reflexivity|].
  cbn [reflow squeezed map fst snd]. fold (squeezed (reflow rest)).
  rewrite IH. f_equal. f_equal.
  destruct rest as [|[d wd] rest']; [reflexivity|].
  destruct ((Ascii.eqb c ">" && Ascii.eqb d "<") || has_nl w) eqn:E;
    [reflexivity|].
  apply orb_false_iff in E. now apply squeeze_nl.
Qed.

(** *** The lines of the result *)

Lemma in_trimStart x s : In x (trimStart s) -> In x s.
Proof.
  intro H. destruct (trimStart_suffix s) as [ws [E _]]. rewrite E.
  apply in_or_app. now right.
Qed.

Lemma in_trim x s : In x (trim s) -> In x s.
Proof.
  unfold trim. intro H. apply in_rev in H. apply in_trimStart in H.
  apply in_rev in H. now apply in_trimStart.
Qed.

Lemma has_nl_false w : has_nl w = false <-> ~ In nl w.
Proof.
  unfold has_nl. split.
  - intros H Hin. assert (E : existsb (Ascii.eqb nl) w = true).
    { apply existsb_exists. exists nl. split; [exact Hin | apply Ascii.eqb_refl]. }
    congruence.
  - intro H. destruct (existsb (Ascii.eqb nl) w) eqn:E; [|reflexivity].
    apply existsb_exists in E. destruct E as [x [Hx Hn]].
    apply Ascii.eqb_eq in Hn. subst x. contradiction.
Qed.

Lemma split_lines_plain_lines s :
  Forall (fun line => has_nl line = false) (split_lines s).
Proof.
  induction s as [|c s IH]; [repeat constructor|].
  destruct (Ascii.eqb c nl) eqn:E.
  - apply Ascii.eqb_eq in E. subst c. rewrite split_lines_nl.
    constructor; [reflexivity | exact IH].
  - rewrite (split_lines_other c s E).
    destruct (split_lines s) as [|line rest]; cbn [hd tl].
    + constructor; [|constructor]. cbn [has_nl existsb].
      now rewrite Ascii.eqb_sym, E.
    + inversion IH as [|? ? Hl Hr]; subst. constructor; [|exact Hr].
      cbn [has_nl existsb]. rewrite Ascii.eqb_sym, E. exact Hl.
Qed.

Lemma trimmed_lines_spec s :
  Forall (fun line => line <> [] /\ trim line = line /\ has_nl line = false)
         (trimmed_lines s).
Proof.
  unfold trimmed_lines. apply Forall_forall. intros line H.
  apply filter_In in H. destruct H as [H Hlen].
  apply in_map_iff in H. destruct H as [l0 [<- Hl0]].
  split; [|split].
  - intro E. rewrite E in Hlen. discriminate.
  - apply trim_idempotent.
  - pose proof (split_lines_plain_lines s) as Hall.
    rewrite Forall_forall in Hall. specialize (Hall l0 Hl0).
    apply has_nl_false. apply has_nl_false in Hall.
    intro Hin. apply Hall. now apply in_trim.
Qed.

(** *** The doctype *)

Lemma flatten_app a b : flatten (a ++ b) = flatten a ++ flatten b.
Proof. unfold flatten. apply flat_map_app. Qed.

Lemma reflow_app a b :
  exists u, flatten (reflow (a ++ b)) = u ++ flatten (reflow b).
Proof.
  induction a as [|[c w] a [u IH]]; [now exists []|].
  cbn [app reflow]. rewrite flatten_cons, IH.
  eexists (c :: _ ++ u). cbn [app]. now rewrite <- app_assoc.
Qed.

Lemma well_spaced_app a b : well_spaced a -> well_spaced b -> well_spaced (a ++ b).
Proof. unfold well_spaced. intros. apply Forall_app. now split. Qed.

Lemma doctype_tokens_spaced : well_spaced doctype_tokens.
Proof. repeat constructor. Qed.

Lemma reformat_keeps_doctype s :
  includes s doctype = true -> includes (reformat s) doctype = true.
Proof.
  intro H. apply includes_iff in H. destruct H as [u [v E]].
  destruct (tokens_flatten u) as [Hu [Hwu Hsu]].
  destruct (tokens_flatten v) as [Hv [Hwv Hsv]].
  set (wu := fst (tokens u)) in *. set (utoks := snd (tokens u)) in *.
  set (wv := fst (tokens v)) in *. set (vtoks := snd (tokens v)) in *.
  assert (Es : s = wu ++ flatten (utoks ++ doctype_tokens
                                        ++ (">"%char, wv) :: vtoks)).
  { rewrite E, Hu, Hv at 1. rewrite !flatten_app, flatten_cons.
    rewrite <- !app_assoc. reflexivity. }
  assert (Hs : well_spaced (utoks ++ doctype_tokens ++ (">"%char, wv) :: vtoks)).
  { apply well_spaced_app; [exact Hsu|].
    apply well_spaced_app; [exact doctype_tokens_spaced|].
    constructor; [split; [reflexivity | exact Hwv] | exact Hsv]. }
  rewrite Es, (reformat_tokens _ wu Hs Hwu).
  destruct (reflow_app utoks (doctype_tokens ++ (">"%char, wv) :: vtoks))
    as [u' Hu'].
  rewrite Hu'. apply includes_iff.
  exists u'. unfold doctype_tokens. cbn [app reflow].
  eexists. cbn -[reflow]. reflexivity.
Qed.

Lemma with_doctype_includes s : includes (with_doctype s) doctype = true.
Proof.
  unfold with_doctype. destruct (includes s doctype) eqn:E; [exact E|].
  apply includes_iff. now exists [], ([nl] ++ s).
Qed.

Lemma reformat_solid s :
  filter (fun c => negb (is_space c)) (reformat s)
  = filter (fun c => negb (is_space c)) s.
Proof.
  destruct (tokens_flatten s) as [H1 [H2 H3]].
  rewrite (reformat_by_tokens s).
  pose proof (solid_tokens (reflow (snd (tokens s))) []
                (reflow_spaced _ H3) eq_refl) as H.
  cbn [app] in H. rewrite H, reflow_chars.
  rewrite H1 at 2. symmetry. now apply solid_tokens.
Qed.

Lemma reformat_settled s :
  break_text (reformat s) = reformat s
  /\ squeeze_text (reformat s) = reformat s.
Proof.
  destruct (tokens_flatten s) as [_ [_ H3]].
  rewrite (reformat_by_tokens s).
  pose proof (reflow_spaced _ H3) as Hr.
  split.
  - pose proof (break_text_tokens _ Hr [] eq_refl) as H. cbn [app] in H.
    now rewrite H, break_tags_reflow.
  - pose proof (squeeze_text_tokens _ Hr [] eq_refl) as H.
    cbn [app squeeze] in H. now rewrite H, squeezed_reflow.
Qed.

(** X27. The text steps of [formatCleanHtml] change white space only: the
    characters that are no white space are those of the serialized page
    (after the doctype was put in front when it was missing), in their
    order; the result holds the doctype, and it is made of lines none of
    which is empty or has white space at its ends. *)
Theorem formatting_changes_white_space_only :
  forall cleanHtml,
    let out := reformat (with_doctype cleanHtml) in
    filter (fun c => negb (is_space c)) out
    = filter (fun c => negb (is_space c)) (with_doctype cleanHtml)
    /\ includes out doctype = true
    /\ exists lines,
         out = join [nl] lines
         /\ Forall (fun line =>
                      line <> [] /\ trim line = line /\ has_nl line = false)
                   lines.
Proof.
  intros cleanHtml out. split; [apply reformat_solid|]. split.
  - apply reformat_keeps_doctype, with_doctype_includes.
  - exists (trimmed_lines (squeeze_text (break_text (with_doctype cleanHtml)))).
    split; [reflexivity | apply trimmed_lines_spec].
Qed.

(** X28. On what [formatCleanHtml] returns, its text steps find nothing to
    do: the doctype is there, the first replacement meets [>] and [<] with a
    line feed between them only, the second meets no blank line, and the
    whole expression gives the text back.  A second run can differ from the
    first only by how the page is parsed and serialized again. *)
Theorem formatted_text_is_settled :
  forall loaded,
    let out := formatCleanHtml loaded in
    with_doctype out = out
    /\ break_text out = out
    /\ squeeze_text out = out
    /\ reformat (with_doctype out) = out.
Proof.
  intros loaded out. unfold out, formatCleanHtml.
  set (text := with_doctype (serialize (remove (named "style") loaded))).
  assert (Hd : with_doctype (reformat text) = reformat text).
  { unfold with_doctype at 1.
    now rewrite (reformat_keeps_doctype text (with_doctype_includes _)). }
  destruct (reformat_settled text) as [H1 H2].
  split; [exact Hd|]. split; [exact H1|]. split; [exact H2|].
  rewrite Hd. apply reformat_again.
Qed.

End StyleFacts.

(** ** WidgetExtractionService *)

Module WidgetFacts.
Import WidgetExtraction.

(** *** The extraction cuts the markup at the widgets *)

Lemma cut_lit c s : cut c c s s [].
Proof.
  exists [Lit s]. simpl. rewrite app_nil_r, Nat.sub_diag. auto.
Qed.

Lemma cut_hole c f : cut c (S c) f (widget_token c) [(widget_token c, f)].
Proof.
  exists [Hole c f]. replace (S c - c) with 1 by lia.
  simpl. rewrite !app_nil_r. repeat split; try reflexivity; lia.
Qed.

Lemma cut_app c1 c2 c3 a a' b b' w1 w2 :
  cut c1 c2 a a' w1 -> cut c2 c3 b b' w2 ->
  cut c1 c3 (a ++ b) (a' ++ b') (w1 ++ w2).
Proof.
  intros [s1 [Ha [Ha' [Hw1 [Hn1 Hle1]]]]] [s2 [Hb [Hb' [Hw2 [Hn2 Hle2]]]]].
  exists (s1 ++ s2). rewrite !flat_map_app. subst. repeat split; try lia.
  rewrite Hn1, Hn2.
  replace (c3 - c1) with ((c2 - c1) + (c3 - c2)) by lia.
  rewrite seq_app. repeat f_equal. lia.
Qed.

Lemma cut_hide c c' s s' w : cut c c' s s' w -> cut c c' [] [] w.
Proof.
  intros [segs [_ [_ [Hw [Hn Hle]]]]].
  exists (map hide segs). subst w. rewrite <- Hn.
  repeat split; try assumption; clear; induction segs as [|[x|k f|k f] segs IH];
    simpl; auto; now rewrite <- IH.
Qed.

Lemma serialize_token raw n :
  serialize_node raw (Text (widget_token n)) = widget_token n.
Proof. simpl. destruct raw; [reflexivity | apply escape_text_widget_token]. Qed.

Lemma element_cut name attribs kids kids' c c' w raw :
  cut c c' (flat_map (serialize_node (mem name raw_text_elements)) kids)
      (flat_map (serialize_node (mem name raw_text_elements)) kids') w ->
  cut c c' (serialize_node raw (Element name attribs kids))
      (serialize_node raw (Element name attribs kids')) w.
Proof.
  intro Hc. cbn [serialize_node].
  destruct (mem name void_elements).
  - rewrite <- (app_nil_l w). eapply cut_app; [apply cut_lit|].
    eapply cut_hide. exact Hc.
  - rewrite <- (app_nil_l w). eapply cut_app; [apply cut_lit|].
    rewrite <- (app_nil_r w). eapply cut_app; [exact Hc | apply cut_lit].
Qed.

Lemma each_child_cuts kids :
  Forall cuts kids ->
  forall ancestors st raw,
    exists w,
      widgets (snd (each_child (processElement ancestors) kids st))
      = widgets st ++ w /\
      cut (widgetCounter st)
          (widgetCounter (snd (each_child (processElement ancestors) kids st)))
          (flat_map (serialize_node raw) kids)
          (flat_map (serialize_node raw)
                    (fst (each_child (processElement ancestors) kids st))) w.
Proof.
  induction 1 as [|k kids Hk _ IH]; intros ancestors st raw.
  - exists []. simpl. rewrite app_nil_r. split; [reflexivity | apply cut_lit].
  - simpl. destruct (Hk ancestors st raw) as [w1 [Hw1 Hc1]].
    destruct (processElement ancestors k st) as [k' st1] eqn:E1.
    destruct (IH ancestors st1 raw) as [w2 [Hw2 Hc2]].
    destruct (each_child (processElement ancestors) kids st1) as [ks' st2] eqn:E2.
    simpl in *. exists (w1 ++ w2). split.
    + rewrite Hw2, Hw1. now rewrite app_assoc.
    + eapply cut_app; eassumption.
Qed.

Lemma processElement_cuts n : cuts n.
Proof.
  induction n as [d|d|d|name attribs kids IH] using node_induction;
    intros ancestors st raw;
    try (exists []; simpl; rewrite app_nil_r; split; [reflexivity | apply cut_lit]).
  cbn [processElement].
  destruct (each_child_cuts kids IH (name :: ancestors) st
                            (mem name raw_text_elements)) as [w [Hw Hc]].
  apply (element_cut name attribs kids _ _ _ _ raw) in Hc.
  destruct (each_child (processElement (name :: ancestors)) kids st)
    as [kids' st'] eqn:E.
  destruct (mem (toLowerCase name) WIDGET_ELEMENTS).
  - destruct (str_eqb (toLowerCase name) "main" && negb (isInsideSection ancestors)).
    + exists w. auto.
    + exists [(widget_token (widgetCounter st), outerHTML (Element name attribs kids))].
      split; [reflexivity|]. unfold extract. cbn [fst snd widgetCounter].
      rewrite serialize_token. apply cut_hole.
  - exists w. auto.
Qed.

Lemma on_first_cutting p f :
  cutting f ->
  forall ns st raw,
    exists w,
      widgets (snd (on_first p f ns st)) = widgets st ++ w /\
      cut (widgetCounter st) (widgetCounter (snd (on_first p f ns st)))
          (flat_map (serialize_node raw) ns)
          (flat_map (serialize_node raw) (fst (on_first p f ns st))) w.
Proof.
  intros Hf ns. induction ns as [|n ns IH]; intros st raw.
  - exists []. simpl. rewrite app_nil_r. split; [reflexivity | apply cut_lit].
  - simpl. destruct (p n).
    + destruct (Hf n st raw) as [w [Hw Hc]].
      destruct (f n st) as [n' st'] eqn:E. simpl in *.
      exists w. split; [exact Hw|].
      rewrite <- (app_nil_r w). eapply cut_app; [exact Hc | apply cut_lit].
    + destruct (IH st raw) as [w [Hw Hc]].
      destruct (on_first p f ns st) as [ns' st'] eqn:E. simpl in *.
      exists w. split; [exact Hw|].
      rewrite <- (app_nil_l w). eapply cut_app; [apply cut_lit | exact Hc].
Qed.

Lemma process_children_cutting ancestors : cutting (process_children ancestors).
Proof.
  intros [d|d|d|name attribs kids] st raw;
    try (exists []; simpl; rewrite app_nil_r; split; [reflexivity | apply cut_lit]).
  assert (Hall : Forall cuts kids).
  { apply Forall_forall. intros k _. apply processElement_cuts. }
  destruct (each_child_cuts kids Hall (name :: ancestors) st
                            (mem name raw_text_elements)) as [w [Hw Hc]].
  cbn [process_children].
  destruct (each_child (processElement (name :: ancestors)) kids st)
    as [kids' st'] eqn:E. cbn [fst snd] in *.
  exists w. split; [exact Hw|]. apply element_cut. exact Hc.
Qed.

Lemma process_root_cutting : cutting process_root.
Proof.
  intros [d|d|d|name attribs kids] st raw;
    try (exists []; simpl; rewrite app_nil_r; split; [reflexivity | apply cut_lit]).
  cbn [process_root].
  destruct (str_eqb name "html" && existsb is_body kids).
  - destruct (on_first_cutting is_body (process_children [name])
                (process_children_cutting [name]) kids st
                (mem name raw_text_elements)) as [w [Hw Hc]].
    destruct (on_first is_body (process_children [name]) kids st)
      as [kids' st'] eqn:E. cbn [fst snd] in *.
    exists w. split; [exact Hw|]. apply element_cut. exact Hc.
  - apply (process_children_cutting [] (Element name attribs kids) st raw).
Qed.

Lemma extractWidgets_cut document :
  exists c',
    cut 1 c' (serialize document) (modifiedHtml (extractWidgets document))
        (result_widgets (extractWidgets document)).
Proof.
  unfold extractWidgets.
  destruct (on_first_cutting is_element process_root process_root_cutting
              document {| widgetCounter := 1; widgets := [] |} false)
    as [w [Hw Hc]].
  destruct (on_first is_element process_root document
                     {| widgetCounter := 1; widgets := [] |})
    as [document' st'] eqn:E. simpl in *.
  exists (widgetCounter st'). rewrite Hw. exact Hc.
Qed.

(** *** Putting the fragments back *)

Arguments widget_token : simpl never.
Arguments subst_all : simpl never.

Lemma widget_overlap k j u v x y :
  u ++ widget_token k ++ v = x ++ widget_token j ++ y ->
  (exists w, x = u ++ widget_token k ++ w /\ v = w ++ widget_token j ++ y)
  \/ (u = x /\ k = j /\ v = y)
  \/ (exists w, u = x ++ widget_token j ++ w /\ y = w ++ widget_token k ++ v).
Proof.
  intro H. apply braced_overlap in H; try apply widget_core_brace_free.
  destruct H as [H | [[Hu [Hc Hv]] | H]]; auto.
  right; left. repeat split; auto.
  apply app_inv_head in Hc. now apply decimal_inj.
Qed.

Lemma occurs_templ k segs :
  forall c,
    occurs (widget_token k) (c ++ flat_map seg_templ segs) ->
    occurs (widget_token k) (c ++ flat_map seg_orig segs)
    \/ In k (flat_map seg_num segs).
Proof.
  induction segs as [|[s|j f|j f] segs IH]; intros c Hocc; cbn [flat_map seg_num seg_orig seg_templ seg_hole substitute_back fold_left fst snd app] in *.
  - auto.
  - rewrite app_assoc in Hocc. apply IH in Hocc.
    rewrite <- app_assoc in Hocc. exact Hocc.
  - destruct Hocc as [u [v Huv]]. symmetry in Huv.
    apply widget_overlap in Huv.
    destruct Huv as [[w [Hc _]] | [[_ [Hk _]] | [w [_ Hy]]]].
    + left. rewrite Hc. apply occurs_app_l. exists u, w. reflexivity.
    + right. left. congruence.
    + destruct (IH [] (ex_intro _ w (ex_intro _ v Hy))) as [Ho | Hin].
      * left. apply occurs_app_r, occurs_app_r. exact Ho.
      * right. right. exact Hin.
  - apply IH in Hocc. destruct Hocc as [H | H];
      [left; exact H | right; right; exact H].
Qed.

Lemma subst_token_here k f c rest :
  ~ occurs (widget_token k) c -> ~ occurs (widget_token k) rest ->
  subst_all (widget_token k) f (c ++ widget_token k ++ rest) = c ++ f ++ rest.
Proof.
  intros Hc Hrest. unfold subst_all.
  rewrite replace_all_pass.
  - rewrite replace_all_match by apply braced_nonempty.
    rewrite replace_all_absent by (try apply braced_nonempty; assumption).
    reflexivity.
  - intros x1 x2 -> Hx2.
    destruct (starts (widget_token k) (x2 ++ widget_token k ++ rest)) eqn:E;
      [|reflexivity].
    exfalso. apply starts_iff in E. destruct E as [r Hr].
    change (widget_token k ++ r) with ([] ++ widget_token k ++ r) in Hr.
    symmetry in Hr. apply widget_overlap in Hr.
    destruct Hr as [[w [Hx _]] | [[Hx _] | [w [Hx _]]]].
    + apply Hc. rewrite Hx. apply occurs_app_r. exists [], w. reflexivity.
    + apply Hx2. now symmetry.
    + destruct x2; [now apply Hx2 | discriminate].
Qed.

Lemma restore_segs segs :
  forall c cnt n,
    flat_map seg_num segs = seq cnt n ->
    (forall k, In k (flat_map seg_num segs) ->
               ~ occurs (widget_token k) (c ++ flat_map seg_orig segs)) ->
    substitute_back (flat_map seg_hole segs) (c ++ flat_map seg_templ segs)
    = c ++ flat_map seg_orig segs.
Proof.
  induction segs as [|[s|j f|j f] segs IH]; intros c cnt n Hnum Hfresh.
  - reflexivity.
  - cbn [flat_map seg_num seg_orig seg_templ seg_hole substitute_back fold_left fst snd app] in *. rewrite !app_assoc. apply (IH _ cnt n Hnum).
    intros k Hk. rewrite <- app_assoc. now apply Hfresh.
  - cbn [flat_map seg_num seg_orig seg_templ seg_hole substitute_back fold_left fst snd app] in *. destruct n as [|n]; [discriminate|].
    cbn [seq] in Hnum. inversion Hnum as [[Hj Hn]]. subst j.
    assert (Hhere : ~ occurs (widget_token cnt) (c ++ f ++ flat_map seg_orig segs))
      by (apply Hfresh; now left).
    rewrite subst_token_here.
    + rewrite !app_assoc. apply (IH _ (S cnt) n Hn).
      intros k Hk. rewrite <- app_assoc. apply Hfresh. now right.
    + intro Ho. apply Hhere. now apply occurs_app_l.
    + intro Ho. destruct (occurs_templ cnt segs [] Ho) as [Ho' | Hin].
      * apply Hhere. now apply occurs_app_r, occurs_app_r.
      * rewrite Hn in Hin. apply in_seq in Hin. lia.
  - cbn [flat_map seg_num seg_orig seg_templ seg_hole substitute_back fold_left fst snd app] in *. destruct n as [|n]; [discriminate|].
    cbn [seq] in Hnum. inversion Hnum as [[Hj Hn]]. subst j.
    assert (Hhere : ~ occurs (widget_token cnt) (c ++ flat_map seg_orig segs))
      by (apply Hfresh; now left).
    unfold subst_all. rewrite replace_all_absent.
    + apply (IH _ (S cnt) n Hn). intros k Hk. apply Hfresh. now right.
    + intro Ho. destruct (occurs_templ cnt segs c Ho) as [Ho' | Hin].
      * now apply Hhere.
      * rewrite Hn in Hin. apply in_seq in Hin. lia.
Qed.

Lemma num_has_hole k segs :
  In k (flat_map seg_num segs) ->
  exists f, In (widget_token k, f) (flat_map seg_hole segs).
Proof.
  induction segs as [|[s|j f|j f] segs IH]; simpl; intro H.
  - contradiction.
  - auto.
  - destruct H as [-> | H]; [exists f; now left|].
    destruct (IH H) as [g Hg]. exists g. now right.
  - destruct H as [-> | H]; [exists f; now left|].
    destruct (IH H) as [g Hg]. exists g. now right.
Qed.

(** C1, as amended.  When none of the emitted tokens occurs in the markup of
    the page as it came in, replacing every token in [modifiedHtml] by the
    markup captured for it gives back that markup, character for character,
    hence the same document up to white space. *)
Theorem C1_round_trip_when_tokens_are_fresh :
  forall document,
    tokens_fresh document = true ->
    substitute_back (result_widgets (extractWidgets document))
                    (modifiedHtml (extractWidgets document))
    = serialize document
    /\ same_markup
         (substitute_back (result_widgets (extractWidgets document))
                          (modifiedHtml (extractWidgets document)))
         (serialize document).
Proof.
  intros document Hfresh.
  assert (E : substitute_back (result_widgets (extractWidgets document))
                              (modifiedHtml (extractWidgets document))
              = serialize document).
  { destruct (extractWidgets_cut document)
      as [c' [segs [Hs [Hs' [Hw [Hn _]]]]]].
    unfold tokens_fresh in Hfresh. rewrite forallb_forall in Hfresh.
    rewrite Hs', Hw, Hs.
    apply (restore_segs segs [] 1 (c' - 1) Hn).
    intros k Hk. simpl. rewrite <- Hs.
    destruct (num_has_hole k segs Hk) as [f Hf]. rewrite <- Hw in Hf.
    apply Hfresh in Hf. apply negb_true_iff in Hf. simpl in Hf.
    now apply not_includes_iff. }
  split; [exact E|]. unfold same_markup. now rewrite E.
Qed.

Lemma C1_witness :
  tokens_fresh sample_page = true
  /\ substitute_back (result_widgets (extractWidgets sample_page))
                     (modifiedHtml (extractWidgets sample_page))
     = serialize sample_page.
Proof.
  split; [reflexivity|].
  apply (proj1 (C1_round_trip_when_tokens_are_fresh sample_page eq_refl)).
Defined.

(** C1 as stated fails on a page that already contains the text of a token:
    putting the fragments back also rewrites the text that was there
    before, and the result differs from the page by more than white
    space. *)
Lemma C1_counterexample :
  ~ same_markup
      (substitute_back (result_widgets (extractWidgets colliding_page))
                       (modifiedHtml (extractWidgets colliding_page)))
      (serialize colliding_page).
Proof. unfold same_markup. vm_compute. discriminate. Qed.



(** *** The record of the widgets *)

Lemma seg_keys segs :
  map fst (flat_map seg_hole segs) = map widget_token (flat_map seg_num segs).
Proof.
  induction segs as [|[s|k f|k f] segs IH]; simpl; congruence.
Qed.

Lemma totalWidgets_length document :
  WidgetExtraction.totalWidgets (extractWidgets document)
  = List.length (result_widgets (extractWidgets document)).
Proof.
  unfold extractWidgets.
  destruct (on_first is_element process_root document _). reflexivity.
Qed.

(** X8. The tokens are [{{widget-1}}], [{{widget-2}}], ... in the order of
    extraction, with no gap and no repeat; [totalWidgets] is their number. *)
Theorem tokens_are_numbered_from_one :
  forall document,
    map fst (result_widgets (extractWidgets document))
    = map widget_token
          (seq 1 (WidgetExtraction.totalWidgets (extractWidgets document)))
    /\ NoDup (map fst (result_widgets (extractWidgets document))).
Proof.
  intro document.
  destruct (extractWidgets_cut document) as [c' [segs [_ [_ [Hw [Hn _]]]]]].
  assert (E : map fst (result_widgets (extractWidgets document))
              = map widget_token (seq 1 (c' - 1))).
  { now rewrite Hw, seg_keys, Hn. }
  assert (L : WidgetExtraction.totalWidgets (extractWidgets document) = c' - 1).
  { rewrite totalWidgets_length, <- (length_map fst), E, length_map.
    apply length_seq. }
  rewrite L. split; [exact E|]. rewrite E.
  apply nodup_map; [apply widget_token_inj | apply seq_NoDup].
Qed.

(** *** What is left after the walk *)

Lemma each_child_settled ancestors kids :
  Forall (fun k => forall anc st,
              settled anc (fst (processElement anc k st)) = true) kids ->
  forall st,
    forallb (settled ancestors)
            (fst (each_child (processElement ancestors) kids st)) = true.
Proof.
  induction 1 as [|k kids Hk _ IH]; intro st; [reflexivity|].
  simpl. specialize (Hk ancestors st).
  destruct (processElement ancestors k st) as [k' st1].
  specialize (IH st1).
  destruct (each_child (processElement ancestors) kids st1) as [ks' st2].
  simpl in *. now rewrite Hk, IH.
Qed.

Lemma processElement_settles n :
  forall ancestors st, settled ancestors (fst (processElement ancestors n st)) = true.
Proof.
  induction n as [d|d|d|name attribs kids IH] using node_induction;
    intros ancestors st; try reflexivity.
  cbn [processElement].
  pose proof (each_child_settled (name :: ancestors) kids IH st) as Hk.
  destruct (each_child (processElement (name :: ancestors)) kids st)
    as [kids' st'].
  cbn [fst] in Hk.
  destruct (mem (toLowerCase name) WIDGET_ELEMENTS) eqn:Ew.
  - destruct (str_eqb (toLowerCase name) "main" && negb (isInsideSection ancestors))
      eqn:Em.
    + cbn [fst settled]. rewrite Ew, Em, Hk. reflexivity.
    + reflexivity.
  - cbn [fst settled]. rewrite Ew, Hk. reflexivity.
Qed.

Lemma each_child_fixed ancestors kids :
  Forall (fun k => forall anc st,
              settled anc k = true -> processElement anc k st = (k, st)) kids ->
  forall st,
    forallb (settled ancestors) kids = true ->
    each_child (processElement ancestors) kids st = (kids, st).
Proof.
  induction 1 as [|k kids Hk _ IH]; intros st Hs; [reflexivity|].
  simpl in Hs. apply andb_true_iff in Hs. destruct Hs as [H1 H2].
  simpl. rewrite (Hk ancestors st H1), (IH st H2). reflexivity.
Qed.

Lemma settled_fixed n :
  forall ancestors st,
    settled ancestors n = true -> processElement ancestors n st = (n, st).
Proof.
  induction n as [d|d|d|name attribs kids IH] using node_induction;
    intros ancestors st Hs; try reflexivity.
  cbn [settled] in Hs. apply andb_true_iff in Hs. destruct Hs as [Hhere Hkids].
  cbn [processElement].
  rewrite (each_child_fixed (name :: ancestors) kids IH st Hkids).
  destruct (mem (toLowerCase name) WIDGET_ELEMENTS); [|reflexivity].
  cbn [negb orb] in Hhere. now rewrite Hhere.
Qed.

(** X10. Extraction is complete and final: in what [processElement] leaves at
    the place of a node, no element would be extracted any more, and a second
    pass over it returns it as it is, with no new token. *)
Theorem nothing_is_left_to_extract :
  forall ancestors element st st',
    settled ancestors (fst (processElement ancestors element st)) = true
    /\ processElement ancestors (fst (processElement ancestors element st)) st'
       = (fst (processElement ancestors element st), st').
Proof.
  intros ancestors element st st'.
  pose proof (processElement_settles element ancestors st) as H.
  split; [exact H|]. now apply settled_fixed.
Qed.

(** *** Only widgets are recorded *)

Lemma each_child_records f kids :
  records_widgets f ->
  forall st,
    Forall (fun w => widget_markup (snd w)) (widgets st) ->
    Forall (fun w => widget_markup (snd w))
           (widgets (snd (each_child f kids st))).
Proof.
  intro Hf. induction kids as [|k kids IH]; intros st Hst; [exact Hst|].
  simpl. specialize (Hf k st Hst).
  destruct (f k st) as [k' st1]. specialize (IH st1 Hf).
  destruct (each_child f kids st1) as [ks' st2]. exact IH.
Qed.

Lemma processElement_records n :
  forall ancestors st,
    Forall (fun w => widget_markup (snd w)) (widgets st) ->
    Forall (fun w => widget_markup (snd w))
           (widgets (snd (processElement ancestors n st))).
Proof.
  induction n as [d|d|d|name attribs kids IH] using node_induction;
    intros ancestors st Hst; try exact Hst.
  cbn [processElement].
  assert (Hk : forall st0,
             Forall (fun w => widget_markup (snd w)) (widgets st0) ->
             Forall (fun w => widget_markup (snd w))
                    (widgets (snd (each_child (processElement (name :: ancestors))
                                              kids st0)))).
  { clear Hst st. induction IH as [|k kids Hk _ IHk]; intros st0 H0; [exact H0|].
    simpl. specialize (Hk (name :: ancestors) st0 H0).
    destruct (processElement (name :: ancestors) k st0) as [k' st1].
    specialize (IHk st1 Hk).
    destruct (each_child (processElement (name :: ancestors)) kids st1)
      as [ks' st2]. exact IHk. }
  specialize (Hk st Hst).
  destruct (each_child (processElement (name :: ancestors)) kids st)
    as [kids' st'].
  destruct (mem (toLowerCase name) WIDGET_ELEMENTS) eqn:Ew; [|exact Hk].
  destruct (str_eqb (toLowerCase name) "main" && negb (isInsideSection ancestors));
    [exact Hk|].
  unfold extract. cbn [snd widgets]. apply Forall_app. split; [exact Hst|].
  constructor; [|constructor]. exists name, attribs, kids. auto.
Qed.

Lemma on_first_records p f :
  records_widgets f ->
  forall ns st,
    Forall (fun w => widget_markup (snd w)) (widgets st) ->
    Forall (fun w => widget_markup (snd w)) (widgets (snd (on_first p f ns st))).
Proof.
  intros Hf ns. induction ns as [|n ns IH]; intros st Hst; [exact Hst|].
  simpl. destruct (p n).
  - specialize (Hf n st Hst). destruct (f n st) as [n' st']. exact Hf.
  - specialize (IH st Hst). destruct (on_first p f ns st) as [ns' st']. exact IH.
Qed.

Lemma process_children_records ancestors :
  records_widgets (process_children ancestors).
Proof.
  intros [d|d|d|name attribs kids] st Hst; try exact Hst.
  cbn [process_children].
  pose proof (each_child_records (processElement (name :: ancestors)) kids
                (fun n st0 => processElement_records n (name :: ancestors) st0)
                st Hst) as H.
  destruct (each_child (processElement (name :: ancestors)) kids st)
    as [kids' st']. exact H.
Qed.

Lemma process_root_records : records_widgets process_root.
Proof.
  intros [d|d|d|name attribs kids] st Hst; try exact Hst.
  cbn [process_root]. destruct (str_eqb name "html" && existsb is_body kids).
  - pose proof (on_first_records is_body (process_children [name])
                  (process_children_records [name]) kids st Hst) as H.
    destruct (on_first is_body (process_children [name]) kids st)
      as [kids' st']. exact H.
  - apply (process_children_records [] (Element name attribs kids) st Hst).
Qed.

(** X9. Only widgets are captured: every fragment of the result is the outer
    markup of an element whose tag is in [WIDGET_ELEMENTS]. *)
Theorem fragments_are_widget_markup :
  forall document,
    Forall (fun w => widget_markup (snd w))
           (result_widgets (extractWidgets document)).
Proof.
  intro document. unfold extractWidgets.
  pose proof (on_first_records is_element process_root process_root_records
                document {| widgetCounter := 1; widgets := [] |}
                (Forall_nil _)) as H.
  destruct (on_first is_element process_root document _) as [document' st].
  exact H.
Qed.

End WidgetFacts.

(** ** ComponentExtractionService *)

Module ComponentFacts.
Import ComponentExtraction.

Lemma select_absent p n : anywhere p n = false -> select p n = [].
Proof.
  induction n as [d|d|d|name attribs kids IH] using node_induction;
    simpl; intro H; apply orb_false_iff in H; destruct H as [Hp Hk];
    rewrite Hp; try reflexivity.
  clear Hp. simpl. induction IH as [|k kids Hk1 _ IHk]; simpl in *; [reflexivity|].
  apply orb_false_iff in Hk. destruct Hk as [Hka Hkb].
  rewrite (Hk1 Hka). simpl. now apply IHk.
Qed.

Lemma select_absent_forest p doc :
  present p doc = false -> flat_map (select p) doc = [].
Proof.
  unfold present. induction doc as [|n doc IH]; simpl; [reflexivity|].
  intro H. apply orb_false_iff in H. destruct H as [H1 H2].
  now rewrite (select_absent p n H1), IH.
Qed.

Lemma occurs_self p : occurs p p.
Proof. exists [], []. now rewrite app_nil_r. Qed.

Lemma occurs_in_line text ls line :
  In line ls -> occurs text line -> occurs text (lines ls).
Proof.
  unfold lines. destruct ls as [|l0 rest]; [contradiction|].
  intros [<- | Hin] Ho; [now apply occurs_app_l|].
  apply occurs_app_r. induction rest as [|x rest IH]; [contradiction|].
  cbn [flat_map]. destruct Hin as [<- | Hin].
  - apply occurs_cons. now apply occurs_app_l.
  - apply (occurs_app_r text (nl :: x)). now apply IH.
Qed.

(** What the two "not found" markups say: the heading, the two ids and the
    sentence; the page for display is a page of its own with a title and a
    status comment, the block for storage is the bare [div]. *)
Lemma not_found_markup elementId placeholderId :
  Forall (fun text =>
            occurs text (createNotFoundComponentHTML elementId placeholderId)
            /\ occurs text (notFoundHtml elementId placeholderId))
         [lit ">Component Not Found</h2>";
          lit "<p><strong>Original ID:</strong> " ++ elementId ++ lit "</p>";
          lit "<p><strong>Placeholder ID:</strong> " ++ placeholderId
            ++ lit "</p>";
          lit "<p>This component was not found in the source HTML.</p>"]
  /\ starts (lit "<!DOCTYPE html>")
            (createNotFoundComponentHTML elementId placeholderId) = true
  /\ occurs (lit "<title>Component Not Found: " ++ elementId ++ lit "</title>")
            (createNotFoundComponentHTML elementId placeholderId)
  /\ occurs (lit "<!-- STATUS: NOT FOUND -->")
            (createNotFoundComponentHTML elementId placeholderId)
  /\ starts (lit "<div style=") (notFoundHtml elementId placeholderId) = true
  /\ createNotFoundComponentHTML elementId placeholderId
     <> notFoundHtml elementId placeholderId.
Proof.
  unfold createNotFoundComponentHTML, notFoundHtml, shell.
  repeat split.
  - constructor; [|constructor; [|constructor; [|constructor; [|constructor]]]];
      split.
    + eapply occurs_in_line;
        [cbn [app In]; do 12 right; left; reflexivity|].
      apply includes_iff. reflexivity.
    + eapply occurs_in_line;
        [cbn [In]; do 1 right; left; reflexivity|].
      apply includes_iff. reflexivity.
    + eapply occurs_in_line;
        [cbn [app In]; do 13 right; left; reflexivity|].
      cbn [lit list_ascii_of_string app]. do 8 apply occurs_cons.
      apply occurs_self.
    + eapply occurs_in_line;
        [cbn [In]; do 2 right; left; reflexivity|].
      cbn [lit list_ascii_of_string app]. do 2 apply occurs_cons.
      apply occurs_self.
    + eapply occurs_in_line;
        [cbn [app In]; do 14 right; left; reflexivity|].
      cbn [lit list_ascii_of_string app]. do 8 apply occurs_cons.
      apply occurs_self.
    + eapply occurs_in_line;
        [cbn [In]; do 3 right; left; reflexivity|].
      cbn [lit list_ascii_of_string app]. do 2 apply occurs_cons.
      apply occurs_self.
    + eapply occurs_in_line;
        [cbn [app In]; do 15 right; left; reflexivity|].
      apply includes_iff. reflexivity.
    + eapply occurs_in_line;
        [cbn [In]; do 4 right; left; reflexivity|].
      apply includes_iff. reflexivity.
  - eapply occurs_in_line;
      [cbn [app In]; do 5 right; left; reflexivity|].
    cbn [lit list_ascii_of_string app]. do 4 apply occurs_cons.
    apply occurs_self.
  - eapply occurs_in_line;
      [cbn [app In]; do 10 right; left; reflexivity|].
    apply includes_iff. reflexivity.
  - intro H. cbn [lines app lit list_ascii_of_string] in H. discriminate.
Qed.

(** C7. A target whose id no element of the document carries: the turn
    leaves the document as it is and writes "Target ID not found"; it
    records a fragment with [found = false], no children and the "not found"
    page as markup, and saves the "not found" block; both markups carry the
    heading "Component Not Found", the id of the target, the token and the
    sentence that the component was not found, the page for display being a
    page of its own and not the block that is stored; and the counter moves
    to the next number all the same. *)
Theorem C7_absent_target_reserves_a_token :
  forall st targetId,
    present (has_id targetId) (doc st) = false ->
    doc (target_step st targetId) = doc st
    /\ placeholderCounter (target_step st targetId) = S (placeholderCounter st)
    /\ console (target_step st targetId)
       = console st ++ [Target_not_found targetId]
    /\ extractedComponents (target_step st targetId)
       = extractedComponents st ++
         [{| placeholderId := wigoh_id (placeholderCounter st);
             originalId := targetId;
             type := target_id;
             found := false;
             componentHtml :=
               createNotFoundComponentHTML
                 targetId (wigoh_id (placeholderCounter st));
             childrenCount := 0 |}]
    /\ saved (target_step st targetId)
       = saved st ++
         [{| placeholder_id := wigoh_id (placeholderCounter st);
             original_id := targetId;
             row_type := target_id;
             html_content :=
               notFoundHtml targetId (wigoh_id (placeholderCounter st)) |}]
    /\ Forall (fun text =>
                 occurs text (createNotFoundComponentHTML
                                targetId (wigoh_id (placeholderCounter st)))
                 /\ occurs text (notFoundHtml
                                   targetId (wigoh_id (placeholderCounter st))))
              [lit ">Component Not Found</h2>";
               lit "<p><strong>Original ID:</strong> " ++ targetId ++ lit "</p>";
               lit "<p><strong>Placeholder ID:</strong> "
                 ++ wigoh_id (placeholderCounter st) ++ lit "</p>";
               lit "<p>This component was not found in the source HTML.</p>"]
    /\ starts (lit "<!DOCTYPE html>")
              (createNotFoundComponentHTML
                 targetId (wigoh_id (placeholderCounter st))) = true
    /\ occurs (lit "<title>Component Not Found: " ++ targetId ++ lit "</title>")
              (createNotFoundComponentHTML
                 targetId (wigoh_id (placeholderCounter st)))
    /\ occurs (lit "<!-- STATUS: NOT FOUND -->")
              (createNotFoundComponentHTML
                 targetId (wigoh_id (placeholderCounter st)))
    /\ starts (lit "<div style=")
              (notFoundHtml targetId (wigoh_id (placeholderCounter st))) = true
    /\ createNotFoundComponentHTML targetId (wigoh_id (placeholderCounter st))
       <> notFoundHtml targetId (wigoh_id (placeholderCounter st)).
Proof.
  intros st targetId Habsent.
  destruct (not_found_markup targetId (wigoh_id (placeholderCounter st)))
    as [M1 [M2 [M3 [M4 [M5 M6]]]]].
  unfold target_step.
  rewrite (select_absent_forest _ _ Habsent).
  cbn [doc placeholderCounter console extractedComponents saved].
  repeat split; assumption.
Qed.

Lemma C7_witness :
  doc (target_step (initial scenario_page) "pinnedTopLeft") = scenario_page
  /\ placeholderCounter (target_step (initial scenario_page) "pinnedTopLeft") = 2
  /\ map (fun c => (found c, componentHtml c))
         (extractedComponents
            (target_step (initial scenario_page) "pinnedTopLeft"))
     = [(false,
         lines
           [lit "<!DOCTYPE html>";
            lit "<html lang=" ++ [dq] ++ lit "en" ++ [dq] ++ lit ">";
            lit "<head>";
            lit "    <meta charset=" ++ [dq] ++ lit "UTF-8" ++ [dq] ++ lit ">";
            lit "    <meta name=" ++ [dq] ++ lit "viewport" ++ [dq]
              ++ lit " content=" ++ [dq]
              ++ lit "width=device-width, initial-scale=1.0" ++ [dq] ++ lit ">";
            lit "    <title>Component Not Found: pinnedTopLeft</title>";
            lit "</head>";
            lit "<body>";
            lit "    <!-- Placeholder ID: wigoh-id-001 -->";
            lit "    <!-- Original ID: pinnedTopLeft -->";
            lit "    <!-- STATUS: NOT FOUND -->";
            lit "    <div style=" ++ [dq]
              ++ lit "padding: 20px; border: 2px dashed red; background: #fff3f3;"
              ++ [dq] ++ lit ">";
            lit "        <h2 style=" ++ [dq] ++ lit "color: red;" ++ [dq]
              ++ lit ">Component Not Found</h2>";
            lit "        <p><strong>Original ID:</strong> pinnedTopLeft</p>";
            lit "        <p><strong>Placeholder ID:</strong> wigoh-id-001</p>";
            lit "        <p>This component was not found in the source HTML.</p>";
            lit "    </div>";
            lit "</body>";
            lit "</html>"])]
  /\ map html_content
         (saved (target_step (initial scenario_page) "pinnedTopLeft"))
     = [lines
          [lit "<div style=" ++ [dq]
             ++ lit "padding: 20px; border: 2px dashed red; background: #fff3f3;"
             ++ [dq] ++ lit ">";
           lit "  <h2 style=" ++ [dq] ++ lit "color: red;" ++ [dq]
             ++ lit ">Component Not Found</h2>";
           lit "  <p><strong>Original ID:</strong> pinnedTopLeft</p>";
           lit "  <p><strong>Placeholder ID:</strong> wigoh-id-001</p>";
           lit "  <p>This component was not found in the source HTML.</p>";
           lit "</div>"]].
Proof.
  destruct (C7_absent_target_reserves_a_token
              (initial scenario_page) "pinnedTopLeft" eq_refl)
    as [H1 [H2 [_ [H4 [H5 _]]]]].
  split; [exact H1|]. split; [exact H2|]. split.
  - rewrite H4. reflexivity.
  - rewrite H5. reflexivity.
Defined.

(** *** The order of the components *)

Lemma target_step_adds st targetId :
  exists c,
    extractedComponents (target_step st targetId) = extractedComponents st ++ [c]
    /\ placeholderId c = wigoh_id (placeholderCounter st)
    /\ originalId c = targetId /\ type c = target_id
    /\ placeholderCounter (target_step st targetId) = S (placeholderCounter st).
Proof.
  unfold target_step.
  destruct (flat_map (select (has_id targetId)) (doc st));
    eexists; simpl; repeat split.
Qed.

Lemma section_step_adds doc0 st turn :
  exists l,
    extractedComponents (section_step doc0 st turn) = extractedComponents st ++ l
    /\ Forall (section_fragment (placeholderCounter st)) l
    /\ placeholderCounter st <= placeholderCounter (section_step doc0 st turn).
Proof.
  unfold section_step. destruct turn as [index p].
  assert (Hsame : exists l,
             extractedComponents st = extractedComponents st ++ l
             /\ Forall (section_fragment (placeholderCounter st)) l
             /\ placeholderCounter st <= placeholderCounter st).
  { exists []. rewrite app_nil_r. auto. }
  destruct (node_at doc0 p) as [[d|d|d|name0 attribs0 kids0]|]; try exact Hsame.
  destruct (existsb (is_section_at doc0) (parents (detached st) p)); [exact Hsame|].
  destruct (mem (section_id attribs0 index) (processedSections st)); [exact Hsame|].
  destruct (node_at (doc st) p) as [[d|d|d|name attribs kids]|]; try exact Hsame.
  eexists. simpl. split; [reflexivity|]. split; [|lia].
  constructor; [|constructor]. split; [reflexivity|].
  exists (placeholderCounter st). auto.
Qed.

Lemma sections_add doc0 turns0 :
  forall st,
    exists l,
      extractedComponents (fold_left (section_step doc0) turns0 st)
      = extractedComponents st ++ l
      /\ Forall (section_fragment (placeholderCounter st)) l.
Proof.
  induction turns0 as [|t turns0 IH]; intros st; simpl.
  - exists []. rewrite app_nil_r. auto.
  - destruct (section_step_adds doc0 st t) as [l1 [H1 [F1 Hle]]].
    destruct (IH (section_step doc0 st t)) as [l2 [H2 F2]].
    exists (l1 ++ l2). rewrite H2, H1, app_assoc. split; [reflexivity|].
    apply Forall_app. split; [exact F1|].
    eapply Forall_impl; [|exact F2].
    intros c [Hc [n [Hn Hp]]]. split; [exact Hc|]. exists n. split; [lia | exact Hp].
Qed.

(** C10. Whatever the page, the components start with the three named
    targets, in the order [pinnedTopLeft], [pinnedTopRight],
    [pinnedBottomLeft] and under the tokens 001 to 003; all that follows is
    sections, with token numbers from 4 on. *)
Theorem C10_three_targets_first :
  forall document,
    exists c1 c2 c3 rest,
      components (extractComponents document) = c1 :: c2 :: c3 :: rest
      /\ (type c1 = target_id /\ originalId c1 = lit "pinnedTopLeft"
          /\ placeholderId c1 = lit "wigoh-id-001")
      /\ (type c2 = target_id /\ originalId c2 = lit "pinnedTopRight"
          /\ placeholderId c2 = lit "wigoh-id-002")
      /\ (type c3 = target_id /\ originalId c3 = lit "pinnedBottomLeft"
          /\ placeholderId c3 = lit "wigoh-id-003")
      /\ Forall (section_fragment 4) rest.
Proof.
  intro document. unfold extractComponents, extraction, process_sections.
  cbn [components].
  set (st0 := initial document).
  unfold process_targets, targetIds. cbn [map fold_left].
  destruct (target_step_adds st0 (lit "pinnedTopLeft"))
    as [c1 [E1 [P1 [O1 [T1 N1]]]]].
  set (st1 := target_step st0 (lit "pinnedTopLeft")) in *.
  destruct (target_step_adds st1 (lit "pinnedTopRight"))
    as [c2 [E2 [P2 [O2 [T2 N2]]]]].
  set (st2 := target_step st1 (lit "pinnedTopRight")) in *.
  destruct (target_step_adds st2 (lit "pinnedBottomLeft"))
    as [c3 [E3 [P3 [O3 [T3 N3]]]]].
  set (st3 := target_step st2 (lit "pinnedBottomLeft")) in *.
  unfold run.
  destruct (sections_add (doc st3) (combine (seq 0 (List.length (select_paths is_section (doc st3)))) (select_paths is_section (doc st3))) st3) as [rest [E4 F4]].
  exists c1, c2, c3, rest.
  rewrite E4, E3, E2, E1. cbn [st0 initial extractedComponents app].
  rewrite N3, N2, N1 in F4. rewrite N2, N1 in P3. rewrite N1 in P2.
  repeat split; auto.
Qed.

(** *** The loop over the sections *)

Import PathFacts.

Lemma mem_path_In q l : mem_path q l = true <-> In q l.
Proof.
  unfold mem_path. rewrite existsb_exists. split.
  - intros [x [Hx E]]. unfold path_eqb in E.
    destruct (list_eq_dec Nat.eq_dec q x); [now subst | discriminate].
  - intro H. exists q. split; [exact H|]. unfold path_eqb.
    destruct (list_eq_dec Nat.eq_dec q q); [reflexivity | contradiction].
Qed.

Lemma cut_after_sub detached qs q : In q (cut_after detached qs) -> In q qs.
Proof.
  induction qs as [|x qs IH]; simpl; [auto|].
  destruct (mem_path x detached); simpl; intuition.
Qed.

Lemma top_level_iff doc0 p :
  top_level doc0 p = true <->
  forall q, In q (proper_prefixes p) -> is_section_at doc0 q = false.
Proof.
  unfold top_level, is_section_at. rewrite forallb_forall. split; intros H q Hq.
  - apply H in Hq. now apply negb_true_iff in Hq.
  - apply negb_true_iff. now apply H.
Qed.

Lemma skipn_nth_error {A} (l : list A) i x :
  nth_error l i = Some x -> skipn i l = x :: skipn (S i) l.
Proof.
  revert i. induction l as [|y l IH]; intros [|i] H; try discriminate.
  - now inversion H.
  - simpl in H. simpl. now apply IH.
Qed.

Section Loop.

Variable doc0 : forest.
Variable all : list path.
Hypothesis all_distinct : NoDup all.
Hypothesis all_sections : forall q, In q all -> is_section_at doc0 q = true.

Local Abbreviation inv := (ComponentExtraction.inv doc0 all).

Lemma nested_seen st p q :
  Forall (fun q => is_section_at doc0 q = true) (detached st) ->
  In q (proper_prefixes p) -> is_section_at doc0 q = true ->
  existsb (is_section_at doc0) (parents (detached st) p) = true.
Proof.
  intros Hdet Hq Hsec. unfold parents.
  apply in_rev in Hq. revert Hq.
  generalize (rev (proper_prefixes p)) as qs.
  induction qs as [|x qs IH]; intro Hq; [contradiction|].
  simpl. destruct (mem_path x (detached st)) eqn:E.
  - apply mem_path_In in E. rewrite Forall_forall in Hdet.
    simpl. now rewrite (Hdet x E).
  - simpl. destruct Hq as [-> | Hq]; [now rewrite Hsec|].
    rewrite (IH Hq). apply orb_true_r.
Qed.

Lemma not_nested_top st p :
  Forall (fun q => is_section_at doc0 q = true) (detached st) ->
  existsb (is_section_at doc0) (parents (detached st) p) = false ->
  top_level doc0 p = true.
Proof.
  intros Hdet H. apply top_level_iff. intros q Hq.
  destruct (is_section_at doc0 q) eqn:E; [|reflexivity].
  rewrite (nested_seen st p q Hdet Hq E) in H. discriminate.
Qed.

Lemma top_not_nested st p :
  top_level doc0 p = true ->
  existsb (is_section_at doc0) (parents (detached st) p) = false.
Proof.
  intro Htop. rewrite top_level_iff in Htop.
  destruct (existsb _ _) eqn:E; [|reflexivity].
  apply existsb_exists in E. destruct E as [q [Hq Hs]].
  apply cut_after_sub in Hq. apply in_rev in Hq.
  rewrite (Htop q Hq) in Hs. discriminate.
Qed.

Lemma section_node q :
  is_section_at doc0 q = true ->
  exists name attribs kids, node_at doc0 q = Some (Element name attribs kids).
Proof.
  unfold is_section_at. destruct (node_at doc0 q) as [[d|d|d|name attribs kids]|];
    try discriminate. intros _. now exists name, attribs, kids.
Qed.

Lemma skipn_nth i p :
  nth_error all i = Some p -> skipn i all = p :: skipn (S i) all.
Proof. apply skipn_nth_error. Qed.

Lemma later_distinct i p p' :
  nth_error all i = Some p -> In p' (skipn (S i) all) -> p <> p'.
Proof.
  intros Hi Hin ->.
  pose proof (skipn_nth i p' Hi) as E.
  pose proof all_distinct as Hnd.
  rewrite <- (firstn_skipn i all), E in Hnd.
  apply NoDup_app_remove_l in Hnd. inversion Hnd. contradiction.
Qed.

Lemma in_skipn_all i p : In p (skipn i all) -> In p all.
Proof. intro H. rewrite <- (firstn_skipn i all). apply in_or_app. now right. Qed.

Lemma nonempty_section q : is_section_at doc0 q = true -> q <> [].
Proof. intros H ->. discriminate. Qed.

Lemma inv_log i p e st :
  nth_error all i = Some p -> inv i st -> inv (S i) (log e st).
Proof.
  intros Hi [I1 [I2 I3]]. split; [exact I1|]. split.
  - intros p' Hp'. apply I2. rewrite (skipn_nth i p Hi). now right.
  - intros sid Hsid. destruct (I3 sid Hsid) as [j [pj [n [a [k [Hj H]]]]]].
    exists j, pj, n, a, k. split; [lia | exact H].
Qed.

Lemma inv_same i p st :
  nth_error all i = Some p -> inv i st -> inv (S i) st.
Proof.
  intros Hi [I1 [I2 I3]]. split; [exact I1|]. split.
  - intros p' Hp'. apply I2. rewrite (skipn_nth i p Hi). now right.
  - intros sid Hsid. destruct (I3 sid Hsid) as [j [pj [n [a [k [Hj H]]]]]].
    exists j, pj, n, a, k. split; [lia | exact H].
Qed.

Lemma inv_extract i p st name0 attribs0 kids0 name attribs kids :
  nth_error all i = Some p -> inv i st ->
  node_at doc0 p = Some (Element name0 attribs0 kids0) ->
  top_level doc0 p = true ->
  inv (S i) (extract_section st p (section_id attribs0 i) name attribs kids).
Proof.
  intros Hi [I1 [I2 I3]] Hnode Htop.
  assert (Hp : is_section_at doc0 p = true)
    by (apply all_sections; eapply nth_error_In; eassumption).
  split; [|split].
  - cbn [extract_section detached]. constructor; assumption.
  - intros p' Hp' Htop'. cbn [extract_section doc].
    rewrite node_at_update_other.
    + apply I2; [|exact Htop']. rewrite (skipn_nth i p Hi). now right.
    + intros [r Hr].
      assert (r <> []).
      { intros ->. rewrite app_nil_r in Hr.
        apply (later_distinct i p p' Hi Hp'). now symmetry. }
      rewrite top_level_iff in Htop'.
      rewrite (Htop' p) in Hp; [discriminate|].
      apply in_proper_prefixes. split; [now apply nonempty_section|].
      now exists r.
    + intros [r Hr].
      assert (r <> []).
      { intros ->. rewrite app_nil_r in Hr.
        now apply (later_distinct i p p' Hi Hp'). }
      assert (Hs' : is_section_at doc0 p' = true)
        by (apply all_sections; eapply in_skipn_all; eassumption).
      rewrite top_level_iff in Htop.
      rewrite (Htop p') in Hs'; [discriminate|].
      apply in_proper_prefixes. split; [now apply nonempty_section|].
      now exists r.
  - intros sid Hsid. cbn [extract_section processedSections] in Hsid.
    apply in_app_or in Hsid. destruct Hsid as [Hsid | [<- | []]].
    + destruct (I3 sid Hsid) as [j [pj [n [a [k [Hj H]]]]]].
      exists j, pj, n, a, k. split; [lia | exact H].
    + exists i, p, name0, attribs0, kids0. auto.
Qed.

Lemma step_inv i p st :
  nth_error all i = Some p -> inv i st ->
  inv (S i) (section_step doc0 st (i, p)).
Proof.
  intros Hi Hinv. unfold section_step.
  destruct (node_at doc0 p) as [[d|d|d|name0 attribs0 kids0]|] eqn:Hnode;
    try (eapply inv_same; eassumption).
  destruct (existsb (is_section_at doc0) (parents (detached st) p)) eqn:En;
    [eapply inv_log; eassumption|].
  destruct (mem (section_id attribs0 i) (processedSections st));
    [eapply inv_log; eassumption|].
  destruct (node_at (doc st) p) as [[d|d|d|name attribs kids]|];
    try (eapply inv_same; eassumption).
  eapply inv_extract; try eassumption.
  eapply not_nested_top; [apply Hinv | exact En].
Qed.

(** A section below a section is passed over. *)
Lemma step_nested i p q st name attribs kids :
  inv i st ->
  node_at doc0 p = Some (Element name attribs kids) ->
  In q (proper_prefixes p) -> is_section_at doc0 q = true ->
  section_step doc0 st (i, p) = log (Skipping_nested (section_id attribs i)) st.
Proof.
  intros [I1 _] Hnode Hq Hsec. unfold section_step. rewrite Hnode.
  now rewrite (nested_seen st p q I1 Hq Hsec).
Qed.

Lemma mem_false x l : mem x l = false <-> ~ In x l.
Proof.
  unfold mem. split.
  - intros H Hin. assert (E : existsb (str_eqb x) l = true).
    { apply existsb_exists. exists x. split; [exact Hin | apply str_eqb_refl]. }
    congruence.
  - intro H. destruct (existsb (str_eqb x) l) eqn:E; [|reflexivity].
    apply existsb_exists in E. destruct E as [y [Hy E]].
    apply str_eqb_eq in E. subst y. contradiction.
Qed.

(** A top-level section with an id not seen at an earlier turn is
    extracted. *)
Lemma step_found i p st name attribs kids :
  nth_error all i = Some p -> inv i st ->
  node_at doc0 p = Some (Element name attribs kids) ->
  top_level doc0 p = true ->
  (forall j pj n a k,
      j < i -> nth_error all j = Some pj ->
      node_at doc0 pj = Some (Element n a k) ->
      section_id a j <> section_id attribs i) ->
  section_step doc0 st (i, p)
  = extract_section st p (section_id attribs i) name attribs kids.
Proof.
  intros Hi [I1 [I2 I3]] Hnode Htop Hfresh. unfold section_step.
  rewrite Hnode, (top_not_nested st p Htop).
  assert (E : mem (section_id attribs i) (processedSections st) = false).
  { apply mem_false. intro Hin.
    destruct (I3 _ Hin) as [j [pj [n [a [k [Hj [Hpj [Hn Heq]]]]]]]].
    apply (Hfresh j pj n a k Hj Hpj Hn). now symmetry. }
  rewrite E, I2, Hnode; [reflexivity | | exact Htop].
  rewrite (skipn_nth i p Hi). now left.
Qed.

Lemma run_cons i p ps st :
  run doc0 i (p :: ps) st = run doc0 (S i) ps (section_step doc0 st (i, p)).
Proof. reflexivity. Qed.

Lemma run_app l1 :
  forall l2 i st,
    run doc0 i (l1 ++ l2) st
    = run doc0 (i + List.length l1) l2 (run doc0 i l1 st).
Proof.
  induction l1 as [|p l1 IH]; intros l2 i st.
  - simpl. now rewrite Nat.add_0_r.
  - change ((p :: l1) ++ l2) with (p :: (l1 ++ l2)).
    rewrite !run_cons, IH. simpl. now rewrite Nat.add_succ_r.
Qed.

Lemma grows_refl st : grows st st.
Proof. exists [], [], []. now rewrite !app_nil_r. Qed.

Lemma grows_trans a b c : grows a b -> grows b c -> grows a c.
Proof.
  intros [e1 [s1 [c1 [H1 [H2 H3]]]]] [e2 [s2 [c2 [H4 [H5 H6]]]]].
  exists (e1 ++ e2), (s1 ++ s2), (c1 ++ c2).
  rewrite H4, H5, H6, H1, H2, H3. now rewrite !app_assoc.
Qed.

Lemma log_grows e st : grows st (log e st).
Proof. exists [e], [], []. simpl. now rewrite !app_nil_r. Qed.

Lemma step_grows st turn : grows st (section_step doc0 st turn).
Proof.
  unfold section_step. destruct turn as [index p].
  destruct (node_at doc0 p) as [[d|d|d|name0 attribs0 kids0]|];
    try apply grows_refl.
  destruct (existsb _ _); [apply log_grows|].
  destruct (mem _ _); [apply log_grows|].
  destruct (node_at (doc st) p) as [[d|d|d|name attribs kids]|];
    try apply grows_refl.
  eexists _, _, _. cbn [extract_section console saved extractedComponents].
  repeat split.
Qed.

Lemma run_grows ps : forall i st, grows st (run doc0 i ps st).
Proof.
  induction ps as [|p ps IH]; intros i st; [apply grows_refl|].
  rewrite run_cons. eapply grows_trans; [apply step_grows | apply IH].
Qed.

Lemma step_one_event i p st :
  nth_error all i = Some p -> inv i st ->
  exists e, console (section_step doc0 st (i, p)) = console st ++ [e].
Proof.
  intros Hi Hinv. unfold section_step.
  destruct (section_node p (all_sections p (nth_error_In _ _ Hi)))
    as [name0 [attribs0 [kids0 Hnode]]].
  rewrite Hnode.
  destruct (existsb (is_section_at doc0) (parents (detached st) p)) eqn:En;
    [eexists; reflexivity|].
  destruct (mem _ _); [eexists; reflexivity|].
  destruct Hinv as [I1 [I2 _]].
  rewrite I2, Hnode.
  - eexists. reflexivity.
  - rewrite (skipn_nth i p Hi). now left.
  - eapply not_nested_top; eassumption.
Qed.

Lemma skipn_head i p rest :
  skipn i all = p :: rest -> nth_error all i = Some p /\ skipn (S i) all = rest.
Proof.
  intro H. assert (E : nth_error all i = Some p).
  { rewrite <- (firstn_skipn i all), H.
    assert (Hl : List.length (firstn i all) = i).
    { apply firstn_length_le. apply Nat.lt_le_incl.
      apply Nat.nle_gt. intro Hle. rewrite skipn_all2 in H by exact Hle.
      discriminate. }
    rewrite nth_error_app2 by lia. rewrite Hl, Nat.sub_diag. reflexivity. }
  split; [exact E|]. rewrite (skipn_nth i p E) in H. now inversion H.
Qed.

Lemma run_prefix ps :
  forall rest i st,
    skipn i all = ps ++ rest -> inv i st ->
    inv (i + List.length ps) (run doc0 i ps st)
    /\ exists es, console (run doc0 i ps st) = console st ++ es
                   /\ List.length es = List.length ps.
Proof.
  induction ps as [|p ps IH]; intros rest i st Hskip Hinv.
  - simpl. rewrite Nat.add_0_r. split; [exact Hinv|].
    exists []. now rewrite app_nil_r.
  - destruct (skipn_head i p (ps ++ rest) Hskip) as [Hi Hnext].
    rewrite run_cons.
    destruct (step_one_event i p st Hi Hinv) as [e He].
    destruct (IH rest (S i) _ Hnext (step_inv i p st Hi Hinv)) as [Hinv' [es [Hes Hlen]]].
    simpl List.length. rewrite Nat.add_succ_r. split; [exact Hinv'|].
    exists (e :: es). rewrite Hes, He, <- app_assoc. simpl. auto.
Qed.






End Loop.

(** *** After the named targets *)

Lemma target_step_frame st targetId :
  detached (target_step st targetId) = detached st
  /\ processedSections (target_step st targetId) = processedSections st
  /\ section_keys (extractedComponents (target_step st targetId))
     = section_keys (extractedComponents st)
  /\ announced (console (target_step st targetId)) = announced (console st)
  /\ List.length (console (target_step st targetId)) = S (List.length (console st)).
Proof.
  unfold target_step, section_keys, announced.
  destruct (flat_map (select (has_id targetId)) (doc st));
    cbn [detached processedSections extractedComponents console];
    rewrite !flat_map_app, !length_app; simpl; rewrite !app_nil_r;
    repeat split; lia.
Qed.

Lemma process_targets_frame document :
  detached (process_targets (initial document)) = []
  /\ processedSections (process_targets (initial document)) = []
  /\ section_keys (extractedComponents (process_targets (initial document)))
     = []
  /\ announced (console (process_targets (initial document))) = []
  /\ List.length (console (process_targets (initial document))) = 3.
Proof.
  unfold process_targets, targetIds. cbn [map fold_left].
  set (st0 := initial document).
  destruct (target_step_frame st0 (lit "pinnedTopLeft")) as [A1 [B1 [C1 [D1 E1]]]].
  set (st1 := target_step st0 (lit "pinnedTopLeft")) in *.
  destruct (target_step_frame st1 (lit "pinnedTopRight")) as [A2 [B2 [C2 [D2 E2]]]].
  set (st2 := target_step st1 (lit "pinnedTopRight")) in *.
  destruct (target_step_frame st2 (lit "pinnedBottomLeft")) as [A3 [B3 [C3 [D3 E3]]]].
  rewrite A3, A2, A1, B3, B2, B1, C3, C2, C1, D3, D2, D1, E3, E2, E1.
  repeat split.
Qed.

Lemma nth_error_middle {A} (a b : list A) e :
  nth_error ((a ++ [e]) ++ b) (List.length a) = Some e.
Proof.
  rewrite <- app_assoc. rewrite nth_error_app2 by lia.
  now rewrite Nat.sub_diag.
Qed.

Lemma sections_are_sections doc1 q :
  In q (select_paths is_section doc1) -> is_section_at doc1 q = true.
Proof.
  intro H. apply select_paths_spec in H. destruct H as [m [Hm Hs]].
  unfold is_section_at. now rewrite Hm.
Qed.

Lemma inv_start st :
  detached st = [] -> processedSections st = [] ->
  inv (doc st) (select_paths is_section (doc st)) 0 st.
Proof.
  intros Hd Hp. split; [|split].
  - rewrite Hd. constructor.
  - reflexivity.
  - rewrite Hp. intros sid [].
Qed.




(** *** The tokens of the components *)

Lemma numbered_add st st' c r :
  numbered st ->
  extractedComponents st' = extractedComponents st ++ [c] ->
  saved st' = saved st ++ [r] ->
  placeholderCounter st' = S (placeholderCounter st) ->
  placeholderId c = wigoh_id (placeholderCounter st) ->
  row_key r = component_key c ->
  numbered st'.
Proof.
  intros [H1 [H2 H3]] Hc Hs Hn Hid Hkey. unfold numbered.
  rewrite Hc, Hs, Hn, !map_app, length_app, H1, H3. cbn [map List.length].
  rewrite Nat.add_1_r, seq_S, map_app. cbn [map].
  rewrite Hid, H2, Hkey. cbn [Nat.add]. auto.
Qed.

Lemma target_step_numbered st targetId :
  numbered st -> numbered (target_step st targetId).
Proof.
  intro H. unfold target_step.
  destruct (flat_map (select (has_id targetId)) (doc st));
    eapply numbered_add; try exact H; reflexivity.
Qed.

Lemma section_step_numbered doc0 st turn :
  numbered st -> numbered (section_step doc0 st turn).
Proof.
  intro H. unfold section_step. destruct turn as [index p].
  destruct (node_at doc0 p) as [[d|d|d|name0 attribs0 kids0]|]; try exact H.
  destruct (existsb _ _); [exact H|].
  destruct (mem _ _); [exact H|].
  destruct (node_at (doc st) p) as [[d|d|d|name attribs kids]|]; try exact H.
  eapply numbered_add; try exact H; reflexivity.
Qed.

Lemma fold_numbered {A} (step : state -> A -> state) l :
  (forall st x, numbered st -> numbered (step st x)) ->
  forall st, numbered st -> numbered (fold_left step l st).
Proof.
  intro Hstep. induction l as [|x l IH]; intros st H; simpl; auto.
Qed.

Lemma extraction_numbered document : numbered (extraction document).
Proof.
  unfold extraction, process_sections, run, process_targets.
  apply fold_numbered; [intros; now apply section_step_numbered|].
  apply fold_numbered; [intros; now apply target_step_numbered|].
  repeat split.
Qed.

(** X11. The tokens of the components are [wigoh-id-001], [wigoh-id-002], ... in
    the order of the list, with no gap and no repeat, and the rows saved are
    the components, one for one, under the same token, id and kind. *)
Theorem component_tokens_are_consecutive :
  forall document,
    map placeholderId (components (extractComponents document))
    = map wigoh_id
          (seq 1 (List.length (components (extractComponents document))))
    /\ NoDup (map placeholderId (components (extractComponents document)))
    /\ map row_key (saved (extraction document))
       = map component_key (components (extractComponents document)).
Proof.
  intro document. destruct (extraction_numbered document) as [H1 [_ H3]].
  cbn [components extractComponents]. split; [exact H1|]. split; [|exact H3].
  rewrite H1. apply nodup_map; [apply wigoh_id_inj | apply seq_NoDup].
Qed.

(** *** Ids of the sections *)

Lemma section_step_ids_once doc0 st turn :
  ids_once st -> ids_once (section_step doc0 st turn).
Proof.
  intros [H1 H2]. unfold section_step. destruct turn as [index p].
  destruct (node_at doc0 p) as [[d|d|d|name0 attribs0 kids0]|];
    try (split; assumption).
  destruct (existsb _ _); [split; assumption|].
  destruct (mem (section_id attribs0 index) (processedSections st)) eqn:E;
    [split; assumption|].
  destruct (node_at (doc st) p) as [[d|d|d|name attribs kids]|];
    try (split; assumption).
  apply mem_false in E. unfold ids_once, section_keys.
  cbn [extract_section extractedComponents processedSections].
  rewrite flat_map_app, map_app. cbn. split.
  - unfold section_keys in H1. now rewrite H1.
  - apply NoDup_app; [exact H2 | repeat constructor; intros [] |].
    intros x Hx [<- | []]. contradiction.
Qed.

Lemma run_ids_once doc0 turns :
  forall st, ids_once st -> ids_once (fold_left (section_step doc0) turns st).
Proof.
  induction turns as [|t turns IH]; intros st H; [exact H|].
  simpl. apply IH. now apply section_step_ids_once.
Qed.

(** X12. No two section fragments have the same original id: a section whose id
    was processed before is passed over. *)
Theorem section_ids_are_distinct :
  forall document,
    NoDup (map fst (section_keys (components (extractComponents document)))).
Proof.
  intro document. cbn [components extractComponents].
  assert (H : ids_once (extraction document)).
  { unfold extraction, process_sections, run. apply run_ids_once.
    destruct (process_targets_frame document) as [_ [Hp [Hk _]]].
    unfold ids_once. rewrite Hk, Hp. split; [reflexivity | constructor]. }
  destruct H as [H1 H2]. now rewrite H1.
Qed.

(** *** A section id met again *)

Section Seen.

Variable doc0 : forest.
Variable all : list path.
Hypothesis all_distinct : NoDup all.
Hypothesis all_sections : forall q, In q all -> is_section_at doc0 q = true.

Lemma mem_true x l : mem x l = true <-> In x l.
Proof.
  split.
  - intro H. destruct (in_dec (list_eq_dec ascii_dec) x l) as [Hin | Hn];
      [exact Hin|]. apply mem_false in Hn. congruence.
  - intro H. destruct (mem x l) eqn:E; [reflexivity|].
    apply mem_false in E. contradiction.
Qed.

Lemma processed_grow st turn sid :
  In sid (processedSections st) ->
  In sid (processedSections (section_step doc0 st turn)).
Proof.
  intro H. unfold section_step. destruct turn as [index p].
  destruct (node_at doc0 p) as [[d|d|d|name0 attribs0 kids0]|]; try exact H.
  destruct (existsb _ _); [exact H|].
  destruct (mem _ _); [exact H|].
  destruct (node_at (doc st) p) as [[d|d|d|name attribs kids]|]; try exact H.
  cbn [extract_section processedSections]. apply in_or_app. now left.
Qed.

Lemma step_seen i p st :
  nth_error all i = Some p ->
  inv doc0 all i st -> seen doc0 all i st ->
  seen doc0 all (S i) (section_step doc0 st (i, p)).
Proof.
  intros Hi Hinv Hseen j pj name attribs kids Hj Hpj Hnode Htop.
  destruct (Nat.eq_dec j i) as [-> | Hne].
  - rewrite Hi in Hpj. inversion Hpj; subst pj.
    unfold section_step. rewrite Hnode.
    rewrite (top_not_nested doc0 st p Htop).
    destruct (mem (section_id attribs i) (processedSections st)) eqn:E.
    + cbn [log processedSections]. now apply mem_true.
    + destruct Hinv as [_ [I2 _]].
      rewrite I2, Hnode; [| |exact Htop].
      * cbn [extract_section processedSections]. apply in_or_app. right. now left.
      * rewrite (skipn_nth_error all i p Hi). now left.
  - apply processed_grow.
    apply (Hseen j pj name attribs kids); try assumption. lia.
Qed.

Lemma run_seen ps :
  forall rest i st,
    skipn i all = ps ++ rest ->
    inv doc0 all i st -> seen doc0 all i st ->
    seen doc0 all (i + List.length ps) (run doc0 i ps st).
Proof.
  induction ps as [|p ps IH]; intros rest i st Hskip Hinv Hseen.
  - simpl. now rewrite Nat.add_0_r.
  - destruct (skipn_head all i p (ps ++ rest) Hskip) as [Hi Hnext].
    rewrite run_cons. simpl List.length. rewrite Nat.add_succ_r.
    apply (IH rest (S i) _ Hnext).
    + now apply step_inv.
    + now apply step_seen.
Qed.

(** The turn of a top-level section whose id an earlier top-level section
    had. *)
Lemma repeated_turn st iA iB pA pB nA aA kA nB aB kB :
  inv doc0 all 0 st -> seen doc0 all 0 st ->
  iA < iB ->
  nth_error all iA = Some pA -> nth_error all iB = Some pB ->
  node_at doc0 pA = Some (Element nA aA kA) ->
  node_at doc0 pB = Some (Element nB aB kB) ->
  top_level doc0 pA = true -> top_level doc0 pB = true ->
  section_id aA iA = section_id aB iB ->
  exists stk es,
    console stk = console st ++ es /\ List.length es = iB /\
    section_step doc0 stk (iB, pB) = log (Skipping_processed (section_id aB iB)) stk
    /\ grows (section_step doc0 stk (iB, pB)) (run doc0 0 all st).
Proof.
  intros Hinv Hseen Hlt HA HB HnA HnB HtA HtB Hid.
  destruct (nth_error_split all iB HB) as [l1 [l2 [Hall Hlen]]].
  destruct (run_prefix doc0 all all_distinct all_sections l1 (pB :: l2) 0 st
              Hall Hinv) as [Hinvk [es [Hes Hl]]].
  pose proof (run_seen l1 (pB :: l2) 0 st Hall Hinv Hseen) as Hseenk.
  exists (run doc0 0 l1 st), es. rewrite Hlen in *. cbn [Nat.add] in *.
  split; [exact Hes|]. split; [exact Hl|]. split.
  - unfold section_step. rewrite HnB, (top_not_nested doc0 _ pB HtB).
    assert (E : mem (section_id aB iB) (processedSections (run doc0 0 l1 st)) = true).
    { apply mem_true. rewrite <- Hid.
      apply (Hseenk iA pA nA aA kA Hlt HA HnA HtA). }
    now rewrite E.
  - rewrite Hall, run_app, run_cons. simpl. rewrite Hlen.
    apply run_grows.
Qed.

End Seen.

Lemma seen_start doc0 all st : seen doc0 all 0 st.
Proof. intros j pj name attribs kids Hj. lia. Qed.

(** X13. A top-level section whose id an earlier top-level section had is
    passed over: what the console has for its turn is "Skipping already
    processed section", with its id. *)
Theorem repeated_section_id_is_passed_over :
  forall document,
    let doc1 := doc (process_targets (initial document)) in
    let sections := select_paths is_section doc1 in
    forall iA iB pA pB nameA attribsA kidsA nameB attribsB kidsB,
      iA < iB ->
      nth_error sections iA = Some pA -> nth_error sections iB = Some pB ->
      node_at doc1 pA = Some (Element nameA attribsA kidsA) ->
      node_at doc1 pB = Some (Element nameB attribsB kidsB) ->
      top_level doc1 pA = true -> top_level doc1 pB = true ->
      section_id attribsA iA = section_id attribsB iB ->
      nth_error (console (extraction document)) (3 + iB)
      = Some (Skipping_processed (section_id attribsB iB)).
Proof.
  intros document doc1 sections iA iB pA pB nameA attribsA kidsA
         nameB attribsB kidsB Hlt HA HB HnA HnB HtA HtB Hid.
  destruct (process_targets_frame document) as [Hdet [Hproc [_ [_ Hlen]]]].
  set (st1 := process_targets (initial document)) in *.
  assert (Hnd : NoDup sections) by apply select_paths_nodup.
  assert (Hsec : forall q, In q sections -> is_section_at doc1 q = true)
    by apply sections_are_sections.
  assert (Hinv : inv doc1 sections 0 st1) by now apply inv_start.
  destruct (repeated_turn doc1 sections Hnd Hsec st1 iA iB pA pB
              nameA attribsA kidsA nameB attribsB kidsB
              Hinv (seen_start doc1 sections st1) Hlt HA HB HnA HnB HtA HtB Hid)
    as [stk [es [Hes [Hl [Hstep Hg]]]]].
  rewrite Hstep in Hg. destruct Hg as [es2 [_ [_ [Hc _]]]].
  change (extraction document) with (run doc1 0 sections st1).
  rewrite Hc. cbn [log console]. rewrite Hes.
  replace (3 + iB) with (List.length (console st1 ++ es))
    by (rewrite length_app; lia).
  apply nth_error_middle.
Qed.

Lemma repeated_section_id_witness :
  nth_error (console (extraction twin_page)) (3 + 1)
  = Some (Skipping_processed (lit "a")).
Proof.
  apply (repeated_section_id_is_passed_over twin_page 0 1 [0; 1; 0] [0; 1; 1; 0]
           (lit "section") [(lit "id", lit "a")] [Text "X"]
           (lit "section") [(lit "id", lit "a")] [Text "Y"]);
    try reflexivity. lia.
Defined.



(** *** What the cleaning removes *)

Lemma shallow_has_id id : shallow (has_id id).
Proof. split; [intros [] H; try reflexivity; discriminate | reflexivity]. Qed.

Lemma shallow_named tag : shallow (named tag).
Proof. split; [intros [] H; try reflexivity; discriminate | reflexivity]. Qed.

Lemma shallow_stylesheet : shallow is_stylesheet_link.
Proof. split; [intros [] H; try reflexivity; discriminate | reflexivity]. Qed.

(** *** What a removal, a replacement or a tag leaves absent *)

Lemma prune_keeps_absent q p n :
  shallow q -> anywhere q n = false -> anywhere q (prune p n) = false.
Proof.
  intros [Hq1 Hq2].
  induction n as [d|d|d|name attribs kids IH] using node_induction;
    try (intro H; exact H).
  cbn [anywhere prune]. intro H. apply orb_false_iff in H. destruct H as [Hh Hk].
  rewrite (Hq2 name attribs _ kids), Hh. cbn [orb]. clear Hh.
  induction IH as [|k kids Hk1 _ IHk]; [reflexivity|].
  cbn [existsb] in Hk. apply orb_false_iff in Hk. destruct Hk as [Hk2 Hk3].
  cbn [flat_map]. destruct (p k); cbn [app existsb]; [now apply IHk|].
  now rewrite (Hk1 Hk2), (IHk Hk3).
Qed.

Lemma prune_absent p n : shallow p -> p n = false -> anywhere p (prune p n) = false.
Proof.
  intros [Hp1 Hp2].
  induction n as [d|d|d|name attribs kids IH] using node_induction;
    try (intro H; cbn [prune anywhere]; now rewrite H).
  intro H. cbn [anywhere prune]. rewrite (Hp2 name attribs _ kids), H. cbn [orb].
  clear H. induction IH as [|k kids Hk1 _ IHk]; [reflexivity|].
  cbn [flat_map]. destruct (p k) eqn:E; cbn [app existsb]; [exact IHk|].
  now rewrite (Hk1 eq_refl), IHk.
Qed.

Lemma remove_absent p doc : shallow p -> present p (remove p doc) = false.
Proof.
  intro Hp. unfold present, remove.
  induction doc as [|k doc IH]; [reflexivity|].
  cbn [flat_map]. destruct (p k) eqn:E; cbn [app existsb]; [exact IH|].
  now rewrite (prune_absent p k Hp E), IH.
Qed.

Lemma remove_keeps_absent q p doc :
  shallow q -> present q doc = false -> present q (remove p doc) = false.
Proof.
  intro Hq. unfold present, remove.
  induction doc as [|k doc IH]; [reflexivity|].
  cbn [existsb]. intro H. apply orb_false_iff in H. destruct H as [H1 H2].
  cbn [flat_map]. destruct (p k); cbn [app existsb]; [now apply IH|].
  now rewrite (prune_keeps_absent q p k Hq H1), IH.
Qed.

Create HintDb shallows.
#[local] Hint Resolve shallow_has_id shallow_named shallow_stylesheet : shallows.

(** X16. "Cleaning HTML" leaves none of what it removes: no [script], [style],
    stylesheet [link], [meta], [title], [header], [footer] element and no
    element with the id [soapAfterPagesContainer] is in the document the body
    of the template is taken from. *)
Theorem cleaning_leaves_none_of_the_removed :
  forall document,
    Forall (fun p => present p (swept document) = false) removals
    /\ clean document
       = shell "Extracted Content with Placeholders"
               [bodyContent (swept document)].
Proof.
  intro document. split; [|reflexivity].
  unfold swept, removals. cbn [fold_left].
  repeat constructor;
    repeat first [ apply remove_absent; auto with shallows
                 | apply remove_keeps_absent; [auto with shallows|] ].
Qed.

(** *** The named targets leave the document *)

Lemma lookup_id_marked v attribs :
  lookup_attr "id" (set_attr "wig-id" v attribs) = lookup_attr "id" attribs.
Proof.
  induction attribs as [|[k' v'] rest IH]; [reflexivity|].
  cbn [set_attr]. destruct (str_eqb (lit "wig-id") k') eqn:E.
  - apply str_eqb_eq in E. subst k'. reflexivity.
  - cbn [lookup_attr]. now rewrite IH.
Qed.

Lemma mark_keeps_absent t p v n :
  anywhere (has_id t) n = false ->
  anywhere (has_id t) (mark p "wig-id" v n) = false.
Proof.
  induction n as [d|d|d|name attribs kids IH] using node_induction;
    try (intro H; exact H).
  cbn [anywhere mark]. intro H. apply orb_false_iff in H. destruct H as [Hh Hk].
  assert (E : has_id t (Element name
                          (if p (Element name attribs kids)
                           then set_attr "wig-id" v attribs else attribs)
                          (map (mark p "wig-id" v) kids)) = false).
  { destruct (p _); [|exact Hh]. cbn [has_id] in *. now rewrite lookup_id_marked. }
  rewrite E. cbn [orb]. clear E Hh.
  induction IH as [|k kids Hk1 _ IHk]; [reflexivity|].
  cbn [existsb] in Hk. apply orb_false_iff in Hk. destruct Hk as [Hk2 Hk3].
  cbn [map existsb]. now rewrite (Hk1 Hk2), (IHk Hk3).
Qed.

Lemma replace_with_keeps_absent q p text n :
  shallow q -> anywhere q n = false -> anywhere q (replace_with p text n) = false.
Proof.
  intros [Hq1 Hq2].
  induction n as [d|d|d|name attribs kids IH] using node_induction;
    try (intro H; exact H).
  cbn [anywhere replace_with]. intro H. apply orb_false_iff in H.
  destruct H as [Hh Hk]. destruct (p _).
  { cbn [anywhere]. now rewrite Hq1. }
  cbn [anywhere]. rewrite (Hq2 name attribs _ kids), Hh. cbn [orb]. clear Hh.
  induction IH as [|k kids Hk1 _ IHk]; [reflexivity|].
  cbn [existsb] in Hk. apply orb_false_iff in Hk. destruct Hk as [Hk2 Hk3].
  cbn [map existsb]. now rewrite (Hk1 Hk2), (IHk Hk3).
Qed.

Lemma replace_with_absent q text n :
  shallow q -> anywhere q (replace_with q text n) = false.
Proof.
  intros [Hq1 Hq2].
  induction n as [d|d|d|name attribs kids IH] using node_induction;
    try (cbn [replace_with anywhere]; now rewrite Hq1).
  cbn [replace_with]. destruct (q (Element name attribs kids)) eqn:E.
  { cbn [anywhere]. now rewrite Hq1. }
  cbn [anywhere]. rewrite (Hq2 name attribs _ kids), E. cbn [orb]. clear E.
  induction IH as [|k kids Hk1 _ IHk]; [reflexivity|].
  cbn [map existsb]. now rewrite Hk1, IHk.
Qed.

Lemma select_nil_absent p n : select p n = [] -> anywhere p n = false.
Proof.
  induction n as [d|d|d|name attribs kids IH] using node_induction;
    cbn [select anywhere]; intro H;
    try (destruct (p _); [discriminate | reflexivity]).
  destruct (p _); [discriminate|]. cbn [app orb] in *.
  induction IH as [|k kids Hk1 _ IHk]; [reflexivity|].
  cbn [flat_map] in H. apply app_eq_nil in H. destruct H as [H1 H2].
  cbn [existsb]. now rewrite (Hk1 H1), (IHk H2).
Qed.

Lemma select_nil_absent_forest p doc :
  flat_map (select p) doc = [] -> present p doc = false.
Proof.
  unfold present. induction doc as [|n doc IH]; [reflexivity|].
  cbn [flat_map]. intro H. apply app_eq_nil in H. destruct H as [H1 H2].
  cbn [existsb]. now rewrite (select_nil_absent p n H1), IH.
Qed.

Lemma present_map_false q (f : node -> node) doc :
  (forall n, anywhere q n = false -> anywhere q (f n) = false) ->
  present q doc = false -> present q (map f doc) = false.
Proof.
  intro Hf. unfold present. induction doc as [|n doc IH]; [reflexivity|].
  cbn [existsb map]. intro H. apply orb_false_iff in H. destruct H as [H1 H2].
  now rewrite (Hf n H1), IH.
Qed.

Lemma target_step_keeps_absent t st targetId :
  present (has_id t) (doc st) = false ->
  present (has_id t) (doc (target_step st targetId)) = false.
Proof.
  intro H. unfold target_step.
  destruct (flat_map (select (has_id targetId)) (doc st)); [exact H|].
  cbn [doc]. apply present_map_false.
  - intros x. apply replace_with_keeps_absent. apply shallow_has_id.
  - apply present_map_false; [|exact H]. intros x. apply mark_keeps_absent.
Qed.

Lemma target_step_absent st targetId :
  present (has_id targetId) (doc (target_step st targetId)) = false.
Proof.
  unfold target_step.
  destruct (flat_map (select (has_id targetId)) (doc st)) eqn:E.
  - cbn [doc]. now apply select_nil_absent_forest.
  - cbn [doc]. unfold present.
    generalize (map (mark (has_id targetId) "wig-id"
                          (braced (wigoh_id (placeholderCounter st)))) (doc st)).
    intro d. induction d as [|x d IH]; [reflexivity|].
    cbn [map existsb]. rewrite IH, orb_false_r.
    apply replace_with_absent. apply shallow_has_id.
Qed.

Lemma existsb_set_nth {A} (f : A -> bool) (g : A -> A) i l :
  (forall x, f x = false -> f (g x) = false) ->
  existsb f l = false -> existsb f (set_nth i g l) = false.
Proof.
  intro Hg. revert i. induction l as [|y l IH]; intros i H; [reflexivity|].
  cbn [existsb] in H. apply orb_false_iff in H. destruct H as [H1 H2].
  destruct i as [|i]; cbn [set_nth existsb].
  - now rewrite (Hg y H1), H2.
  - now rewrite H1, (IH i H2).
Qed.

Lemma update_text_keeps_absent q text p :
  shallow q ->
  forall ns, present q ns = false ->
             present q (update_at ns p (Text text)) = false.
Proof.
  intros [Hq1 Hq2]. unfold present.
  induction p as [|i p IH]; intros ns H; [exact H|].
  destruct p as [|j p].
  - cbn [update_at]. apply existsb_set_nth; [|exact H].
    intros x _. cbn [anywhere]. rewrite Hq1; reflexivity.
  - rewrite update_at_cons. apply existsb_set_nth; [|exact H].
    intros [d|d|d|name attribs kids] Hx; try exact Hx.
    cbn [anywhere] in *. apply orb_false_iff in Hx. destruct Hx as [Hh Hk].
    rewrite (Hq2 name attribs _ kids), Hh. cbn [orb]. now apply IH.
Qed.

Lemma section_step_keeps_absent q doc0 st turn :
  shallow q -> present q (doc st) = false ->
  present q (doc (section_step doc0 st turn)) = false.
Proof.
  intros Hq H. unfold section_step. destruct turn as [index p].
  destruct (node_at doc0 p) as [[d|d|d|name0 attribs0 kids0]|]; try exact H.
  destruct (existsb _ _); [exact H|].
  destruct (mem _ _); [exact H|].
  destruct (node_at (doc st) p) as [[d|d|d|name attribs kids]|]; try exact H.
  cbn [extract_section doc]. now apply update_text_keeps_absent.
Qed.

Lemma run_keeps_absent q doc0 turns :
  shallow q ->
  forall st, present q (doc st) = false ->
             present q (doc (fold_left (section_step doc0) turns st)) = false.
Proof.
  intro Hq. induction turns as [|t turns IH]; intros st H; [exact H|].
  simpl. apply IH. now apply section_step_keeps_absent.
Qed.

Lemma swept_keeps_absent q document :
  shallow q -> present q document = false -> present q (swept document) = false.
Proof.
  intros Hq H. unfold swept, removals. cbn [fold_left].
  repeat (apply remove_keeps_absent; [exact Hq|]). exact H.
Qed.

(** X15. The named targets leave the document for good: after the two loops no
    element carries one of the three ids, found or not, and none does in the
    document the template is taken from. *)
Theorem no_target_id_is_left :
  forall document,
    Forall (fun targetId =>
              present (has_id targetId) (doc (extraction document)) = false
              /\ present (has_id targetId) (swept (doc (extraction document)))
                 = false)
           targetIds.
Proof.
  intro document.
  assert (H : Forall (fun targetId =>
                        present (has_id targetId)
                                (doc (process_targets (initial document))) = false)
                     targetIds).
  { unfold process_targets, targetIds. cbn [map fold_left].
    repeat constructor;
      repeat first [ apply target_step_absent | apply target_step_keeps_absent ]. }
  eapply Forall_impl; [|exact H]. intros t Ht. cbn beta in *.
  assert (E : present (has_id t) (doc (extraction document)) = false).
  { unfold extraction, process_sections, run.
    apply run_keeps_absent; [apply shallow_has_id | exact Ht]. }
  split; [exact E|]. apply swept_keeps_absent; [apply shallow_has_id | exact E].
Qed.

(** *** What the loop over the sections leaves *)

Section Pending.

Variable doc0 : forest.
Variable all : list path.
Hypothesis all_distinct : NoDup all.
Hypothesis all_sections : forall q, In q all -> is_section_at doc0 q = true.
Hypothesis ids : distinct_ids doc0 all.

Lemma nth_error_same_index i k p :
  nth_error all i = Some p -> nth_error all k = Some p -> i = k.
Proof.
  intros Hi Hk.
  apply (proj1 (NoDup_nth_error all) all_distinct i k); [|congruence].
  apply nth_error_Some. congruence.
Qed.

Lemma step_pending i p st :
  nth_error all i = Some p ->
  inv doc0 all i st -> pending doc0 all i st ->
  pending doc0 all (S i) (section_step doc0 st (i, p)).
Proof.
  intros Hi Hinv Hpend.
  assert (Hsec : is_section_at doc0 p = true)
    by (apply all_sections; eapply nth_error_In; eassumption).
  destruct (section_node doc0 p Hsec) as [name [attribs [kids Hnode]]].
  destruct (top_level doc0 p) eqn:Etop.
  - rewrite (step_found doc0 all i p st name attribs kids Hi Hinv Hnode Etop).
    + intros q Hq. cbn [extract_section doc] in Hq.
      apply section_after_text in Hq; [|now apply (nonempty_section doc0)].
      destruct Hq as [Hq Hnp].
      destruct (Hpend q Hq) as [k [pk [Hk [Hpk [Htop Hpre]]]]].
      exists k, pk. split; [|auto].
      destruct (Nat.eq_dec k i) as [-> | Hne]; [|lia].
      rewrite Hi in Hpk. inversion Hpk; subst pk. contradiction.
    + intros j pj n a k Hj Hpj Hn. apply (ids j i pj p n a k name attribs kids);
        assumption.
  - unfold top_level in Etop. apply forallb_false in Etop.
    destruct Etop as [q' [Hq' Hs']]. apply negb_false_iff in Hs'.
    rewrite (step_nested doc0 all i p q' st name attribs kids Hinv Hnode Hq' Hs').
    intros q Hq. cbn [log doc] in Hq.
    destruct (Hpend q Hq) as [k [pk [Hk [Hpk [Htop Hpre]]]]].
    exists k, pk. split; [|auto].
    destruct (Nat.eq_dec k i) as [-> | Hne]; [|lia].
    rewrite Hi in Hpk. inversion Hpk; subst pk.
    unfold top_level in Htop. rewrite forallb_forall in Htop.
    apply Htop in Hq'. rewrite Hs' in Hq'. discriminate.
Qed.

Lemma run_pending ps :
  forall rest i st,
    skipn i all = ps ++ rest ->
    inv doc0 all i st -> pending doc0 all i st ->
    pending doc0 all (i + List.length ps) (run doc0 i ps st).
Proof.
  induction ps as [|p ps IH]; intros rest i st Hskip Hinv Hpend.
  - simpl. now rewrite Nat.add_0_r.
  - destruct (skipn_head all i p (ps ++ rest) Hskip) as [Hi Hnext].
    rewrite run_cons. simpl List.length. rewrite Nat.add_succ_r.
    apply (IH rest (S i) _ Hnext).
    + now apply step_inv.
    + now apply step_pending.
Qed.

End Pending.

(** X17. When the sections of the page have ids of their own, none is left in
    the document after the loop: each one went with the top-level section it
    is or lies in. *)
Theorem no_section_is_left :
  forall document,
    let doc1 := doc (process_targets (initial document)) in
    let sections := select_paths is_section doc1 in
    distinct_ids doc1 sections ->
    present is_section (doc (extraction document)) = false.
Proof.
  intros document doc1 sections Hids.
  destruct (process_targets_frame document) as [Hdet [Hproc _]].
  set (st1 := process_targets (initial document)) in *.
  assert (Hnd : NoDup sections) by apply select_paths_nodup.
  assert (Hsec : forall q, In q sections -> is_section_at doc1 q = true)
    by apply sections_are_sections.
  assert (Hinv : inv doc1 sections 0 st1) by now apply inv_start.
  assert (Hpend : pending doc1 sections 0 st1).
  { intros q Hq.
    destruct (topmost_section doc1 (List.length q) q (le_n _) Hq)
      as [pk [Hpre [Hs Htop]]].
    destruct (section_node doc1 pk Hs) as [n [a [k Hnode]]].
    assert (Hin : In pk sections).
    { apply (select_paths_complete is_section doc1 pk _ Hnode).
      unfold is_section_at in Hs. now rewrite Hnode in Hs. }
    apply In_nth_error in Hin. destruct Hin as [k0 Hk0].
    exists k0, pk. split; [lia | auto]. }
  pose proof (run_pending doc1 sections Hnd Hsec Hids sections [] 0 st1
                (eq_sym (app_nil_r _)) Hinv Hpend) as Hend.
  change (run doc1 0 sections st1) with (extraction document) in Hend.
  destruct (present is_section (doc (extraction document))) eqn:E; [|reflexivity].
  apply present_path in E. destruct E as [q [m [Hq Hm]]].
  destruct (Hend q) as [k [pk [Hk [Hpk _]]]].
  { unfold is_section_at. now rewrite Hq. }
  cbn [Nat.add] in Hk. apply nth_error_None in Hk. congruence.
Qed.

Lemma no_section_is_left_witness :
  present is_section (doc (extraction scenario_page)) = false.
Proof.
  apply (no_section_is_left scenario_page).
  intros i j pi pj ni ai ki nj aj kj Hlt Hi Hj Hni Hnj.
  destruct i as [|[|[|i]]]; destruct j as [|[|[|j]]];
    try lia; try (destruct j; discriminate); try (destruct i; discriminate);
    vm_compute in Hi, Hj; inversion Hi; inversion Hj; subst;
    vm_compute in Hni, Hnj; inversion Hni; inversion Hnj; subst; discriminate.
Defined.

(** *** The token at the place of its section *)

Section Place.

Variable doc0 : forest.
Variable all : list path.
Hypothesis all_distinct : NoDup all.
Hypothesis all_sections : forall q, In q all -> is_section_at doc0 q = true.

(** Two top-level sections are not one above the other. *)
Lemma top_level_apart p q :
  is_section_at doc0 p = true -> top_level doc0 q = true -> p <> q ->
  ~ prefix_of p q.
Proof.
  intros Hp Hq Hne [r Hr].
  rewrite top_level_iff in Hq. rewrite (Hq p) in Hp; [discriminate|].
  apply in_proper_prefixes. split; [now apply (nonempty_section doc0)|].
  exists r. split; [|exact Hr]. intros ->. rewrite app_nil_r in Hr. congruence.
Qed.

(** A later turn leaves the text at the place of an extracted top-level
    section. *)
Lemma step_keeps_place i p st pA x :
  nth_error all i = Some p -> inv doc0 all i st ->
  is_section_at doc0 pA = true -> top_level doc0 pA = true -> p <> pA ->
  node_at (doc st) pA = Some x ->
  node_at (doc (section_step doc0 st (i, p))) pA = Some x.
Proof.
  intros Hi Hinv HsA HtA Hne Hx. unfold section_step.
  destruct (node_at doc0 p) as [[d|d|d|name0 attribs0 kids0]|]; try exact Hx.
  destruct (existsb (is_section_at doc0) (parents (detached st) p)) eqn:En;
    [exact Hx|].
  destruct (mem _ _); [exact Hx|].
  destruct (node_at (doc st) p) as [[d|d|d|name attribs kids]|]; try exact Hx.
  cbn [extract_section doc].
  assert (Hsp : is_section_at doc0 p = true)
    by (apply all_sections; eapply nth_error_In; eassumption).
  assert (Htp : top_level doc0 p = true).
  { eapply not_nested_top; [apply Hinv | exact En]. }
  rewrite node_at_update_other; [exact Hx | |].
  - now apply top_level_apart.
  - apply top_level_apart; auto.
Qed.

Lemma run_keeps_place ps pA x :
  is_section_at doc0 pA = true -> top_level doc0 pA = true ->
  forall rest i st,
    skipn i all = ps ++ rest -> inv doc0 all i st -> ~ In pA ps ->
    node_at (doc st) pA = Some x ->
    node_at (doc (run doc0 i ps st)) pA = Some x.
Proof.
  intros HsA HtA. induction ps as [|p ps IH]; intros rest i st Hskip Hinv Hn Hx.
  - exact Hx.
  - destruct (skipn_head all i p (ps ++ rest) Hskip) as [Hi Hnext].
    rewrite run_cons. apply (IH rest (S i) _ Hnext).
    + now apply step_inv.
    + intro H. apply Hn. now right.
    + apply step_keeps_place; auto. intros ->. apply Hn. now left.
Qed.

Lemma node_at_update_here p :
  forall ns x n, node_at ns p = Some n -> node_at (update_at ns p x) p = Some x.
Proof.
  induction p as [|i p IH]; intros ns x n H; [discriminate|].
  destruct p as [|a p].
  - cbn [node_at update_at] in *. rewrite nth_error_set_nth_same.
    destruct (nth_error ns i); [reflexivity | discriminate].
  - rewrite node_at_cons in H. rewrite update_at_cons, node_at_cons.
    rewrite nth_error_set_nth_same.
    destruct (nth_error ns i) as [[d|d|d|nm at_ ks]|]; try discriminate.
    cbn [option_map]. apply (IH ks x n H).
Qed.

(** The turn of a top-level section with a new id, and the place it leaves
    in the document at the end. *)
Lemma place_of_section st iA pA name attribs kids :
  inv doc0 all 0 st ->
  nth_error all iA = Some pA ->
  node_at doc0 pA = Some (Element name attribs kids) ->
  top_level doc0 pA = true ->
  (forall j pj n a k,
      j < iA -> nth_error all j = Some pj ->
      node_at doc0 pj = Some (Element n a k) ->
      section_id a j <> section_id attribs iA) ->
  exists n,
    nth_error (console (run doc0 0 all st)) (List.length (console st) + iA)
    = Some (Found_section (section_id attribs iA) (wigoh_id n))
    /\ node_at (doc (run doc0 0 all st)) pA = Some (Text (braced (wigoh_id n))).
Proof.
  intros Hinv HA Hnode Htop Hfresh.
  destruct (nth_error_split all iA HA) as [l1 [l2 [Hall Hlen]]].
  destruct (run_prefix doc0 all all_distinct all_sections l1 (pA :: l2) 0 st
              Hall Hinv) as [Hinvk [es [Hes Hl]]].
  set (stk := run doc0 0 l1 st) in *.
  rewrite Hlen in *. cbn [Nat.add] in *.
  exists (placeholderCounter stk).
  pose proof (step_found doc0 all iA pA stk name attribs kids
                HA Hinvk Hnode Htop Hfresh) as Hstep.
  assert (Hrun : run doc0 0 all st
                 = run doc0 (S iA) l2 (section_step doc0 stk (iA, pA))).
  { rewrite Hall at 1. rewrite run_app, run_cons. cbn [Nat.add].
    now rewrite Hlen. }
  assert (Hsec : is_section_at doc0 pA = true)
    by (apply all_sections; eapply nth_error_In; eassumption).
  split.
  - destruct (run_grows doc0 l2 (S iA) (section_step doc0 stk (iA, pA)))
      as [es2 [_ [_ [Hc _]]]].
    rewrite Hrun, Hc, Hstep. cbn [extract_section console]. rewrite Hes.
    replace (List.length (console st) + iA)
      with (List.length (console st ++ es)) by (rewrite length_app; lia).
    apply nth_error_middle.
  - rewrite Hrun. 
    assert (Hskip : skipn (S iA) all = l2 ++ []).
    { rewrite app_nil_r. rewrite Hall.
      replace (S iA) with (List.length (l1 ++ [pA]))
        by (rewrite length_app; simpl; lia).
      change (l1 ++ pA :: l2) with (l1 ++ [pA] ++ l2).
      rewrite app_assoc. now rewrite skipn_app, skipn_all, Nat.sub_diag. }
    apply (run_keeps_place l2 pA _ Hsec Htop [] (S iA) _ Hskip).
    + now apply step_inv.
    + intro Hin. pose proof all_distinct as Hnd. rewrite Hall in Hnd.
      apply NoDup_remove_2 in Hnd. apply Hnd. apply in_or_app. now right.
    + rewrite Hstep. cbn [extract_section doc].
      destruct Hinvk as [_ [I2 _]].
      assert (E : node_at (doc stk) pA = node_at doc0 pA).
      { apply I2; [|exact Htop]. rewrite (skipn_nth_error all iA pA HA). now left. }
      rewrite Hnode in E.
      apply (node_at_update_here pA (doc stk) _ _ E).
Qed.

End Place.

(** X18. The token takes the place of its section: a top-level section with an
    id not met at an earlier turn is announced on the console under a token,
    and at the end the document has, where the section was, a text node with
    that token in braces. *)
Theorem token_takes_the_place_of_its_section :
  forall document,
    let doc1 := doc (process_targets (initial document)) in
    let sections := select_paths is_section doc1 in
    forall iA pA nameA attribsA kidsA,
      nth_error sections iA = Some pA ->
      node_at doc1 pA = Some (Element nameA attribsA kidsA) ->
      top_level doc1 pA = true ->
      (forall j pj n a k,
          j < iA -> nth_error sections j = Some pj ->
          node_at doc1 pj = Some (Element n a k) ->
          section_id a j <> section_id attribsA iA) ->
      exists n,
        nth_error (console (extraction document)) (3 + iA)
        = Some (Found_section (section_id attribsA iA) (wigoh_id n))
        /\ node_at (doc (extraction document)) pA
           = Some (Text (braced (wigoh_id n))).
Proof.
  intros document doc1 sections iA pA nameA attribsA kidsA HA Hnode Htop Hfresh.
  destruct (process_targets_frame document) as [Hdet [Hproc [_ [_ Hlen]]]].
  set (st1 := process_targets (initial document)) in *.
  assert (Hnd : NoDup sections) by apply select_paths_nodup.
  assert (Hsec : forall q, In q sections -> is_section_at doc1 q = true)
    by apply sections_are_sections.
  assert (Hinv : inv doc1 sections 0 st1) by now apply inv_start.
  destruct (place_of_section doc1 sections Hnd Hsec st1 iA pA
              nameA attribsA kidsA Hinv HA Hnode Htop Hfresh) as [n [H1 H2]].
  exists n. rewrite Hlen in H1. split; [exact H1 | exact H2].
Qed.

Lemma token_takes_the_place_witness :
  exists n,
    nth_error (console (extraction scenario_page)) (3 + 1)
    = Some (Found_section (lit "b") (wigoh_id n))
    /\ node_at (doc (extraction scenario_page)) [0; 1; 1]
       = Some (Text (braced (wigoh_id n))).
Proof.
  apply (token_takes_the_place_of_its_section scenario_page 1 [0; 1; 1]
           (lit "section") [(lit "id", lit "b")]
           [Element "section" [(lit "id", lit "c")] [Text "Y"]]);
    try reflexivity.
  intros j pj nm a k Hj Hpj Hnode.
  destruct j as [|j]; [|lia]. inversion Hpj; subst pj.
  inversion Hnode; subst. discriminate.
Defined.

End ComponentFacts.

(** ** ReconstructionService *)

Module ReconstructionFacts.
Import Reconstruction.

Arguments component_token : simpl never.

(** *** Replacement patterns leave plain text alone *)

Section Expand.

Variables matched before after : str.

Lemma expand_plain p v :
  dollar_free p ->
  expand (p ++ v) matched before after = p ++ expand v matched before after.
Proof.
  unfold dollar_free. induction p as [|c p IH]; simpl; [reflexivity|].
  rewrite andb_true_iff, negb_true_iff. intros [Hc Hp].
  rewrite Hc, (IH Hp). reflexivity.
Qed.

Lemma expand_no_dollar rep :
  dollar_free rep -> expand rep matched before after = rep.
Proof.
  intro H. rewrite <- (app_nil_r rep) at 1. rewrite expand_plain by exact H.
  simpl. apply app_nil_r.
Qed.

Lemma expand_keeps h p v :
  special h = false -> dollar_free (h :: p) ->
  forall n u, List.length u <= n ->
    exists u' v',
      expand (u ++ (h :: p) ++ v) matched before after = u' ++ (h :: p) ++ v'.
Proof.
  intros Hh Hp.
  unfold special in Hh. rewrite !orb_false_iff in Hh.
  destruct Hh as [[[Hh1 Hh2] Hh3] Hh4].
  assert (Hbase : exists u' v',
             expand ((h :: p) ++ v) matched before after = u' ++ (h :: p) ++ v').
  { exists [], (expand v matched before after).
    now rewrite expand_plain. }
  induction n as [|n IH]; intros u Hlen.
  - destruct u; [exact Hbase | simpl in Hlen; lia].
  - destruct u as [|c u]; [exact Hbase|].
    simpl in Hlen.
    destruct (IH u ltac:(lia)) as [u1 [v1 H1]].
    change ((c :: u) ++ (h :: p) ++ v) with (c :: (u ++ (h :: p) ++ v)).
    cbn [expand]. destruct (Ascii.eqb c "$") eqn:Ec.
    + destruct u as [|d u].
      * cbn [app]. rewrite Hh1, Hh2, Hh3, Hh4.
        change (h :: p ++ v) with ((h :: p) ++ v).
        destruct Hbase as [u0 [v0 H0]]. rewrite H0.
        exists (c :: u0), v0. reflexivity.
      * simpl in Hlen.
        destruct (IH u ltac:(lia)) as [u2 [v2 H2]].
        change ((d :: u) ++ (h :: p) ++ v) with (d :: (u ++ (h :: p) ++ v)).
        cbv beta iota.
        destruct (Ascii.eqb d "$"); [rewrite H2; exists ("$"%char :: u2), v2; reflexivity|].
        destruct (Ascii.eqb d "&"); [rewrite H2; exists (matched ++ u2), v2; now rewrite <- app_assoc|].
        destruct (Ascii.eqb d "`"); [rewrite H2; exists (before ++ u2), v2; now rewrite <- app_assoc|].
        destruct (Ascii.eqb d "'"); [rewrite H2; exists (after ++ u2), v2; now rewrite <- app_assoc|].
        change (d :: u ++ (h :: p) ++ v) with ((d :: u) ++ (h :: p) ++ v).
        rewrite H1. exists (c :: u1), v1. reflexivity.
    + rewrite H1. exists (c :: u1), v1. reflexivity.
Qed.

Lemma occurs_expand h p rep :
  special h = false -> dollar_free (h :: p) ->
  occurs (h :: p) rep -> occurs (h :: p) (expand rep matched before after).
Proof.
  intros Hh Hp [u [v ->]].
  destruct (expand_keeps h p v Hh Hp (List.length u) u (le_n _)) as [u' [v' H]].
  rewrite H. exists u', v'. reflexivity.
Qed.

End Expand.

(** *** The marker attribute *)

Lemma span_digits_spec s :
  s = fst (span_digits s) ++ snd (span_digits s)
  /\ forallb is_digit (fst (span_digits s)) = true.
Proof.
  induction s as [|c s [IH1 IH2]]; simpl; [auto|].
  destruct (is_digit c) eqn:E; [|auto].
  destruct (span_digits s) as [ds rest]. simpl in *.
  rewrite E, IH2. split; [now rewrite <- IH1 | reflexivity].
Qed.

Lemma wig_id_here_spec s t :
  wig_id_here s = Some t ->
  exists ds, forallb is_digit ds = true /\ t = component_token ds /\ occurs t s.
Proof.
  unfold wig_id_here.
  destruct (starts marker_prefix s) eqn:E; [|discriminate].
  apply starts_iff in E. destruct E as [r ->].
  change (skipn 19 (marker_prefix ++ r)) with r.
  destruct (span_digits_spec r) as [Hr Hds].
  destruct (span_digits r) as [ds rest]. simpl in Hr, Hds.
  destruct ds as [|d ds]; [discriminate|].
  destruct (starts marker_suffix rest) eqn:E2; [|discriminate].
  apply starts_iff in E2. destruct E2 as [r' ->].
  intro H. inversion H; subst t. exists (d :: ds).
  split; [exact Hds|]. split; [reflexivity|].
  exists (lit "wig-id=" ++ [dq]), (dq :: r'). rewrite Hr.
  unfold component_token, braced. rewrite <- !app_assoc. reflexivity.
Qed.

Lemma wigIdMatch_spec s t :
  wigIdMatch s = Some t ->
  exists ds, forallb is_digit ds = true /\ t = component_token ds /\ occurs t s.
Proof.
  induction s as [|c s IH]; cbn [wigIdMatch].
  - destruct (wig_id_here []) eqn:E; [|discriminate].
    intro H. inversion H; subst. now apply wig_id_here_spec.
  - destruct (wig_id_here (c :: s)) eqn:E.
    + intro H. inversion H; subst. now apply wig_id_here_spec.
    + intro H. destruct (IH H) as [ds [H1 [H2 H3]]].
      exists ds. repeat split; auto. now apply occurs_cons.
Qed.

Lemma component_core_brace_free ds :
  forallb is_digit ds = true -> brace_free (lit "wigoh-id-" ++ ds).
Proof.
  intro H. apply brace_free_app. split; [reflexivity|].
  now apply digits_brace_free.
Qed.

Lemma digits_dollar_free ds : forallb is_digit ds = true -> dollar_free ds.
Proof.
  unfold dollar_free. induction ds as [|c ds IH]; simpl; [reflexivity|].
  rewrite andb_true_iff. intros [Hc Hs]. rewrite (IH Hs), andb_true_r.
  unfold is_digit in Hc. apply andb_true_iff in Hc. destruct Hc as [H1 H2].
  apply Nat.leb_le in H1, H2. apply negb_true_iff.
  destruct (Ascii.eqb c "$") eqn:E; [|reflexivity].
  apply Ascii.eqb_eq in E. subst c. cbv in H1. lia.
Qed.

Lemma component_token_plain ds :
  forallb is_digit ds = true ->
  exists p, component_token ds = "{"%char :: p /\ dollar_free ("{"%char :: p).
Proof.
  intro H. exists (lit "{wigoh-id-" ++ ds ++ lit "}}"). split; [reflexivity|].
  unfold dollar_free.
  change ("{"%char :: lit "{wigoh-id-" ++ ds ++ lit "}}")
    with (lit "{{wigoh-id-" ++ ds ++ lit "}}").
  rewrite !forallb_app, (digits_dollar_free ds H). reflexivity.
Qed.

Lemma component_overlap ds1 ds2 u v x y :
  forallb is_digit ds1 = true -> forallb is_digit ds2 = true ->
  u ++ component_token ds1 ++ v = x ++ component_token ds2 ++ y ->
  (exists w, x = u ++ component_token ds1 ++ w)
  \/ (u = x /\ ds1 = ds2 /\ v = y)
  \/ (exists w, y = w ++ component_token ds1 ++ v).
Proof.
  intros H1 H2 H.
  apply braced_overlap in H; try now apply component_core_brace_free.
  destruct H as [[w [Hx _]] | [[Hu [Hc Hv]] | [w [_ Hy]]]].
  - left. now exists w.
  - right; left. repeat split; auto. now apply app_inv_head in Hc.
  - right; right. now exists w.
Qed.

Lemma component_widget_disjoint ds n u v x y :
  forallb is_digit ds = true ->
  u ++ component_token ds ++ v = x ++ widget_token n ++ y ->
  (exists w, x = u ++ component_token ds ++ w)
  \/ (exists w, y = w ++ component_token ds ++ v).
Proof.
  intros H1 H.
  apply braced_overlap in H;
    [| now apply component_core_brace_free | apply widget_core_brace_free].
  destruct H as [[w [Hx _]] | [[_ [Hc _]] | [w [_ Hy]]]].
  - left. now exists w.
  - discriminate.
  - right. now exists w.
Qed.

(** *** Component tokens survive both loops *)

Lemma component_step_keeps ds st row :
  forallb is_digit ds = true ->
  occurs (component_token ds) (fst st) ->
  occurs (component_token ds) (fst (component_step st row)).
Proof.
  intros Hds Hocc. unfold component_step.
  destruct row as [[|c html]|]; try exact Hocc.
  destruct (wigIdMatch (c :: html)) as [t|] eqn:Em; [|exact Hocc].
  destruct (includes (fst st) t) eqn:Ei; [|exact Hocc].
  cbn [fst]. unfold js_replace.
  apply includes_iff in Ei.
  destruct (replace_first_occurs (expand (c :: html) t) t [] (fst st) Ei)
    as [u [v [Hs [_ Hr]]]].
  rewrite Hr. clear Hr.
  destruct (wigIdMatch_spec _ _ Em) as [dm [Hdm [Ht Hin]]]. subst t.
  destruct Hocc as [a [b Hab]]. rewrite Hs in Hab. symmetry in Hab.
  apply component_overlap in Hab; auto.
  destruct Hab as [[w Hu] | [[_ [Heq _]] | [w Hv]]].
  - apply occurs_app_l. rewrite Hu. exists a, w. reflexivity.
  - subst dm. apply occurs_app_r, occurs_app_l.
    destruct (component_token_plain ds Hds) as [p [Hp Hfree]].
    rewrite Hp in *. apply occurs_expand; auto.
  - apply occurs_app_r, occurs_app_r. rewrite Hv. exists w, b. reflexivity.
Qed.

Lemma replace_all_keeps sub ds n :
  forallb is_digit ds = true ->
  forall m s before, List.length s <= m ->
    occurs (component_token ds) s ->
    occurs (component_token ds) (replace_all sub (widget_token n) 0 before s).
Proof.
  intros Hds. induction m as [|m IH]; intros s before Hlen Hocc.
  - destruct s; [|simpl in Hlen; lia].
    destruct Hocc as [u [v H]]. destruct u; discriminate.
  - destruct (includes s (widget_token n)) eqn:Ei.
    + apply includes_iff in Ei.
      destruct (replace_all_occurs sub (widget_token n) before s
                  (braced_nonempty _) Ei) as [u [v [Hs [_ Hr]]]].
      rewrite Hr. clear Hr.
      destruct Hocc as [a [b Hab]]. rewrite Hs in Hab. symmetry in Hab.
      apply component_widget_disjoint in Hab; auto.
      destruct Hab as [[w Hu] | [w Hv]].
      * apply occurs_app_l. rewrite Hu. exists a, w. reflexivity.
      * apply occurs_app_r, occurs_app_r. apply IH.
        -- rewrite Hs, !length_app in Hlen.
           assert (0 < List.length (widget_token n)) by (unfold widget_token, braced; rewrite length_app; simpl; lia).
           lia.
        -- rewrite Hv. exists w, b. reflexivity.
    + apply not_includes_iff in Ei. now rewrite replace_all_absent.
Qed.

Lemma widget_step_keeps ds st w :
  forallb is_digit ds = true ->
  occurs (component_token ds) (fst st) ->
  occurs (component_token ds) (fst (widget_step st w)).
Proof.
  intros Hds Hocc. unfold widget_step.
  destruct (includes (fst st) (widget_key w)); [|exact Hocc].
  cbn [fst]. unfold js_replace_all, widget_key.
  now apply (replace_all_keeps _ ds _ Hds (List.length (fst st))).
Qed.

Lemma fold_keeps {A} (step : progress -> A -> progress) ds :
  (forall st x, occurs (component_token ds) (fst st) ->
                occurs (component_token ds) (fst (step st x))) ->
  forall l st, occurs (component_token ds) (fst st) ->
               occurs (component_token ds) (fst (fold_left step l st)).
Proof.
  intros Hstep l. induction l as [|x l IH]; intros st H; simpl; auto.
Qed.

Lemma first_is_first (pat u v : str) :
  (forall x1 x2, u = x1 ++ x2 -> x2 <> [] ->
                 starts pat (x2 ++ pat ++ v) = false) ->
  pat <> [] -> ~ occurs pat u.
Proof.
  intros Hfirst Hne [a [b Hab]].
  assert (Hx : pat ++ b <> []) by (destruct pat; [contradiction | discriminate]).
  specialize (Hfirst a (pat ++ b) Hab Hx).
  rewrite <- app_assoc, starts_app in Hfirst. discriminate.
Qed.

(** C2, as amended.  A component token of the template never leaves the
    document: whatever the components and the widgets, every token
    [{{wigoh-id-N}}] that occurs in the template occurs in the output, covered
    by a component or not.  For a covered token the loop replaces the first
    occurrence in the working document by the component's markup, counts one
    replacement, and the markup put in holds the token again, in its marker
    attribute. *)
Theorem C2_component_tokens_stay_in_the_output :
  (forall template components widgets ds,
      forallb is_digit ds = true ->
      occurs (component_token ds) template ->
      occurs (component_token ds)
             (reconstructedHtml (reconstruct template components widgets)))
  /\ (forall html n optimized_html t,
        optimized_html <> [] ->
        wigIdMatch optimized_html = Some t ->
        includes html t = true ->
        exists u v,
          html = u ++ t ++ v /\ ~ occurs t u /\
          component_step (html, n) (Some optimized_html)
          = (u ++ expand optimized_html t u v ++ v, S n) /\
          occurs t (expand optimized_html t u v)).
Proof.
  split.
  - intros template components widgets ds Hds Hocc. unfold reconstruct.
    pose proof (fold_keeps component_step ds
                  (fun st x => component_step_keeps ds st x Hds)
                  components (template, 0) Hocc) as H1.
    destruct (fold_left component_step components (template, 0))
      as [html1 n1]. cbn [fst] in H1.
    pose proof (fold_keeps widget_step ds
                  (fun st x => widget_step_keeps ds st x Hds)
                  widgets (html1, 0) H1) as H2.
    destruct (fold_left widget_step widgets (html1, 0)) as [html2 n2].
    exact H2.
  - intros html n optimized_html t Hne Hm Hin.
    destruct (wigIdMatch_spec _ _ Hm) as [ds [Hds [Ht Ho]]].
    apply includes_iff in Hin.
    destruct (replace_first_occurs (expand optimized_html t) t [] html Hin)
      as [u [v [Hs [Hfirst Hr]]]].
    exists u, v. split; [exact Hs|]. split.
    { apply (first_is_first t u v Hfirst). subst t. apply braced_nonempty. }
    split.
    + unfold component_step. destruct optimized_html as [|c h]; [contradiction|].
      rewrite Hm. cbn [fst snd].
      apply includes_iff in Hin. rewrite Hin.
      unfold js_replace. rewrite Hr. reflexivity.
    + destruct (component_token_plain ds Hds) as [p [Hp Hfree]].
      subst t. rewrite Hp in *. apply occurs_expand; auto.
Qed.

Lemma C2_witness :
  occurs (component_token (lit "001"))
         (reconstructedHtml
            (reconstruct scenario_template scenario_components scenario_widgets))
  /\ exists u v,
      scenario_template = u ++ lit "{{wigoh-id-001}}" ++ v /\
      ~ occurs (lit "{{wigoh-id-001}}") u /\
      component_step (scenario_template, 0)
        (Some (lit "<section wig-id=" ++ [dq] ++ lit "{{wigoh-id-001}}" ++ [dq]
                 ++ lit ">{{widget-1}}</section>"))
      = (u ++ expand (lit "<section wig-id=" ++ [dq] ++ lit "{{wigoh-id-001}}"
                        ++ [dq] ++ lit ">{{widget-1}}</section>")
                     (lit "{{wigoh-id-001}}") u v ++ v, 1) /\
      occurs (lit "{{wigoh-id-001}}")
             (expand (lit "<section wig-id=" ++ [dq] ++ lit "{{wigoh-id-001}}"
                        ++ [dq] ++ lit ">{{widget-1}}</section>")
                     (lit "{{wigoh-id-001}}") u v).
Proof.
  split.
  - apply (proj1 C2_component_tokens_stay_in_the_output
                 scenario_template scenario_components scenario_widgets
                 (lit "001")).
    + reflexivity.
    + exists (lit "<div>"), (lit "</div>"). reflexivity.
  - apply (proj2 C2_component_tokens_stay_in_the_output
                 scenario_template 0
                 (lit "<section wig-id=" ++ [dq] ++ lit "{{wigoh-id-001}}" ++ [dq]
                    ++ lit ">{{widget-1}}</section>")
                 (lit "{{wigoh-id-001}}")).
    + discriminate.
    + reflexivity.
    + reflexivity.
Defined.

(** C2 as stated fails in the scenario of the specification itself: the
    component covers the token of the template, and the token is in the
    output, inside the marker attribute of the markup that replaced it. *)
Lemma C2_counterexample :
  covers scenario_components (lit "{{wigoh-id-001}}") = true
  /\ includes scenario_template (lit "{{wigoh-id-001}}") = true
  /\ reconstructedHtml
       (reconstruct scenario_template scenario_components scenario_widgets)
     = lit "<div><section wig-id=" ++ [dq] ++ lit "{{wigoh-id-001}}" ++ [dq]
         ++ lit "><b>Hi</b></section></div>"
  /\ includes (reconstructedHtml
                 (reconstruct scenario_template scenario_components
                              scenario_widgets))
              (lit "{{wigoh-id-001}}") <> false.
Proof. vm_compute. repeat split; discriminate. Qed.

(** *** The widget loop *)

Lemma replace_all_ext sub1 sub2 pat :
  (forall b a, sub1 b a = sub2 b a) ->
  forall s skip before,
    replace_all sub1 pat skip before s = replace_all sub2 pat skip before s.
Proof.
  intros Hsub s. induction s as [|c s IH]; intros skip before; simpl.
  - reflexivity.
  - destruct skip; [|apply IH].
    destruct (starts pat (c :: s)); now rewrite IH, ?Hsub.
Qed.

(** Markup without a dollar sign is put in as it is. *)
Lemma widget_step_plain st w :
  dollar_free (widget_html w) ->
  includes (fst st) (widget_key w) = true ->
  widget_step st w = widget_step_verbatim st w.
Proof.
  intros Hfree Hin. unfold widget_step, widget_step_verbatim.
  rewrite Hin. f_equal. unfold js_replace_all, subst_all.
  apply replace_all_ext. intros b a. now apply expand_no_dollar.
Qed.

(** C3 fails on markup with a dollar sign: [replace] reads [$$], [$&],
    [$`] and [$'] in its second argument as patterns.  The paragraph
    [<p>Only $$5 today</p>] comes back as [<p>Only $5 today</p>]; the count
    is right. *)
Theorem C3_dollar_patterns_in_widget_markup_are_expanded :
  widget_step (lit "<div>{{widget-1}}</div>", 0) price_widget
  = (lit "<div><p>Only $5 today</p></div>", 1)
  /\ widget_step_verbatim (lit "<div>{{widget-1}}</div>", 0) price_widget
     = (lit "<div><p>Only $$5 today</p></div>", 1)
  /\ reconstructedHtml
       (reconstruct (lit "<div>{{widget-1}}</div>") [] [price_widget])
     <> lit "<div><p>Only $$5 today</p></div>".
Proof. vm_compute. repeat split; discriminate. Qed.

(** *** The widget loop on plain markup *)

Import WidgetFacts.

Lemma widget_key_nonempty w : widget_key w <> [].
Proof. unfold widget_key, widget_token. apply braced_nonempty. Qed.

Lemma js_replace_all_plain pat rep s :
  dollar_free rep -> js_replace_all pat rep s = subst_all pat rep s.
Proof.
  intro H. unfold js_replace_all, subst_all. apply replace_all_ext.
  intros b a. now apply expand_no_dollar.
Qed.

(** X19. The widget loop on markup without a dollar sign: the working document
    is cut at the occurrences of the token, the markup of the widget is put
    between the pieces, in the place of every occurrence, and the count goes
    up by their number. *)
Theorem widget_pass_replaces_every_occurrence :
  forall st widget,
    dollar_free (widget_html widget) ->
    exists pieces,
      pieces <> []
      /\ fst st = join (widget_key widget) pieces
      /\ Forall (fun piece => ~ occurs (widget_key widget) piece) pieces
      /\ fst (widget_step st widget) = join (widget_html widget) pieces
      /\ snd (widget_step st widget) = snd st + (List.length pieces - 1).
Proof.
  intros st widget Hfree.
  destruct (pieces_of (widget_key widget) (widget_key_nonempty widget)
              (widget_html widget) (List.length (fst st)) (fst st) [] (le_n _))
    as [pieces [Hne [Hj [Hf [Hrep Hcount]]]]].
  exists pieces. split; [exact Hne|]. split; [exact Hj|]. split; [exact Hf|].
  unfold widget_step. destruct (includes (fst st) (widget_key widget)) eqn:E.
  - cbn [fst snd]. rewrite js_replace_all_plain by exact Hfree.
    unfold subst_all. rewrite Hrep, Hcount. auto.
  - apply not_includes_iff in E.
    destruct pieces as [|p0 [|p1 pieces]]; [contradiction | |].
    + simpl in *. subst p0. split; [reflexivity | lia].
    + exfalso. apply E. rewrite Hj. exists p0, (join (widget_key widget) (p1 :: pieces)).
      reflexivity.
Qed.

Lemma widget_pass_witness :
  exists pieces,
    pieces <> []
    /\ lit "<div>{{widget-1}}</div>" = join (lit "{{widget-1}}") pieces
    /\ fst (widget_step (lit "<div>{{widget-1}}</div>", 0)
                        {| widget_no := 1; widget_html := "<b>Hi</b>" |})
       = join (lit "<b>Hi</b>") pieces.
Proof.
  destruct (widget_pass_replaces_every_occurrence
              (lit "<div>{{widget-1}}</div>", 0)
              {| widget_no := 1; widget_html := "<b>Hi</b>" |} eq_refl)
    as [pieces [H1 [H2 [_ [H4 _]]]]].
  exists pieces. auto.
Defined.

(** *** Once replaced, a token is gone *)





(** *** A template without tokens *)

Lemma braced_needs_brace c s : brace_free s -> ~ occurs (braced c) s.
Proof.
  intros Hs [u [v H]].
  assert (Hin : In "{"%char s).
  { rewrite H. apply in_or_app. right. now left. }
  pose proof (brace_free_In s _ Hs Hin) as E. discriminate.
Qed.

Lemma component_step_no_brace st row :
  brace_free (fst st) -> component_step st row = st.
Proof.
  intro Hs. unfold component_step.
  destruct row as [[|c html]|]; try reflexivity.
  destruct (wigIdMatch (c :: html)) as [t|] eqn:E; [|reflexivity].
  destruct (wigIdMatch_spec _ _ E) as [ds [_ [-> _]]].
  assert (Hn : includes (fst st) (component_token ds) = false).
  { apply not_includes_iff. now apply braced_needs_brace. }
  now rewrite Hn.
Qed.

Lemma widget_step_no_brace st widget :
  brace_free (fst st) -> widget_step st widget = st.
Proof.
  intro Hs. unfold widget_step.
  assert (Hn : includes (fst st) (widget_key widget) = false).
  { apply not_includes_iff. now apply braced_needs_brace. }
  now rewrite Hn.
Qed.

Lemma fold_no_brace {A} (step : progress -> A -> progress) l :
  (forall st x, brace_free (fst st) -> step st x = st) ->
  forall st, brace_free (fst st) -> fold_left step l st = st.
Proof.
  intro Hstep. induction l as [|x l IH]; intros st H; [reflexivity|].
  simpl. rewrite (Hstep st x H). now apply IH.
Qed.

(** X21. A template that holds no brace holds no token: whatever the rows of
    the two tables, it is returned as it is, and both counts are 0. *)
Theorem template_without_braces_is_returned :
  forall template components widgets,
    brace_free template ->
    reconstruct template components widgets
    = {| reconstructedHtml := template;
         totalComponents := 0;
         totalWidgets := 0 |}.
Proof.
  intros template components widgets H. unfold reconstruct.
  rewrite (fold_no_brace component_step components component_step_no_brace
             (template, 0) H).
  rewrite (fold_no_brace widget_step widgets widget_step_no_brace
             (template, 0) H).
  reflexivity.
Qed.

Lemma template_without_braces_witness :
  reconstruct (lit "<p>plain</p>") scenario_components scenario_widgets
  = {| reconstructedHtml := lit "<p>plain</p>";
       totalComponents := 0;
       totalWidgets := 0 |}.
Proof.
  apply (template_without_braces_is_returned (lit "<p>plain</p>")).
  reflexivity.
Defined.

(** *** Extraction and reconstruction together *)

Import WidgetExtraction.

Lemma rows_from_keys ws :
  forall first,
    map fst ws = map widget_token (seq first (List.length ws)) ->
    map (fun row => (widget_key row, widget_html row)) (rows_from first ws) = ws.
Proof.
  induction ws as [|[k f] ws IH]; intros first H; [reflexivity|].
  cbn [List.length seq map fst] in H. inversion H as [[Hk Hrest]].
  unfold rows_from. cbn [List.length seq combine map fst snd].
  unfold widget_key at 1. cbn [widget_no widget_html]. f_equal.
  apply (IH (S first) Hrest).
Qed.

Lemma widget_steps_substitute ws :
  forall first h n,
    map fst ws = map widget_token (seq first (List.length ws)) ->
    Forall (fun w => dollar_free (snd w)) ws ->
    fst (fold_left widget_step (rows_from first ws) (h, n))
    = substitute_back ws h.
Proof.
  induction ws as [|[k f] ws IH]; intros first h n Hk Hfree; [reflexivity|].
  cbn [List.length seq map fst] in Hk. inversion Hk as [[Hk0 Hrest]].
  inversion Hfree as [|? ? Hf Hfs]; subst. cbn [snd] in Hf.
  unfold rows_from. cbn [List.length seq combine map fst snd fold_left].
  fold (rows_from (S first) ws).
  unfold substitute_back. cbn [fold_left fst snd]. fold (substitute_back ws).
  unfold widget_step at 2. unfold widget_key. cbn [widget_no widget_html fst snd].
  destruct (includes h (widget_token first)) eqn:E.
  - rewrite (js_replace_all_plain _ _ _ Hf). apply (IH _ _ _ Hrest Hfs).
  - apply not_includes_iff in E.
    assert (Es : subst_all (widget_token first) f h = h).
    { unfold subst_all. now apply replace_all_absent. }
    rewrite Es. apply (IH _ _ _ Hrest Hfs).
Qed.

(** X22. Extraction and the widget loop of the reconstruction undo each other:
    with the rows that [extractWidgets] saved (and no other) in the widgets
    table, no dollar sign in the fragments and tokens that the page did not
    hold already, the loop turns [modifiedHtml] back into the markup of the
    page. *)
Theorem widgets_come_back_in_reconstruction :
  forall document,
    tokens_fresh document = true ->
    Forall (fun w => dollar_free (snd w))
           (result_widgets (extractWidgets document)) ->
    map (fun row => (widget_key row, widget_html row))
        (rows_from 1 (result_widgets (extractWidgets document)))
    = result_widgets (extractWidgets document)
    /\ reconstructedHtml
         (reconstruct (modifiedHtml (extractWidgets document)) []
                      (rows_from 1 (result_widgets (extractWidgets document))))
       = serialize document.
Proof.
  intros document Hfresh Hfree.
  destruct (extractWidgets_cut document)
    as [c' [segs [Hs [Hs' [Hw [Hn _]]]]]].
  assert (Hkeys : map fst (result_widgets (extractWidgets document))
                  = map widget_token
                        (seq 1 (List.length
                                  (result_widgets (extractWidgets document))))).
  { rewrite <- (length_map fst). rewrite Hw, seg_keys, Hn, length_map, length_seq.
    reflexivity. }
  split; [now apply rows_from_keys|].
  unfold reconstruct. cbn [fold_left].
  pose proof (widget_steps_substitute (result_widgets (extractWidgets document))
                1 (modifiedHtml (extractWidgets document)) 0 Hkeys Hfree) as E.
  destruct (fold_left widget_step _ _) as [html2 n2]. cbn [fst] in E.
  cbn [reconstructedHtml]. rewrite E.
  unfold tokens_fresh in Hfresh. rewrite forallb_forall in Hfresh.
  rewrite Hs', Hw, Hs.
  apply (restore_segs segs [] 1 (c' - 1) Hn).
  intros k Hk. simpl. rewrite <- Hs.
  destruct (num_has_hole k segs Hk) as [f Hf]. rewrite <- Hw in Hf.
  apply Hfresh in Hf. apply negb_true_iff in Hf. simpl in Hf.
  now apply not_includes_iff.
Qed.

Lemma widgets_come_back_witness :
  reconstructedHtml
    (reconstruct (modifiedHtml (extractWidgets sample_page)) []
                 (rows_from 1 (result_widgets (extractWidgets sample_page))))
  = serialize sample_page.
Proof.
  apply (widgets_come_back_in_reconstruction sample_page); [reflexivity|].
  repeat constructor.
Defined.

End ReconstructionFacts.

(** ** HtmlToJsonService *)

(** C9. An element of type tag whose converted children are exactly one
    string is returned with that string as [textContent] and with no
    children; the page [<body><p>Hello</p></body>] converts to a [body] node
    whose only child is [{tagName:"p", attributes:{}, children:[],
    textContent:"Hello"}], three nodes being counted. *)
Theorem C9_single_string_child_becomes_textContent :
  (forall name attribs kids nodeCount s nodeCount',
      HtmlToJson.is_tag name = true ->
      HtmlToJson.convert_children HtmlToJson.elementToJson kids [] (S nodeCount)
        = ([HtmlToJson.JText s], nodeCount') ->
      HtmlToJson.elementToJson (Element name attribs kids) nodeCount
        = (HtmlToJson.JNode name attribs [] (Some s), nodeCount'))
  /\ HtmlToJson.convertToJson HtmlToJson.hello_page
     = (HtmlToJson.JNode "body" []
          [HtmlToJson.JNode "p" [] [] (Some (lit "Hello"))] None, 3).
Proof.
  split.
  - intros name attribs kids nodeCount s nodeCount' Htag Hkids.
    simpl. rewrite Htag, Hkids. reflexivity.
  - reflexivity.
Qed.

Lemma C9_witness :
  HtmlToJson.elementToJson (Element "p" [] [Text "  Hello "]) 1
  = (HtmlToJson.JNode "p" [] [] (Some (lit "Hello")), 3).
Proof.
  apply (proj1 C9_single_string_child_becomes_textContent); reflexivity.
Defined.

Module JsonFacts.
Import HtmlToJson.

Lemma push_child_kept children childNode :
  Forall kept children -> childNode = JText [] \/ kept childNode ->
  Forall kept (push_child children childNode).
Proof.
  intros Hc [-> | Hk]; [exact Hc|].
  unfold push_child. destruct Hk as [s Hne Ht | name attribs s Hne Ht | name attribs cs Hcs Hs].
  - rewrite Ht. destruct s; [contradiction|].
    apply Forall_app. split; [exact Hc|]. constructor; [|constructor].
    now constructor.
  - apply Forall_app. split; [exact Hc|]. constructor; [|constructor].
    now constructor.
  - apply Forall_app. split; [exact Hc|]. constructor; [|constructor].
    now constructor.
Qed.

Lemma convert_children_kept kids :
  Forall (fun k => forall c, fst (elementToJson k c) = JText []
                             \/ kept (fst (elementToJson k c))) kids ->
  forall children c,
    Forall kept children ->
    Forall kept (fst (convert_children elementToJson kids children c)).
Proof.
  induction 1 as [|k kids Hk _ IH]; intros children c Hc; [exact Hc|].
  cbn [convert_children]. specialize (Hk c).
  destruct (elementToJson k c) as [childNode c']. cbn [fst] in Hk.
  apply IH. now apply push_child_kept.
Qed.

Lemma finish_kept name attribs children :
  Forall kept children -> kept (finish name attribs children).
Proof.
  intro H. unfold finish.
  destruct children as [|[s|n a cs tc] [|j rest]];
    try (apply kept_node; [exact H | intros ?; discriminate]).
  inversion H as [|? ? Hs _]; subst. inversion Hs; subst. now apply kept_leaf.
Qed.

(** X23. The exported tree holds no empty or blank string, no comment and no
    script: what [elementToJson] returns is the empty string, or a kept
    string, or a node all of whose children are kept, with [textContent]
    exactly when its only child was a string, its children being empty
    then. *)
Theorem exported_tree_keeps_no_blank :
  forall element nodeCount,
    fst (elementToJson element nodeCount) = JText []
    \/ kept (fst (elementToJson element nodeCount)).
Proof.
  induction element as [d|d|d|name attribs kids IH] using node_induction;
    intro nodeCount; cbn [elementToJson fst]; auto.
  - destruct (trim d) eqn:E; [now left|]. right.
    constructor; [discriminate|]. rewrite <- E. apply trim_idempotent.
  - destruct (is_tag name); [|now left]. right.
    pose proof (convert_children_kept kids IH [] (S nodeCount) (Forall_nil _)) as H.
    destruct (convert_children elementToJson kids [] (S nodeCount))
      as [children c']. cbn [fst] in *. now apply finish_kept.
Qed.

(** *** The counter *)

Lemma push_child_count children childNode :
  list_sum (map json_count (push_child children childNode))
  <= list_sum (map json_count children) + json_count childNode.
Proof.
  unfold push_child.
  destruct childNode as [s|n a cs tc].
  - destruct (trim s); [lia|]. rewrite map_app, list_sum_app. simpl. lia.
  - rewrite map_app, list_sum_app. simpl. lia.
Qed.

Lemma finish_count name attribs children :
  json_count (finish name attribs children)
  <= S (list_sum (map json_count children)).
Proof.
  unfold finish. destruct children as [|[s|n a cs tc] [|j rest]]; simpl; lia.
Qed.

Lemma convert_children_count kids :
  Forall (fun k => forall c,
              c < snd (elementToJson k c) <= c + node_count k
              /\ json_count (fst (elementToJson k c)) + c
                 <= snd (elementToJson k c)
              /\ (tags_only k = true ->
                  snd (elementToJson k c) = c + node_count k)) kids ->
  forall children c,
    c <= snd (convert_children elementToJson kids children c)
         <= c + list_sum (map node_count kids)
    /\ list_sum (map json_count
                     (fst (convert_children elementToJson kids children c))) + c
       <= list_sum (map json_count children)
          + snd (convert_children elementToJson kids children c)
    /\ (forallb tags_only kids = true ->
        snd (convert_children elementToJson kids children c)
        = c + list_sum (map node_count kids)).
Proof.
  induction 1 as [|k kids Hk _ IH]; intros children c.
  - simpl. repeat split; intros; lia.
  - cbn [convert_children map forallb].
    change (list_sum (node_count k :: map node_count kids))
      with (node_count k + list_sum (map node_count kids)).
    pose proof (Hk c) as Hkc.
    destruct (elementToJson k c) as [childNode c']. cbn [fst snd] in *.
    destruct Hkc as [H1 [H2 H3]].
    destruct (IH (push_child children childNode) c') as [H4 [H5 H6]].
    pose proof (push_child_count children childNode) as H7.
    split; [lia|]. split; [lia|].
    intro Ht. apply andb_true_iff in Ht. destruct Ht as [Ht1 Ht2].
    rewrite (H6 Ht2), (H3 Ht1). lia.
Qed.

Lemma elementToJson_counts :
  forall element nodeCount,
    nodeCount < snd (elementToJson element nodeCount)
              <= nodeCount + node_count element
    /\ json_count (fst (elementToJson element nodeCount)) + nodeCount
       <= snd (elementToJson element nodeCount)
    /\ (tags_only element = true ->
        snd (elementToJson element nodeCount) = nodeCount + node_count element).
Proof.
  induction element as [d|d|d|name attribs kids IH] using node_induction;
    intro nodeCount; cbn [elementToJson fst snd node_count tags_only json_count];
    try (repeat split; lia).
  destruct (is_tag name) eqn:Et.
  - destruct (convert_children_count kids IH [] (S nodeCount)) as [H1 [H2 H3]].
    pose proof (finish_count name attribs
                  (fst (convert_children elementToJson kids [] (S nodeCount))))
      as H4.
    destruct (convert_children elementToJson kids [] (S nodeCount))
      as [children c']. cbn [fst snd map] in *.
    change (list_sum []) with 0 in *.
    split; [lia|]. split; [lia|].
    intro Ht. cbn [andb] in Ht. rewrite (H3 Ht). lia.
  - cbn [fst snd json_count]. split; [lia|]. split; [lia|]. discriminate.
Qed.

(** X24. [nodeCount] counts the nodes visited, kept or not: it goes up by at
    least one and by at most the number of nodes of the subtree, by exactly
    that number when the subtree has no [script] and no [style]; the exported
    tree never has more entries than were counted. *)
Theorem node_count_is_the_nodes_visited :
  forall element nodeCount,
    nodeCount < snd (elementToJson element nodeCount)
              <= nodeCount + node_count element
    /\ json_count (fst (elementToJson element nodeCount)) + nodeCount
       <= snd (elementToJson element nodeCount)
    /\ (tags_only element = true ->
        snd (elementToJson element nodeCount) = nodeCount + node_count element).
Proof.
  intros element nodeCount.
  destruct (elementToJson_counts element nodeCount) as [[Hlow Hhigh] [Hjson Htags]].
  split; [split; assumption|]. split; [exact Hjson|].
  intro Hclean. now apply Htags.
Qed.

Lemma node_count_witness :
  snd (elementToJson (Element "p" [] [Text "Hello"; Comment "x"]) 0) = 3.
Proof.
  apply (proj2 (proj2 (node_count_is_the_nodes_visited
                         (Element "p" [] [Text "Hello"; Comment "x"]) 0))).
  reflexivity.
Defined.

End JsonFacts.

(** ** AIService *)

Module AIFacts.
Import AIService.

(** X26. [extractOptimizedHTML]: what it returns has no white space at its
    ends; a response without a backquote is returned trimmed; of a response
    with a fenced block after text without backquotes, the trimmed content of
    the block is returned. *)
Theorem extracted_html_is_the_fenced_text :
  (forall response,
      trim (extractOptimizedHTML response) = extractOptimizedHTML response)
  /\ (forall response,
        ~ In "`"%char response -> extractOptimizedHTML response = trim response)
  /\ (forall before inner after,
        ~ In "`"%char before -> ~ In "`"%char inner ->
        extractOptimizedHTML (before ++ html_fence ++ inner ++ fence ++ after)
        = trim inner).
Proof.
  split; [|split].
  - intro response. unfold extractOptimizedHTML.
    destruct (cut_at html_fence response) as [[u rest]|];
      [|apply trim_idempotent].
    destruct (cut_at fence rest) as [[inner v]|]; apply trim_idempotent.
  - intros response H. unfold extractOptimizedHTML, html_fence.
    change (lit "```html") with ("`"%char :: lit "``html").
    now rewrite cut_at_none.
  - intros before inner after Hb Hi. unfold extractOptimizedHTML, html_fence, fence.
    change (lit "```html" ++ inner ++ lit "```" ++ after)
      with ("`"%char :: lit "``html" ++ inner ++ lit "```" ++ after).
    change (lit "```html") with ("`"%char :: lit "``html").
    rewrite cut_at_first by exact Hb.
    change (inner ++ lit "```" ++ after)
      with (inner ++ "`"%char :: lit "``" ++ after).
    change (lit "```") with ("`"%char :: lit "``").
    now rewrite cut_at_first.
Qed.

Lemma extracted_html_witness :
  extractOptimizedHTML
    (lit "Here it is: " ++ html_fence
       ++ ([nl] ++ lit "<b>x</b>" ++ [nl]) ++ fence ++ lit " done")
  = lit "<b>x</b>".
Proof.
  rewrite (proj2 (proj2 extracted_html_is_the_fenced_text)
                 (lit "Here it is: ") ([nl] ++ lit "<b>x</b>" ++ [nl])
                 (lit " done")).
  - reflexivity.
  - intro H. vm_compute in H. intuition discriminate.
  - intro H. vm_compute in H. intuition discriminate.
Defined.

End AIFacts.

(** ** GcsUploadService *)

Module UploadFacts.
Import HtmlToJson GcsUpload JsonFacts.

Lemma fold_sum (f : value -> nat) items :
  forall acc,
    fold_left (fun sum item => sum + f item) items acc
    = acc + list_sum (map f items).
Proof.
  induction items as [|x items IH]; intro acc; simpl; [lia|].
  rewrite IH. lia.
Qed.

Lemma countNodes_array items :
  countNodes (Array items) = list_sum (map countNodes items).
Proof. cbn [countNodes]. now rewrite fold_sum. Qed.

Lemma counts_agree j :
  countNodes (as_value j) + text_leaves j = json_count j.
Proof.
  induction j as [s | name attribs children textContent IH]
    using jvalue_induction; [reflexivity|].
  cbn [as_value text_leaves json_count].
  change (countNodes (Object (Some (Array (map as_value children)))))
    with (1 + countNodes (Array (map as_value children))).
  rewrite countNodes_array, map_map.
  assert (E : list_sum (map (fun x => countNodes (as_value x)) children)
              + list_sum (map text_leaves children)
              = list_sum (map json_count children)).
  { induction IH as [|x children Hx _ IHc]; [reflexivity|].
    cbn [map]. change (list_sum (?a :: ?l)) with (a + list_sum l). lia. }
  lia.
Qed.

(** X25. [countNodes] on a tree exported by [elementToJson]: it counts the
    objects and the strings among the children, and no [textContent]; with
    the nodes that carry one it makes up the entries of the tree, so it never
    exceeds the [totalNodes] counted at the export. *)
Theorem countNodes_of_an_exported_tree :
  forall element nodeCount,
    countNodes (as_value (fst (elementToJson element nodeCount)))
    + text_leaves (fst (elementToJson element nodeCount))
    = json_count (fst (elementToJson element nodeCount))
    /\ countNodes (as_value (fst (elementToJson element nodeCount))) + nodeCount
       <= snd (elementToJson element nodeCount).
Proof.
  intros element nodeCount.
  pose proof (counts_agree (fst (elementToJson element nodeCount))) as H.
  destruct (elementToJson_counts element nodeCount) as [_ [H2 _]].
  split; [exact H | lia].
Qed.

End UploadFacts.
